(** * sailfish: relativistic hydrodynamics kernels and the patch-based solver

    A shallow embedding of [sailfish/lib_srhd.py] (the device functions
    [prim_to_cons], [cons_to_prim], [cons_to_prim_check],
    [prim_and_cons_to_flux], [sound_speed_squared], [outer_wavespeeds],
    [max_wavespeed], [riemann_hlle]) and of [sailfish/solvers/srhd_2d.py]
    (the classes [Patch] and [Solver]).

    The C [double] is kept abstract behind the interface [Arith], with two
    instances: [binary64] (IEEE-754 doubles, the arithmetic the kernels run
    on; every definition evaluates there) and [exact] (the real numbers, the
    arithmetic in which the analytic identities of the kernels hold). *)

From Stdlib Require Import String.
From Stdlib Require Import List ZArith Lia Bool.
From Stdlib Require Import Floats.
From Stdlib Require Import Reals Lra Psatz.
Import ListNotations.

Set Warnings "-inexact-float".

(* ================================================================== *)
(** ** The arithmetic of a C [double] *)

Declare Scope arith_scope.
Delimit Scope arith_scope with A.

(** The operations and literals the kernels use. [fltb] is C's [<];
    [a > b] is read as [fltb b a]. *)
Class Arith (F : Type) := {
  fadd : F -> F -> F;
  fsub : F -> F -> F;
  fmul : F -> F -> F;
  fdiv : F -> F -> F;
  fsqrt : F -> F;
  ffabs : F -> F;
  fltb : F -> F -> bool;
  fofZ : Z -> F;   (* an integer-valued literal: 0.0, 1.0, 3.0, ... *)
  lit1em10 : F;    (* 1e-10 *)
  lit1em12 : F     (* 1e-12 *)
}.

Abbreviation lit0 := (fofZ 0).
Abbreviation lit1 := (fofZ 1).

Infix "+" := fadd : arith_scope.
Infix "-" := fsub : arith_scope.
Infix "*" := fmul : arith_scope.
Infix "/" := fdiv : arith_scope.
Infix "<?" := fltb : arith_scope.

(** IEEE-754 binary64, round to nearest even.  The integer literals of the
    sources are small enough to be doubles exactly. *)
Definition float_of_Z (z : Z) : float :=
  match z with
  | Z0 => 0%float
  | Zpos _ => PrimFloat.of_uint63 (Uint63.of_Z z)
  | Zneg _ => PrimFloat.opp (PrimFloat.of_uint63 (Uint63.of_Z (Z.opp z)))
  end.

#[export] Instance binary64 : Arith float := {|
  fadd := PrimFloat.add;
  fsub := PrimFloat.sub;
  fmul := PrimFloat.mul;
  fdiv := PrimFloat.div;
  fsqrt := PrimFloat.sqrt;
  ffabs := PrimFloat.abs;
  fltb := PrimFloat.ltb;
  fofZ := float_of_Z;
  lit1em10 := 1e-10%float;
  lit1em12 := 1e-12%float
|}.

(** Exact real arithmetic. *)
Definition Rltb (a b : R) : bool := if Rlt_dec a b then true else false.

#[export] Instance exact : Arith R := {|
  fadd := Rplus;
  fsub := Rminus;
  fmul := Rmult;
  fdiv := Rdiv;
  fsqrt := R_sqrt.sqrt;
  ffabs := Rabs;
  fltb := Rltb;
  fofZ := IZR;
  lit1em10 := 1e-10%R;
  lit1em12 := 1e-12%R
|}.

(** What a device function or a Python method does: it returns, or the
    process ends ([exit(1)] in a kernel, an exception nobody catches in the
    driver). *)
Inductive outcome (A : Type) : Type :=
| Returned (a : A)
| Aborted.
Arguments Returned {A} a.
Arguments Aborted {A}.

Definition bind {A B : Type} (x : outcome A) (k : A -> outcome B) : outcome B :=
  match x with
  | Returned a => k a
  | Aborted => Aborted
  end.

Notation "x <- c ;; k" := (bind c (fun x => k))
  (at level 61, c at next level, right associativity).

(* ================================================================== *)
(** ** lib_srhd.py: the physics kernel set *)

(** [NPRIM] is a compile-time macro; any value but 3, 4 or 5 is a
    preprocessor [#error]. *)
Inductive nprim : Type := NPRIM3 | NPRIM4 | NPRIM5.

Module LibSrhd.
Section Kernels.
Context {F : Type} {AR : Arith F}.
Variable NPRIM : nprim.
Variable GAMMA_LAW_INDEX : F.
Local Open Scope arith_scope.

Definition NCONS : nat :=
  match NPRIM with NPRIM3 => 3 | NPRIM4 => 4 | NPRIM5 => 5 end.
Definition NVECS : nat :=
  match NPRIM with NPRIM3 => 1 | NPRIM4 => 2 | NPRIM5 => 3 end.
Definition RHO : nat := 0.
Definition UXX : nat := 1.
Definition UYY : nat := 2.
Definition UZZ : nat := 3.
Definition PRE : nat :=
  match NPRIM with NPRIM3 => 2 | NPRIM4 => 3 | NPRIM5 => 4 end.
Definition DEN : nat := 0.
Definition SXX : nat := 1.
Definition SYY : nat := 2.
Definition SZZ : nat := 3.
Definition NRG : nat :=
  match NPRIM with NPRIM3 => 2 | NPRIM4 => 3 | NPRIM5 => 4 end.

(** [a[i]] on a [double *]. *)
Definition rd (a : list F) (i : nat) : F := nth i a lit0.

Definition min2 (a b : F) : F := if a <? b then a else b.
Definition max2 (a b : F) : F := if b <? a then a else b.
Definition min3 (a b c : F) : F := min2 a (min2 b c).
Definition max3 (a b c : F) : F := max2 a (max2 b c).

(** [(direction == k)] used as a [double]. *)
Definition dir_is (direction k : Z) : F :=
  if Z.eqb direction k then lit1 else lit0.

(** The enthalpy factor [1.0 + 1.0 / (GAMMA_LAW_INDEX - 1.0)]. *)
Definition gamma_factor : F := lit1 + lit1 / (GAMMA_LAW_INDEX - lit1).

(** [prim_to_cons(p, u)]: every entry of [u] is written, in index order. *)
Definition prim_to_cons (p : list F) : list F :=
  match NPRIM with
  | NPRIM3 =>
      let rho := rd p RHO in
      let gbx := rd p UXX in
      let pre := rd p PRE in
      let w := fsqrt (lit1 + gbx * gbx) in
      let h := lit1 + pre / rho * gamma_factor in
      let m := rho * w in
      [m; m * h * gbx; m * (h * w - lit1) - pre]
  | NPRIM4 =>
      let rho := rd p RHO in
      let gbx := rd p UXX in
      let gby := rd p UYY in
      let pre := rd p PRE in
      let w := fsqrt (lit1 + gbx * gbx + gby * gby) in
      let h := lit1 + pre / rho * gamma_factor in
      let m := rho * w in
      [m; m * h * gbx; m * h * gby; m * (h * w - lit1) - pre]
  | NPRIM5 =>
      let rho := rd p RHO in
      let gbx := rd p UXX in
      let gby := rd p UYY in
      let gbz := rd p UZZ in
      let pre := rd p PRE in
      let w := fsqrt (lit1 + gbx * gbx + gby * gby + gbz * gbz) in
      let h := lit1 + pre / rho * gamma_factor in
      let m := rho * w in
      [m; m * h * gbx; m * h * gby; m * h * gbz; m * (h * w - lit1) - pre]
  end.

(** [ss], the squared momentum, as [cons_to_prim] sums it. *)
Definition momentum_squared (u : list F) : F :=
  match NPRIM with
  | NPRIM3 => rd u SXX * rd u SXX
  | NPRIM4 => rd u SXX * rd u SXX + rd u SYY * rd u SYY
  | NPRIM5 => rd u SXX * rd u SXX + rd u SYY * rd u SYY + rd u SZZ * rd u SZZ
  end.

Definition newton_iter_max : nat := 50.
Definition error_tolerance : F := lit1em12.

(** The values one pass of the [while (1)] body computes from the current
    pressure: the Lorentz factor [w], the residual [f] and the derivative
    proxy [g]. *)
Record pass := { pass_w : F; pass_f : F; pass_g : F }.

Definition newton_pass (m tau ss pre : F) : pass :=
  let et := tau + pre + m in
  let b2 := min2 (ss / et / et) (lit1 - lit1em10) in
  let w2 := lit1 / (lit1 - b2) in
  let w := fsqrt w2 in
  let e := (tau + m * (lit1 - w) + pre * (lit1 - w2)) / (m * w) in
  let rho := m / w in
  let h := lit1 + e + pre / rho in
  let a2 := GAMMA_LAW_INDEX * pre / (rho * h) in
  let f := rho * e * (GAMMA_LAW_INDEX - lit1) - pre in
  let g := b2 * a2 - lit1 in
  {| pass_w := w; pass_f := f; pass_g := g |}.

(** [pre -= f / g]. *)
Definition newton_update (m tau ss pre : F) : F :=
  let v := newton_pass m tau ss pre in
  pre - pass_f v / pass_g v.

(** The pressure after [k] updates, and the test [fabs(f) < error_tolerance]
    on the residual at a pressure. *)
Fixpoint newton_iterate (m tau ss pre : F) (k : nat) : F :=
  match k with
  | O => pre
  | S k' => newton_iterate m tau ss (newton_update m tau ss pre) k'
  end.

Definition converged (m tau ss pre : F) : bool :=
  ffabs (pass_f (newton_pass m tau ss pre)) <? error_tolerance.

(** The loop: [fuel] bounds the number of passes the model may take;
    [None] is a run that needs more.  A pass updates the pressure, then
    tests the residual it was computed from, then the counter. *)
Fixpoint newton_loop (fuel : nat) (m tau ss pre : F) (iteration : nat)
  : option (outcome (F * F)) :=
  match fuel with
  | O => None
  | S fuel' =>
      let v := newton_pass m tau ss pre in
      let pre' := pre - pass_f v / pass_g v in
      if ffabs (pass_f v) <? error_tolerance then
        Some (Returned (pass_w v, pre'))
      else if Nat.eqb iteration newton_iter_max then
        Some Aborted
      else
        newton_loop fuel' m tau ss pre' (S iteration)
  end.

(** The primitives written once the loop has left with [w0] and [pre]. *)
Definition write_prim (u : list F) (w0 pre : F) : list F :=
  let m := rd u DEN in
  let tau := rd u NRG in
  match NPRIM with
  | NPRIM3 => [m / w0; w0 * rd u 1 / (tau + m + pre); pre]
  | NPRIM4 => [m / w0; w0 * rd u 1 / (tau + m + pre);
               w0 * rd u 2 / (tau + m + pre); pre]
  | NPRIM5 => [m / w0; w0 * rd u 1 / (tau + m + pre);
               w0 * rd u 2 / (tau + m + pre);
               w0 * rd u 3 / (tau + m + pre); pre]
  end.

(** [cons_to_prim(u, p)]: the pressure found in [p] on entry is the first
    guess; the result is the new content of [p].  The counter stops the
    loop after [newton_iter_max + 1] passes at most, which is the fuel. *)
Definition cons_to_prim (u p : list F) : outcome (list F) :=
  match newton_loop (S newton_iter_max)
          (rd u DEN) (rd u NRG) (momentum_squared u) (rd p PRE) 0 with
  | Some (Returned (w0, pre)) => Returned (write_prim u w0 pre)
  | Some Aborted => Aborted
  | None => Aborted
  end.

(** [cons_to_prim_check(u, p)]: the status and the new content of [p]. *)
Definition cons_to_prim_check (u p : list F) : outcome (Z * list F) :=
  p' <- cons_to_prim u p ;;
  if rd u DEN <? lit0 then Returned (1%Z, p')
  else if rd u NRG <? lit0 then Returned (2%Z, p')
  else if rd p' PRE <? lit0 then Returned (3%Z, p')
  else Returned (0%Z, p').

(** The four-velocity components and their squared norm, as the flux and
    wavespeed functions read them. *)
Definition four_velocity (p : list F) : F * F * F * F :=
  match NPRIM with
  | NPRIM3 =>
      let gbx := rd p UXX in
      (gbx, lit0, lit0, gbx * gbx)
  | NPRIM4 =>
      let gbx := rd p UXX in
      let gby := rd p UYY in
      (gbx, gby, lit0, gbx * gbx + gby * gby)
  | NPRIM5 =>
      let gbx := rd p UXX in
      let gby := rd p UYY in
      let gbz := rd p UZZ in
      (gbx, gby, gbz, gbx * gbx + gby * gby + gbz * gbz)
  end.

(** The [switch (direction)] of both functions; [vn] stays [0.0] for any
    other direction. *)
Definition normal_velocity (gbx gby gbz w : F) (direction : Z) : F :=
  match direction with
  | 1%Z => gbx / w
  | 2%Z => gby / w
  | 3%Z => gbz / w
  | _ => lit0
  end.

(** [prim_and_cons_to_flux(p, u, f, direction)].  The device function
    [prim_to_flux] of the module is not embedded: the C text it carries
    defines a second [prim_and_cons_to_flux], of three parameters, and
    calls [prim_to_cons], which is not among its device functions. *)
Definition prim_and_cons_to_flux (p u : list F) (direction : Z) : list F :=
  let '(gbx, gby, gbz, uu) := four_velocity p in
  let pre := rd p PRE in
  let w := fsqrt (lit1 + uu) in
  let vn := normal_velocity gbx gby gbz w direction in
  let f_den := vn * rd u DEN in
  let f_nrg := vn * rd u NRG + pre * vn in
  let f_sxx := vn * rd u SXX + pre * dir_is direction 1 in
  let f_syy := vn * rd u SYY + pre * dir_is direction 2 in
  let f_szz := vn * rd u SZZ + pre * dir_is direction 3 in
  match NPRIM with
  | NPRIM3 => [f_den; f_sxx; f_nrg]
  | NPRIM4 => [f_den; f_sxx; f_syy; f_nrg]
  | NPRIM5 => [f_den; f_sxx; f_syy; f_szz; f_nrg]
  end.

(** [sound_speed_squared(p)]; the density is read at index [DEN]. *)
Definition sound_speed_squared (p : list F) : F :=
  let rho := rd p DEN in
  let pre := rd p PRE in
  let rhoh := rho + pre * gamma_factor in
  pre / rhoh * GAMMA_LAW_INDEX.

(** [outer_wavespeeds(p, wavespeeds, direction)]: the pair written to
    [wavespeeds[0]] and [wavespeeds[1]]. *)
Definition outer_wavespeeds (p : list F) (direction : Z) : F * F :=
  let '(gbx, gby, gbz, uu) := four_velocity p in
  let w := fsqrt (lit1 + uu) in
  let a2 := sound_speed_squared p in
  let vn := normal_velocity gbx gby gbz w direction in
  let vv := uu / (lit1 + uu) in
  let v2 := vn * vn in
  let k0 := fsqrt (a2 * (lit1 - vv) * (lit1 - vv * a2 - v2 * (lit1 - a2))) in
  ((vn * (lit1 - a2) - k0) / (lit1 - vv * a2),
   (vn * (lit1 - a2) + k0) / (lit1 - vv * a2)).

(** [max_wavespeed(p)]. *)
Definition max_wavespeed (p : list F) : F :=
  let span (a : F * F) := max2 (ffabs (fst a)) (ffabs (snd a)) in
  match NPRIM with
  | NPRIM3 => span (outer_wavespeeds p 1)
  | NPRIM4 => max2 (span (outer_wavespeeds p 1)) (span (outer_wavespeeds p 2))
  | NPRIM5 => max3 (span (outer_wavespeeds p 1)) (span (outer_wavespeeds p 2))
                   (span (outer_wavespeeds p 3))
  end.

(** The loop body of [riemann_hlle], for one component [q]. *)
Definition hlle_component (fl fr ul ur ap am : F) : F :=
  (fl * ap - fr * am - (ul - ur) * ap * am) / (ap - am).

Fixpoint map4 (g : F -> F -> F -> F -> F) (a b c d : list F) : list F :=
  match a, b, c, d with
  | x :: a', y :: b', z :: c', t :: d' => g x y z t :: map4 g a' b' c' d'
  | _, _, _, _ => []
  end.

(** [riemann_hlle(pl, pr, flux, direction)]. *)
Definition riemann_hlle (pl pr : list F) (direction : Z) : list F :=
  let ul := prim_to_cons pl in
  let ur := prim_to_cons pr in
  let fl := prim_and_cons_to_flux pl ul direction in
  let fr := prim_and_cons_to_flux pr ur direction in
  let al := outer_wavespeeds pl direction in
  let ar := outer_wavespeeds pr direction in
  let am := min3 lit0 (fst al) (fst ar) in
  let ap := max3 lit0 (snd al) (snd ar) in
  map4 (fun a b c d => hlle_component a b c d ap am) fl fr ul ur.

End Kernels.

(** [GAMMA_LAW_INDEX] when the build does not define it. *)
Definition GAMMA_LAW_INDEX_default {F : Type} {AR : Arith F} : F :=
  (fofZ 5 / fofZ 3)%A.

End LibSrhd.

(** The kernels on doubles, with the default adiabatic index. *)
Definition gamma64 : float := LibSrhd.GAMMA_LAW_INDEX_default.


(* ================================================================== *)
(** ** numpy arrays along their first axis *)

(** An array of shape [(n, ...)] is the list of its [n] entries along
    axis 0.  Indices are Python integers: a negative one counts from the
    end, a slice bound is clamped, an index out of range raises. *)
Module Numpy.
Section Axis0.
Context {A : Type}.

Definition clamp_bound (n : nat) (i : Z) : Z :=
  if (i <? 0)%Z then Z.max (i + Z.of_nat n) 0 else Z.min i (Z.of_nat n).

(** The positions [a[start:stop]] covers: its first position and its
    length. [None] is an omitted bound. *)
Definition slice_range (n : nat) (start stop : option Z) : nat * nat :=
  let a := match start with None => 0%Z | Some i => clamp_bound n i end in
  let b := match stop with None => Z.of_nat n | Some i => clamp_bound n i end in
  (Z.to_nat a, Z.to_nat b - Z.to_nat a).

(** [a[start:stop]]. *)
Definition getslice (a : list A) (start stop : option Z) : list A :=
  let '(lo, k) := slice_range (length a) start stop in
  firstn k (skipn lo a).

(** [a[start:stop] = src]: the shapes agree, or [src] has one entry that
    is broadcast, or numpy raises [ValueError]. *)
Definition setslice (a : list A) (start stop : option Z) (src : list A)
  : outcome (list A) :=
  let '(lo, k) := slice_range (length a) start stop in
  if Nat.eqb (length src) k then
    Returned (firstn lo a ++ src ++ skipn (lo + k) a)
  else
    match src with
    | [x] => Returned (firstn lo a ++ repeat x k ++ skipn (lo + k) a)
    | _ => Aborted
    end.

(** The position of [a[i]], or [IndexError]. *)
Definition index_of (n : nat) (i : Z) : outcome nat :=
  let j := if (i <? 0)%Z then (i + Z.of_nat n)%Z else i in
  if ((0 <=? j)%Z && (j <? Z.of_nat n)%Z)%bool then Returned (Z.to_nat j)
  else Aborted.

(** [a[i]]. *)
Definition getitem (a : list A) (i : Z) : outcome A :=
  j <- index_of (length a) i ;;
  match nth_error a j with
  | Some x => Returned x
  | None => Aborted
  end.

(** [a[i] = x]. *)
Definition setitem (a : list A) (i : Z) (x : A) : outcome (list A) :=
  j <- index_of (length a) i ;;
  Returned (firstn j a ++ x :: skipn (S j) a).

(** [range(lo, hi)]. *)
Definition range (lo hi : Z) : list Z :=
  map (fun k => (lo + Z.of_nat k)%Z) (seq 0 (Z.to_nat (hi - lo))).

(** A [for] loop whose body may raise. *)
Fixpoint for_each {I S : Type} (body : S -> I -> outcome S) (s : S) (l : list I)
  : outcome S :=
  match l with
  | [] => Returned s
  | i :: l' => s' <- body s i ;; for_each body s' l'
  end.

End Axis0.
End Numpy.

(* ================================================================== *)
(** ** solvers/srhd_2d.py: Patch and Solver *)

Module Srhd2d.
Section Solver.
Context {F : Type} {AR : Arith F}.

(** [cell]: the [nq] doubles of one zone (the driver never looks inside);
    [faces_t]: what [mesh.faces] returns. *)
Context {cell : Type} {faces_t : Type}.
Variable zero_cell : cell.

(** An array of shape [(ni, nj, nq)], and one of shape [(ni, nj)]. *)
Definition array : Type := list (list cell).
Definition array2 : Type := list (list F).

(** The mesh collaborator ([sailfish.mesh]), as the solver reads it.
    [scale_factor_derivative] is [None] where [float(...)] raises, which
    the patch takes for a static mesh. *)
Record Mesh := {
  mesh_shape : nat * nat;
  faces : option (nat * nat) -> faces_t;
  polar_extent : F;
  mesh_scale_factor_derivative : option F;
  mesh_scale_factor : F -> F;
  cell_coordinates : F -> nat -> nat -> F * F
}.

(** The setup collaborator: [primitive(time, coords, buffer)] fills the
    zone [buffer]. *)
Record Setup := {
  boundary_condition : string;
  setup_primitive : F -> F * F -> cell -> cell
}.

(** Modelled from the spec: the kernels of [srhd_2d.c], which is not part
    of the sources.  Each is launched with positional buffer and scalar
    arguments, in the order of the Python call, and writes one buffer: the
    conserved array (primitive to conserved), the primitive buffer
    (conserved to primitive), the scratch buffer [conserved2] (one
    Runge-Kutta sub-stage), the wavespeed buffer (wavespeeds).  The
    function gives the buffer written.  The recovery kernel (conserved to
    primitive) follows the strict contract: where the pressure solve of a
    zone does not converge it ends the run, and the launch gives no
    buffer. *)
Record Library := {
  srhd_2d_primitive_to_conserved :
    faces_t -> array -> array -> F -> F -> array;
  srhd_2d_conserved_to_primitive :
    faces_t -> array -> array -> F -> F -> outcome array;
  srhd_2d_advance_rk :
    faces_t -> array -> array -> array -> array -> F -> F -> F -> F -> F -> F
    -> array;
  srhd_2d_max_wavespeeds :
    faces_t -> array -> array2 -> F -> array2
}.

Variable lib : Library.

(** *** class Patch *)

Record Patch := {
  shape : nat * nat;
  patch_faces : faces_t;
  patch_polar_extent : F;
  execution_context : nat;
  scale_factor_initial : F;
  scale_factor_derivative : F;
  time : F;
  time0 : F;
  wavespeeds : array2;
  primitive1 : array;
  conserved0 : array;
  conserved1 : array;
  conserved2 : array
}.

(** [xp.zeros(shape)] and [xp.zeros_like(a)]. *)
Definition zeros2 (sh : nat * nat) : array2 :=
  repeat (repeat lit0 (snd sh)) (fst sh).
Definition zeros (ni nj : nat) : array := repeat (repeat zero_cell nj) ni.
Definition zeros_like (a : array) : array :=
  map (fun r => repeat zero_cell (length r)) a.

(** [Patch.__init__]. *)
Definition Patch_init (t : F) (conserved : array) (mesh : Mesh)
    (index_range : nat * nat) (ctx : nat) : Patch :=
  let '(i0, i1) := index_range in
  let sh := (i1 - i0, snd (mesh_shape mesh)) in
  let '(a0, adot) :=
    match mesh_scale_factor_derivative mesh with
    | Some adot => (lit0, adot)
    | None => (lit1, lit0)
    end in
  {| shape := sh;
     patch_faces := faces mesh (Some index_range);
     patch_polar_extent := polar_extent mesh;
     execution_context := ctx;
     scale_factor_initial := a0;
     scale_factor_derivative := adot;
     time := t;
     time0 := t;
     wavespeeds := zeros2 sh;
     primitive1 := zeros_like conserved;
     conserved0 := conserved;
     conserved1 := conserved;
     conserved2 := conserved |}.

(** The property [Patch.scale_factor]. *)
Definition scale_factor (p : Patch) : F :=
  (scale_factor_initial p + scale_factor_derivative p * time p)%A.

Definition with_primitive1 (p : Patch) (a : array) : Patch :=
  {| shape := shape p; patch_faces := patch_faces p;
     patch_polar_extent := patch_polar_extent p;
     execution_context := execution_context p;
     scale_factor_initial := scale_factor_initial p;
     scale_factor_derivative := scale_factor_derivative p;
     time := time p; time0 := time0 p; wavespeeds := wavespeeds p;
     primitive1 := a;
     conserved0 := conserved0 p; conserved1 := conserved1 p;
     conserved2 := conserved2 p |}.

(** [Patch.recompute_primitive]. *)
Definition recompute_primitive (p : Patch) : outcome Patch :=
  a <- srhd_2d_conserved_to_primitive lib (patch_faces p) (conserved1 p)
         (primitive1 p) (patch_polar_extent p) (scale_factor p) ;;
  Returned (with_primitive1 p a).

(** [Patch.advance_rk]: the kernel writes the scratch buffer, the time is
    blended, the current and scratch buffers trade places. *)
Definition Patch_advance_rk (rk_param dt : F) (p : Patch) : Patch :=
  let written :=
    srhd_2d_advance_rk lib (patch_faces p) (conserved0 p) (primitive1 p)
      (conserved1 p) (conserved2 p) (patch_polar_extent p)
      (scale_factor_initial p) (scale_factor_derivative p) (time p)
      rk_param dt in
  {| shape := shape p; patch_faces := patch_faces p;
     patch_polar_extent := patch_polar_extent p;
     execution_context := execution_context p;
     scale_factor_initial := scale_factor_initial p;
     scale_factor_derivative := scale_factor_derivative p;
     time := (time0 p * rk_param + (time p + dt) * (lit1 - rk_param))%A;
     time0 := time0 p; wavespeeds := wavespeeds p;
     primitive1 := primitive1 p;
     conserved0 := conserved0 p;
     conserved1 := written;
     conserved2 := conserved1 p |}.

(** A NaN, told by the comparisons an arithmetic has: the one value that
    is neither below 1 nor above 0. *)
Definition is_nan (x : F) : bool :=
  (negb (x <? lit1) && negb (lit0 <? x))%A.

(** [ndarray.max()]: the largest entry, or a NaN if the array holds one
    (numpy propagates NaN, wherever it stands); an empty array raises. *)
Definition ndarray_max (a : array2) : outcome F :=
  match concat a with
  | [] => Aborted
  | x :: l =>
      Returned
        (fold_left
           (fun m y =>
              if is_nan m then m
              else if is_nan y then y
              else if (m <? y)%A then y else m)
           l x)
  end.

(** The property [Patch.maximum_wavespeed]: the value and the patch as the
    call leaves it. *)
Definition Patch_maximum_wavespeed (p : Patch) : outcome (F * Patch) :=
  p1 <- recompute_primitive p ;;
  let ws := srhd_2d_max_wavespeeds lib (patch_faces p1) (primitive1 p1)
              (wavespeeds p1) (scale_factor_derivative p1) in
  let p2 :=
    {| shape := shape p1; patch_faces := patch_faces p1;
       patch_polar_extent := patch_polar_extent p1;
       execution_context := execution_context p1;
       scale_factor_initial := scale_factor_initial p1;
       scale_factor_derivative := scale_factor_derivative p1;
       time := time p1; time0 := time0 p1; wavespeeds := ws;
       primitive1 := primitive1 p1;
       conserved0 := conserved0 p1; conserved1 := conserved1 p1;
       conserved2 := conserved2 p1 |} in
  m <- ndarray_max ws ;; Returned (m, p2).

(** [Patch.new_iteration]. *)
Definition Patch_new_iteration (p : Patch) : Patch :=
  {| shape := shape p; patch_faces := patch_faces p;
     patch_polar_extent := patch_polar_extent p;
     execution_context := execution_context p;
     scale_factor_initial := scale_factor_initial p;
     scale_factor_derivative := scale_factor_derivative p;
     time := time p; time0 := time p; wavespeeds := wavespeeds p;
     primitive1 := primitive1 p;
     conserved0 := conserved1 p; conserved1 := conserved1 p;
     conserved2 := conserved2 p |}.

(** *** class Solver *)

(** The patch methods and guard-zone writes the solver has issued, in
    order (a ghost field: the Python object keeps no such list). *)
Inductive call : Type :=
| NewIteration (i : nat)
| RecomputePrimitive (i : nat)
| SetBcPatch (i il ir : nat)
| AdvanceRk (i : nat) (rk_param dt : F).

Record Solver := {
  solver_mesh : Mesh;
  solver_setup : Setup;
  num_guard : nat;
  num_cons : nat;
  patches : list Patch;
  calls : list call
}.

Definition with_patches (s : Solver) (ps : list Patch) (cs : list call) : Solver :=
  {| solver_mesh := solver_mesh s; solver_setup := solver_setup s;
     num_guard := num_guard s; num_cons := num_cons s;
     patches := ps; calls := calls s ++ cs |}.

(** The buffer [getattr(patch, name)] names in [set_bc]. *)
Inductive buffer : Type := Primitive1 | Conserved0 | Conserved1 | Conserved2.

Definition getattr (p : Patch) (b : buffer) : array :=
  match b with
  | Primitive1 => primitive1 p
  | Conserved0 => conserved0 p
  | Conserved1 => conserved1 p
  | Conserved2 => conserved2 p
  end.

(** The patch whose buffer [b] holds [a]: what a write through the
    reference [getattr(patch, b)] leaves. *)
Definition setattr (p : Patch) (b : buffer) (a : array) : Patch :=
  {| shape := shape p; patch_faces := patch_faces p;
     patch_polar_extent := patch_polar_extent p;
     execution_context := execution_context p;
     scale_factor_initial := scale_factor_initial p;
     scale_factor_derivative := scale_factor_derivative p;
     time := time p; time0 := time0 p; wavespeeds := wavespeeds p;
     primitive1 := match b with Primitive1 => a | _ => primitive1 p end;
     conserved0 := match b with Conserved0 => a | _ => conserved0 p end;
     conserved1 := match b with Conserved1 => a | _ => conserved1 p end;
     conserved2 := match b with Conserved2 => a | _ => conserved2 p end |}.

(** The parts of a buffer with [ng] guard entries at each end, and the
    buffers the exchange is meant for: those with [ng] interior entries
    at least. *)
Definition interior (ng : nat) (a : array) : array :=
  firstn (length a - 2 * ng) (skipn ng a).
Definition left_guard (ng : nat) (a : array) : array := firstn ng a.
Definition right_guard (ng : nat) (a : array) : array :=
  skipn (length a - ng) a.
Definition wide_enough (ng : nat) (a : array) : Prop := 3 * ng <= length a.

(** What the exchange leaves in the buffer of patch [i0] among [n], from
    the interiors [ml], [mc], [mr] of its left neighbour, of itself and
    of its right neighbour. *)
Definition exchanged ng (n i0 : nat) (ml mc mr : array) : array :=
  (if Nat.eqb i0 0 then repeat (hd [] mc) ng else skipn (length ml - ng) ml)
  ++ mc ++
  (if Z.eqb (Z.of_nat i0) (Z.of_nat n - 1) then repeat (last mc []) ng
   else firstn ng mr).

(** [self.patches[i]]. *)
Definition patch_at (ps : list Patch) (i : nat) : outcome Patch :=
  match nth_error ps i with
  | Some p => Returned p
  | None => Aborted
  end.

(** The patches once buffer [b] of patch [i] holds [a]. The arrays are
    shared objects: a later read of patch [i], under whatever name, sees
    the write. *)
Definition store (ps : list Patch) (i : nat) (b : buffer) (a : array)
  : list Patch :=
  match nth_error ps i with
  | Some p => firstn i ps ++ setattr p b a :: skipn (S i) ps
  | None => ps
  end.

(** [Solver.set_bc_patch(pl, pc, pr, patch_index)], with [pl], [pc], [pr]
    the buffers [b] of the patches [il], [i0], [ir]. *)
Definition set_bc_patch (ng : nat) (b : buffer) (ps : list Patch)
    (il i0 ir : nat) : outcome (list Patch) :=
  let g := Z.of_nat ng in
  (* pc[:+ng] = pl[-2 * ng : -ng] *)
  pl <- patch_at ps il ;;
  pc <- patch_at ps i0 ;;
  a1 <- Numpy.setslice (getattr pc b) None (Some g)
          (Numpy.getslice (getattr pl b) (Some (-2 * g)%Z) (Some (- g)%Z)) ;;
  let ps1 := store ps i0 b a1 in
  (* pc[-ng:] = pr[+ng : +2 * ng] *)
  pr <- patch_at ps1 ir ;;
  a2 <- Numpy.setslice a1 (Some (- g)%Z) None
          (Numpy.getslice (getattr pr b) (Some g) (Some (2 * g)%Z)) ;;
  (* if patch_index == 0: for i in range(ng): pc[i] = pc[ng] *)
  a3 <- (if Nat.eqb i0 0 then
           Numpy.for_each
             (fun a i => x <- Numpy.getitem a g ;; Numpy.setitem a i x)
             a2 (Numpy.range 0 g)
         else Returned a2) ;;
  (* if patch_index == len(self.patches) - 1:
       for i in range(pc.shape[0] - ng, pc.shape[0]): pc[i] = pc[-ng - 1] *)
  a4 <- (if Z.eqb (Z.of_nat i0) (Z.of_nat (length ps) - 1) then
           Numpy.for_each
             (fun a i => x <- Numpy.getitem a (- g - 1)%Z ;; Numpy.setitem a i x)
             a3 (Numpy.range (Z.of_nat (length a3) - g) (Z.of_nat (length a3)))
         else Returned a3) ;;
  Returned (store ps i0 b a4).

(** The neighbours of patch [i0] among [n] patches. *)
Definition left_of (n i0 : nat) : nat := (i0 + n - 1) mod n.
Definition right_of (n i0 : nat) : nat := (i0 + n + 1) mod n.

(** [Solver.set_bc(array)]. *)
Definition set_bc (b : buffer) (s : Solver) : outcome Solver :=
  let ng := num_guard s in
  let num_patches := length (patches s) in
  ps <- Numpy.for_each
          (fun ps i0 =>
             set_bc_patch ng b ps (left_of num_patches i0) i0
               (right_of num_patches i0))
          (patches s) (seq 0 num_patches) ;;
  Returned
    (with_patches s ps
       (map (fun i0 =>
               SetBcPatch i0 (left_of num_patches i0) (right_of num_patches i0))
          (seq 0 num_patches))).

(** A solver whose buffers [b] the exchange is meant for: a guard width of
    one at least, and every patch wide enough. *)
Definition exchange_ready (b : buffer) (s : Solver) : Prop :=
  0 < num_guard s /\
  Forall (fun p => wide_enough (num_guard s) (getattr p b)) (patches s).

(** Buffer [b] of patch [i]. *)
Definition buffer_of (ps : list Patch) (i : nat) (b : buffer) : array :=
  match nth_error ps i with
  | Some p => getattr p b
  | None => []
  end.

(** The patches as the exchange leaves them, in closed form: each buffer
    [b] rebuilt from the interiors the patches had on entry. *)
Definition exchanged_patch (ng : nat) (b : buffer) (ps : list Patch)
    (i0 : nat) (p : Patch) : Patch :=
  let n := length ps in
  setattr p b
    (exchanged ng n i0
       (interior ng (buffer_of ps (left_of n i0) b))
       (interior ng (getattr p b))
       (interior ng (buffer_of ps (right_of n i0) b))).

Definition exchanged_patches (ng : nat) (b : buffer) (ps : list Patch)
  : list Patch :=
  map (fun ip => exchanged_patch ng b ps (fst ip) (snd ip))
    (combine (seq 0 (length ps)) ps).

(** [for patch in self.patches: patch.m()]. *)
Definition for_patches (m : Patch -> Patch) (ev : nat -> call) (s : Solver)
  : Solver :=
  with_patches s (map m (patches s)) (map ev (seq 0 (length (patches s)))).

(** The same loop for a method that may end the run: the patches after
    it are left untouched. *)
Definition for_patches_raising (m : Patch -> outcome Patch) (ev : nat -> call)
    (s : Solver) : outcome Solver :=
  ps <- Numpy.for_each (fun acc p => p' <- m p ;; Returned (acc ++ [p']))
          [] (patches s) ;;
  Returned (with_patches s ps (map ev (seq 0 (length (patches s))))).

(** [Solver.new_iteration]. *)
Definition new_iteration (s : Solver) : Solver :=
  for_patches Patch_new_iteration NewIteration s.

(** [Solver.advance_rk(rk_param, dt)]. *)
Definition advance_rk (rk_param dt : F) (s : Solver) : outcome Solver :=
  s1 <- for_patches_raising recompute_primitive RecomputePrimitive s ;;
  s2 <- set_bc Primitive1 s1 ;;
  Returned
    (for_patches (Patch_advance_rk rk_param dt)
       (fun i => AdvanceRk i rk_param dt) s2).

(** The three stage-weight lists [Solver.advance] builds ([0 / 1] and the
    like are Python's true division). *)
Definition bs_rk1 : list F := [fofZ 0 / fofZ 1]%A.
Definition bs_rk2 : list F := [fofZ 0 / fofZ 1; fofZ 1 / fofZ 2]%A.
Definition bs_rk3 : list F :=
  [fofZ 0 / fofZ 1; fofZ 3 / fofZ 4; fofZ 1 / fofZ 3]%A.

(** [Solver.advance(dt)]: the loop runs over [bs_rk2]. *)
Definition advance (dt : F) (s : Solver) : outcome Solver :=
  Numpy.for_each (fun s b => advance_rk b dt s) (new_iteration s) bs_rk2.

(** The calls of one stage of weight [w] on [n] patches, in the order the
    specification gives, and those of a whole cycle over the weights
    [bs]. *)
Definition stage_calls (n : nat) (w dt : F) : list call :=
  map RecomputePrimitive (seq 0 n) ++
  map (fun i => SetBcPatch i (left_of n i) (right_of n i)) (seq 0 n) ++
  map (fun i => AdvanceRk i w dt) (seq 0 n).

Definition schedule_calls (n : nat) (bs : list F) (dt : F) : list call :=
  map NewIteration (seq 0 n) ++ flat_map (fun w => stage_calls n w dt) bs.

(** The outcomes of a list, or none if one of them ended the run. *)
Fixpoint all_returned {A : Type} (l : list (outcome A)) : outcome (list A) :=
  match l with
  | [] => Returned []
  | x :: l' => a <- x ;; r <- all_returned l' ;; Returned (a :: r)
  end.

(** One stage as the specification words it, on the patches [ps] of the
    solver [s]: every patch recomputes its primitives; then the exchange
    runs over all of them, on the primitive buffers; then every patch
    takes the sub-stage of weight [w]. *)
Definition specified_stage (w dt : F) (s : Solver) (ps : list Patch)
  : outcome (list Patch) :=
  ps1 <- all_returned (map recompute_primitive ps) ;;
  s2 <- set_bc Primitive1 (with_patches s ps1 []) ;;
  Returned (map (Patch_advance_rk w dt) (patches s2)).

(** The cycle the specification describes, for a list [bs] of stage
    weights: a new iteration on every patch, then the stages in order,
    patch list after patch list; the calls are [schedule_calls].  Written
    from the words of the specification, to be compared with [advance]. *)
Definition specified_cycle (bs : list F) (dt : F) (s : Solver)
  : outcome Solver :=
  ps <- Numpy.for_each (fun ps w => specified_stage w dt s ps)
          (map Patch_new_iteration (patches s)) bs ;;
  Returned (with_patches s ps (schedule_calls (length (patches s)) bs dt)).

(** [Solver.maximum_wavespeed()]: [return 1.0]. *)
Definition maximum_wavespeed (s : Solver) : F := fofZ 1.

(** The line left as a comment in [Solver.maximum_wavespeed]:
    [max(patch.maximum_wavespeed for patch in self.patches)], the global
    maximum the specification describes.  Python's [max] raises on an
    empty sequence. *)
Definition patchwise_maximum_wavespeed (s : Solver) : outcome F :=
  ms <- Numpy.for_each
          (fun acc p => r <- Patch_maximum_wavespeed p ;; Returned (acc ++ [fst r]))
          [] (patches s) ;;
  match ms with
  | [] => Aborted
  | x :: l => Returned (fold_left (fun m y => if (m <? y)%A then y else m) l x)
  end.

(** The property [Solver.time]. *)
Definition Solver_time (s : Solver) : outcome F :=
  p <- patch_at (patches s) 0 ;; Returned (time p).

(** [initial_condition(setup, mesh, time)]. *)
Definition initial_condition (setup : Setup) (mesh : Mesh) (t : F) : array :=
  map (fun i =>
         map (fun j =>
                setup_primitive setup t (cell_coordinates mesh t i j) zero_cell)
           (seq 0 (snd (mesh_shape mesh))))
    (seq 0 (fst (mesh_shape mesh))).

(** Modelled from the spec: [sailfish.subdivide.subdivide], which is not
    part of the sources.  [P] contiguous ranges covering [[0, N)], widths
    differing by at most one, the remainder given to the first [N mod P]
    patches. *)
Definition subdivide (N P : nat) : list (nat * nat) :=
  map (fun k =>
         let a := k * (N / P) + Nat.min k (N mod P) in
         let w := N / P + (if k <? N mod P then 1 else 0) in
         (a, a + w))
    (seq 0 P).

(** [Solver.__init__].  [num_devices] stands for [num_devices(mode)]; a
    [ValueError], a shape mismatch or a division by zero ends the
    construction. *)
Definition Solver_init (setup : Setup) (mesh : Mesh) (t : F)
    (solution : option array) (num_patches num_devices : nat)
  : outcome Solver :=
  let ng := 2 in
  let nq := 4 in
  if negb (String.eqb (boundary_condition setup) "outflow") then Aborted
  else
    let conserved :=
      match solution with
      | None =>
          let primitive := initial_condition setup mesh t in
          srhd_2d_primitive_to_conserved lib (faces mesh None) primitive
            (zeros_like primitive) (polar_extent mesh) (mesh_scale_factor mesh t)
      | Some c => c
      end in
    let ranges := subdivide (fst (mesh_shape mesh)) num_patches in
    ps <- Numpy.for_each
            (fun acc nab =>
               let '(n, (a, b)) := nab in
               cons <- Numpy.setslice
                         (zeros (b - a + 2 * ng) (snd (mesh_shape mesh)))
                         (Some (Z.of_nat ng)) (Some (- Z.of_nat ng)%Z)
                         (Numpy.getslice conserved (Some (Z.of_nat a))
                            (Some (Z.of_nat b))) ;;
               if Nat.eqb num_devices 0 then Aborted
               else
                 Returned
                   (acc ++ [Patch_init t cons mesh (a, b) (n mod num_devices)]))
            [] (combine (seq 0 (length ranges)) ranges) ;;
    Returned
      {| solver_mesh := mesh; solver_setup := setup;
         num_guard := ng; num_cons := nq;
         patches := ps; calls := [] |}.


End Solver.
End Srhd2d.

(* ================================================================== *)
(** ** Concrete states on doubles *)

Module OnDoubles.
Import LibSrhd.
Local Open Scope float_scope.

(** The state of the round-trip check at the end of [lib_srhd.py], for
    [nprim = 5], and the zero buffer it passes for the result. *)
Definition p_selftest : list float := [1; 2; 5; 1; 0.01].
Definition zeros5 : list float := [0; 0; 0; 0; 0].
Definition zeros3 : list float := [0; 0; 0].


(** A state whose recovery needs every pass the loop allows (density 10,
    four-velocity 8, pressure 1657), and its conserved form. *)
Definition p_slow : list float := [10; 8; 1657].
Definition u_slow : list float := prim_to_cons NPRIM3 gamma64 p_slow.

(** A conserved state of negative mass density. *)
Definition u_negative_density : list float := [-1; 0; 1].

(** A mildly relativistic state (density 1, four-velocity 0.5, pressure
    1), an ultrarelativistic one (four-velocity 41000000.3, pressure 10),
    and one whose squared four-velocity is beyond the range of a
    double. *)
Definition p_mild : list float := [1; 0.5; 1].
Definition p_ultra : list float := [1; 41000000.3; 10].
Definition p_overflow : list float := [1; 1e160; 1].

(** A hot gas in two dimensions (density 1, four-velocity 2 along the
    first axis, pressure 100). *)
Definition p_stiff_moving : list float := [1; 2; 0; 100].

(** Componentwise closeness of two arrays. *)
Definition close_to (tol : float) (a b : list float) : bool :=
  Nat.eqb (length a) (length b) &&
  forallb (fun xy => PrimFloat.ltb (PrimFloat.abs (fst xy - snd xy)) tol)
    (combine a b).




End OnDoubles.

(* ================================================================== *)
(** ** Concrete states in exact arithmetic *)

Module OnReals.
Local Open Scope R_scope.


(** A hot gas at rest (density 1, pressure 100). *)
Definition p_stiff : list R := [1; 0; 100].

End OnReals.


(* ================================================================== *)
(** ** Concrete solvers *)

Module Examples.
Import Srhd2d.

(** Zones that are plain numbers, one zone per row, and a library whose
    kernels leave the buffer they write as it is. *)
Definition idle_library : @Library float nat unit :=
  {| srhd_2d_primitive_to_conserved := fun _ _ u _ _ => u;
     srhd_2d_conserved_to_primitive := fun _ _ p _ _ => Returned p;
     srhd_2d_advance_rk := fun _ _ _ _ u2 _ _ _ _ _ _ => u2;
     srhd_2d_max_wavespeeds := fun _ _ ws _ => ws |}.

(** A static mesh of [ni] radial zones and one polar zone. *)
Definition mesh_of (ni : nat) : @Mesh float unit :=
  {| mesh_shape := (ni, 1);
     faces := fun _ => tt;
     polar_extent := 0%float;
     mesh_scale_factor_derivative := None;
     mesh_scale_factor := fun _ => 1%float;
     cell_coordinates := fun _ _ _ => (0%float, 0%float) |}.

Definition outflow_setup : @Setup float nat :=
  {| boundary_condition := "outflow"; setup_primitive := fun _ _ z => z |}.

Definition rows (a : list nat) : @array nat := map (fun x => [x]) a.

(** The patch over [[i0, i1)] whose buffers all hold [a]. *)
Definition patch_of (i0 i1 : nat) (a : list nat) : @Patch float nat unit :=
  with_primitive1 (Patch_init 0 0%float (rows a) (mesh_of i1) (i0, i1) 0) (rows a).

Definition solver_of (ni : nat) (ps : list (@Patch float nat unit))
  : @Solver float nat unit :=
  {| solver_mesh := mesh_of ni; solver_setup := outflow_setup;
     num_guard := 2; num_cons := 4; patches := ps; calls := [] |}.

(** Three patches of one interior zone each (zones 1, 2, 3), on a mesh of
    three zones; the guard zones hold two-digit marks. *)
Definition s_narrow : @Solver float nat unit :=
  solver_of 3
    [patch_of 0 1 [11; 12; 1; 13; 14];
     patch_of 1 2 [21; 22; 2; 23; 24];
     patch_of 2 3 [31; 32; 3; 33; 34]].

(** Two patches of two interior zones each (zones 1, 2 and 3, 4). *)
Definition s_wide : @Solver float nat unit :=
  solver_of 4
    [patch_of 0 2 [11; 12; 1; 2; 13; 14];
     patch_of 2 4 [21; 22; 3; 4; 23; 24]].

(** Buffer [Primitive1] of patch [i], as numbers. *)
Definition primitive_of (s : @Solver float nat unit) (i : nat) : list nat :=
  concat (buffer_of (patches s) i Primitive1).

(** Zones that hold the primitives of [NPRIM = 4], and a library whose
    wavespeed kernel applies [max_wavespeed] of [lib_srhd.py] to the
    interior zones (guard width 2); its other kernels are idle. *)
Definition wavespeed_library : @Library float (list float) unit :=
  {| srhd_2d_primitive_to_conserved := fun _ _ u _ _ => u;
     srhd_2d_conserved_to_primitive := fun _ _ p _ _ => Returned p;
     srhd_2d_advance_rk := fun _ _ _ _ u2 _ _ _ _ _ _ => u2;
     srhd_2d_max_wavespeeds := fun _ p _ _ =>
       map (map (LibSrhd.max_wavespeed NPRIM4 gamma64)) (interior 2 p) |}.

(** A gas at rest (density 1, pressure 1) on one patch of two zones. *)
Definition gas_at_rest : list float := [1; 0; 0; 1]%float.

Definition s_gas : @Solver float (list float) unit :=
  let a := repeat [gas_at_rest] 6 in
  {| solver_mesh := mesh_of 2;
     solver_setup :=
       {| boundary_condition := "outflow";
          setup_primitive := fun _ _ _ => gas_at_rest |};
     num_guard := 2; num_cons := 4;
     patches :=
       [with_primitive1 (Patch_init [] 0%float a (mesh_of 2) (0, 2) 0) a];
     calls := [] |}.

End Examples.

(* ================================================================== *)
(** ** States for the kernel properties *)

(** The state [p] with its four-velocity reversed. *)
Definition reverse_velocity {F : Type} {AR : Arith F} (NPRIM : nprim)
    (p : list F) : list F :=
  let neg x := (lit0 - x)%A in
  match NPRIM with
  | NPRIM3 =>
      [LibSrhd.rd p LibSrhd.RHO; neg (LibSrhd.rd p LibSrhd.UXX);
       LibSrhd.rd p (LibSrhd.PRE NPRIM3)]
  | NPRIM4 =>
      [LibSrhd.rd p LibSrhd.RHO; neg (LibSrhd.rd p LibSrhd.UXX);
       neg (LibSrhd.rd p LibSrhd.UYY); LibSrhd.rd p (LibSrhd.PRE NPRIM4)]
  | NPRIM5 =>
      [LibSrhd.rd p LibSrhd.RHO; neg (LibSrhd.rd p LibSrhd.UXX);
       neg (LibSrhd.rd p LibSrhd.UYY); neg (LibSrhd.rd p LibSrhd.UZZ);
       LibSrhd.rd p (LibSrhd.PRE NPRIM5)]
  end.

(** A state whose four-velocity components are all zero. *)
Definition at_rest (NPRIM : nprim) (p : list R) : Prop :=
  match NPRIM with
  | NPRIM3 => LibSrhd.rd p LibSrhd.UXX = 0%R
  | NPRIM4 => LibSrhd.rd p LibSrhd.UXX = 0%R /\ LibSrhd.rd p LibSrhd.UYY = 0%R
  | NPRIM5 => LibSrhd.rd p LibSrhd.UXX = 0%R /\ LibSrhd.rd p LibSrhd.UYY = 0%R /\
              LibSrhd.rd p LibSrhd.UZZ = 0%R
  end.

(** A solver in exact arithmetic: two patches of two interior zones each
    (zones 1, 2 and 3, 4) at time 3, on a static mesh of four zones; the
    kernels of its library leave the buffer they write as it is. *)
Module ExactExamples.
Import Srhd2d.
Local Open Scope R_scope.

Definition exact_library : @Library R nat unit :=
  {| srhd_2d_primitive_to_conserved := fun _ _ u _ _ => u;
     srhd_2d_conserved_to_primitive := fun _ _ p _ _ => Returned p;
     srhd_2d_advance_rk := fun _ _ _ _ u2 _ _ _ _ _ _ => u2;
     srhd_2d_max_wavespeeds := fun _ _ ws _ => ws |}.

Definition exact_mesh (ni : nat) : @Mesh R unit :=
  {| mesh_shape := (ni, 1%nat);
     faces := fun _ => tt;
     polar_extent := 0;
     mesh_scale_factor_derivative := None;
     mesh_scale_factor := fun _ => 1;
     cell_coordinates := fun _ _ _ => (0, 0) |}.

Definition exact_patch (i0 i1 : nat) (a : list nat) : @Patch R nat unit :=
  Patch_init 0%nat 3 (Examples.rows a) (exact_mesh i1) (i0, i1) 0%nat.

Definition s_exact : @Solver R nat unit :=
  {| solver_mesh := exact_mesh 4;
     solver_setup :=
       {| boundary_condition := "outflow"; setup_primitive := fun _ _ z => z |};
     num_guard := 2; num_cons := 4;
     patches := [exact_patch 0 2 [0; 0; 1; 2; 0; 0]%nat;
                 exact_patch 2 4 [0; 0; 3; 4; 0; 0]%nat];
     calls := [] |}.

End ExactExamples.

(** A solver whose sub-stage kernel does some work: zones that are plain
    numbers and grow at their own rate ([du/dt = u]); the kernel writes
    [u0 * rk + (u1 + dt * p) * (1 - rk)] zone by zone, the recovery kernel
    takes the conserved value for the primitive.  One patch of two
    zones of value 1, as the constructor builds it. *)
Module GrowthExample.
Import Srhd2d.
Local Open Scope float_scope.

Definition zip_with3 {A B C D : Type} (f : A -> B -> C -> D)
    (a : list A) (b : list B) (c : list C) : list D :=
  map (fun x => f (fst x) (fst (snd x)) (snd (snd x)))
    (combine a (combine b c)).

Definition growth_library : @Library float float unit :=
  {| srhd_2d_primitive_to_conserved := fun _ p _ _ _ => p;
     srhd_2d_conserved_to_primitive := fun _ u _ _ _ => Returned u;
     srhd_2d_advance_rk := fun _ u0 p u1 _ _ _ _ _ rk dt =>
       zip_with3
         (zip_with3 (fun a b c => a * rk + (c + dt * b) * (1 - rk)))
         u0 p u1;
     srhd_2d_max_wavespeeds := fun _ _ ws _ => ws |}.

Definition growth_setup : @Setup float float :=
  {| boundary_condition := "outflow"; setup_primitive := fun _ _ _ => 1 |}.

Definition s_growth : @Solver float float unit :=
  {| solver_mesh := Examples.mesh_of 2; solver_setup := growth_setup;
     num_guard := 2; num_cons := 4;
     patches :=
       [Patch_init 0 0 [[0]; [0]; [1]; [1]; [0]; [0]] (Examples.mesh_of 2)
          (0%nat, 2%nat) 0%nat];
     calls := [] |}.

(** The interior zones of the current conserved buffer of patch 0. *)
Definition solution_of (r : outcome (@Solver float float unit)) : list float :=
  match r with
  | Returned s => concat (interior 2 (buffer_of (patches s) 0 Conserved1))
  | Aborted => []
  end.

End GrowthExample.

(* ================================================================== *)
(** ** ideas/sailfish0.6.py: the slope limiter and the conservative update *)

(** What [plm_minmod] uses beyond the operations of [Arith]: [copysign]
    and the literals [0.5] and [0.25]. *)
Class Limiter (F : Type) := {
  fcopysign : F -> F -> F;
  lit0p5 : F;
  lit0p25 : F
}.

(** The reals have one zero, and its sign is positive.  (On doubles
    [copysign] reads the sign bit, which a NaN carries too; the primitive
    floats have one NaN and no way to tell its sign, so the limiter is
    given no instance on them.) *)
#[export] Instance exact_limiter : Limiter R := {|
  fcopysign x y := if Rlt_dec y 0 then Ropp (Rabs x) else Rabs x;
  lit0p5 := 0.5%R;
  lit0p25 := 0.25%R
|}.

Module Sailfish06.

Section Slopes.
Context {F : Type} {AR : Arith F} {LM : Limiter F}.
Local Open Scope arith_scope.

(** The macros of [plm_minmod]; [min2] and [min3] are those of
    [lib_srhd.py]. *)
Definition sign (x : F) : F := fcopysign lit1 x.
Definition minabs (a b c : F) : F :=
  LibSrhd.min3 (ffabs a) (ffabs b) (ffabs c).

(** [plm_minmod(yl, yc, yr, plm_theta)]. *)
Definition plm_minmod (yl yc yr plm_theta : F) : F :=
  let a := (yc - yl) * plm_theta in
  let b := (yr - yl) * lit0p5 in
  let c := (yr - yc) * plm_theta in
  lit0p25 * ffabs (sign a + sign b) * (sign a + sign c) * minabs a b c.

End Slopes.

Section Update.
Context {F : Type} {AR : Arith F}.
Local Open Scope arith_scope.

(** [a[i] = x] on a [double *]; the kernel writes within the array (a
    write outside it, undefined in C, leaves the model's array as it
    is). *)
Definition wr (a : list F) (i : nat) (x : F) : list F :=
  if Nat.ltb i (length a) then firstn i a ++ x :: skipn (S i) a else a.

(** Modelled from the spec: the macro [FOR_RANGE_1D(lo, hi)] of
    [new_kernels], which is not part of the sources.  The body runs for
    [i = lo, ..., hi - 1] (for no [i] when [hi <= lo]), as the comments of
    the kernels say of the zones they leave alone. *)
Definition FOR_RANGE_1D {S : Type} (lo hi : nat) (body : nat -> S -> S) (s : S)
  : S :=
  fold_left (fun s i => body i s) (seq lo (hi - lo)) s.

(** The body of the loop for zone [i]:
    [uc[q] -= (fp[q] - fm[q]) * dt / dx] for [q = 0, 1, 2], with
    [uc = &u[3 * i]], [fm = &f[3 * i]] and [fp = &f[3 * (i + 1)]]. *)
Definition update_zone (f : list F) (dt dx : F) (i : nat) (u : list F)
  : list F :=
  fold_left
    (fun u q =>
       wr u (3 * (i + 0) + q)
         (LibSrhd.rd u (3 * (i + 0) + q)
          - (LibSrhd.rd f (3 * (i + 1) + q) - LibSrhd.rd f (3 * (i + 0) + q))
            * dt / dx))
    (seq 0 3) u.

(** The kernel [conservative_update(u, f, dt, dx, ni)]: the new content
    of [u]. *)
Definition conservative_update_kernel (u f : list F) (dt dx : F) (ni : nat)
  : list F :=
  FOR_RANGE_1D 2 (ni - 2) (update_zone f dt dx) u.

(** The Python entry point: it launches the kernel with
    [ni = u.size // 3]. *)
Definition conservative_update (u f : list F) (dt dx : F) : list F :=
  conservative_update_kernel u f dt dx (length u / 3).

End Update.

End Sailfish06.

(** The total of component [q] over the zones [lo .. lo + n - 1] of an
    array of three doubles per zone. *)
Definition zone_sum (a : list R) (q lo n : nat) : R :=
  fold_right Rplus 0%R (map (fun i => LibSrhd.rd a (3 * i + q)) (seq lo n)).

(* ================================================================== *)
(** ** The Newton iteration of [cons_to_prim] *)

Section NewtonLoop.
Context {F : Type} {AR : Arith F}.
Variable GAMMA_LAW_INDEX : F.
Variables m tau ss : F.

Let loop := LibSrhd.newton_loop GAMMA_LAW_INDEX.
Let iter := LibSrhd.newton_iterate GAMMA_LAW_INDEX m tau ss.
Let conv := LibSrhd.converged GAMMA_LAW_INDEX m tau ss.
Let pass_at := LibSrhd.newton_pass GAMMA_LAW_INDEX m tau ss.

(** The loop returns on the first pass whose residual meets the tolerance,
    with the Lorentz factor of that pass and the pressure updated once
    more. *)
Lemma newton_loop_returns (k : nat) :
  forall fuel pre iteration,
    (forall j, j < k -> conv (iter pre j) = false) ->
    conv (iter pre k) = true ->
    iteration + k <= LibSrhd.newton_iter_max ->
    k < fuel ->
    loop fuel m tau ss pre iteration =
    Some (Returned (LibSrhd.pass_w (pass_at (iter pre k)), iter pre (S k))).
Proof.
  induction k as [|k IH]; intros fuel pre iteration Hlt Hk Hit Hfuel.
  - destruct fuel as [|fuel]; [lia|].
    cbn in Hk. unfold conv, LibSrhd.converged in Hk.
    cbn [loop LibSrhd.newton_loop]. unfold loop. cbn [LibSrhd.newton_loop].
    rewrite Hk. reflexivity.
  - destruct fuel as [|fuel]; [lia|].
    assert (H0 : conv pre = false) by (apply (Hlt 0); lia).
    unfold conv, LibSrhd.converged in H0.
    unfold loop. cbn [LibSrhd.newton_loop]. rewrite H0.
    assert (Hne : Nat.eqb iteration LibSrhd.newton_iter_max = false)
      by (apply Nat.eqb_neq; lia).
    rewrite Hne.
    apply (IH fuel (LibSrhd.newton_update GAMMA_LAW_INDEX m tau ss pre) (S iteration)).
    + intros j Hj. apply (Hlt (S j)). lia.
    + exact Hk.
    + lia.
    + lia.
Qed.

(** The loop exits fatally when the counter reaches [newton_iter_max] on a
    pass that, like all before it, misses the tolerance. *)
Lemma newton_loop_aborts (n : nat) :
  forall fuel pre iteration,
    iteration + n = LibSrhd.newton_iter_max ->
    (forall j, j <= n -> conv (iter pre j) = false) ->
    n < fuel ->
    loop fuel m tau ss pre iteration = Some Aborted.
Proof.
  induction n as [|n IH]; intros fuel pre iteration Hit Hall Hfuel.
  - destruct fuel as [|fuel]; [lia|].
    assert (H0 : conv pre = false) by (apply (Hall 0); lia).
    unfold conv, LibSrhd.converged in H0.
    unfold loop. cbn [LibSrhd.newton_loop]. rewrite H0.
    replace iteration with LibSrhd.newton_iter_max by lia.
    rewrite Nat.eqb_refl. reflexivity.
  - destruct fuel as [|fuel]; [lia|].
    assert (H0 : conv pre = false) by (apply (Hall 0); lia).
    unfold conv, LibSrhd.converged in H0.
    unfold loop. cbn [LibSrhd.newton_loop]. rewrite H0.
    assert (Hne : Nat.eqb iteration LibSrhd.newton_iter_max = false)
      by (apply Nat.eqb_neq; lia).
    rewrite Hne.
    apply (IH fuel (LibSrhd.newton_update GAMMA_LAW_INDEX m tau ss pre) (S iteration)).
    + lia.
    + intros j Hj. apply (Hall (S j)). lia.
    + lia.
Qed.

(** With the counter at [iteration], the loop is over within
    [newton_iter_max + 1 - iteration] passes, whatever the arithmetic
    does, and more fuel changes nothing. *)
Lemma newton_loop_bounded (n : nat) :
  forall pre iteration,
    iteration + n = LibSrhd.newton_iter_max ->
    exists r, forall fuel, n < fuel ->
      loop fuel m tau ss pre iteration = Some r.
Proof.
  induction n as [|n IH]; intros pre iteration Hit.
  - destruct (conv pre) eqn:Hc; unfold conv, LibSrhd.converged in Hc.
    + eexists. intros [|fuel] Hf; [lia|].
      unfold loop. cbn [LibSrhd.newton_loop]. rewrite Hc. reflexivity.
    + exists Aborted. intros [|fuel] Hf; [lia|].
      unfold loop. cbn [LibSrhd.newton_loop]. rewrite Hc.
      replace iteration with LibSrhd.newton_iter_max by lia.
      rewrite Nat.eqb_refl. reflexivity.
  - destruct (conv pre) eqn:Hc; unfold conv, LibSrhd.converged in Hc.
    + eexists. intros [|fuel] Hf; [lia|].
      unfold loop. cbn [LibSrhd.newton_loop]. rewrite Hc. reflexivity.
    + destruct (IH (LibSrhd.newton_update GAMMA_LAW_INDEX m tau ss pre)
                  (S iteration)) as [r Hr]; [lia|].
      exists r. intros [|fuel] Hf; [lia|].
      unfold loop. cbn [LibSrhd.newton_loop]. rewrite Hc.
      assert (Hne : Nat.eqb iteration LibSrhd.newton_iter_max = false)
        by (apply Nat.eqb_neq; lia).
      rewrite Hne. apply Hr. lia.
Qed.

(** The iteration terminates: from the counter at zero, the fuel
    [newton_iter_max + 1] of [cons_to_prim] is enough on every input. *)
Lemma newton_loop_terminates (pre : F) :
  exists r, forall fuel, LibSrhd.newton_iter_max < fuel ->
    loop fuel m tau ss pre 0 = Some r.
Proof. apply newton_loop_bounded. reflexivity. Qed.

End NewtonLoop.

(* ================================================================== *)
(** ** The kernels in exact arithmetic *)

Section ExactKernels.
Local Open Scope R_scope.

(** The boolean tests of the instance [exact]. *)
Lemma Rltb_true (a b : R) : a < b -> Rltb a b = true.
Proof. intros H. unfold Rltb. destruct (Rlt_dec a b); [reflexivity | contradiction]. Qed.

Lemma Rltb_false (a b : R) : b <= a -> Rltb a b = false.
Proof. intros H. unfold Rltb. destruct (Rlt_dec a b); [lra | reflexivity]. Qed.

Lemma Rdiv_lower (a x d : R) : 0 < d -> a * d <= x -> a <= x / d.
Proof.
  intros Hd H. apply Rmult_le_reg_r with d; [assumption|].
  replace (x / d * d) with x by (field; lra). assumption.
Qed.

Lemma Rdiv_upper (a x d : R) : 0 < d -> x <= a * d -> x / d <= a.
Proof.
  intros Hd H. apply Rmult_le_reg_r with d; [assumption|].
  replace (x / d * d) with x by (field; lra). assumption.
Qed.

(** The two roots [(b -+ k0) / d] of the characteristic quadratic, for a
    sound speed squared [a2], a speed squared [vv] and a normal velocity
    [vn]. *)
Lemma characteristic_roots (a2 vv vn : R) :
  0 < a2 < 1 -> 0 <= vv < 1 -> vn * vn <= vv ->
  let k0 := sqrt (a2 * (1 - vv) * (1 - vv * a2 - vn * vn * (1 - a2))) in
  let d := 1 - vv * a2 in
  0 < k0 /\ 0 < d /\
  -1 <= (vn * (1 - a2) - k0) / d /\
  (vn * (1 - a2) - k0) / d < (vn * (1 - a2) + k0) / d /\
  (vn * (1 - a2) + k0) / d <= 1.
Proof.
  intros Ha Hv Hn k0 d.
  assert (Hd : 0 < d) by (unfold d; nra).
  assert (Hd' : 0 < 1 - vv * a2) by exact Hd.
  assert (Hq : 0 < a2 * (1 - vv) * (1 - vv * a2 - vn * vn * (1 - a2))).
  { apply Rmult_lt_0_compat; [apply Rmult_lt_0_compat; lra | nra]. }
  assert (Hk : 0 < k0) by (apply sqrt_lt_R0; exact Hq).
  assert (Hkk : k0 * k0 = a2 * (1 - vv) * (1 - vv * a2 - vn * vn * (1 - a2)))
    by (apply sqrt_sqrt; lra).
  assert (Hvn : -1 < vn < 1).
  { assert (Hsq : vn * vn < 1) by lra.
    split.
    - destruct (Rlt_dec (-1) vn) as [|Hn']; [assumption|].
      assert (Hge : 1 <= - vn) by lra.
      pose proof (Rmult_le_compat 1 (- vn) 1 (- vn)) as Hm. nra.
    - destruct (Rlt_dec vn 1) as [|Hn']; [assumption|].
      assert (Hge : 1 <= vn) by lra.
      pose proof (Rmult_le_compat 1 vn 1 vn) as Hm. nra. }
  assert (Hup : k0 <= d - vn * (1 - a2)).
  { assert (0 <= d - vn * (1 - a2)) by (unfold d; nra).
    apply Rsqr_incr_0_var; [| assumption].
    unfold Rsqr. rewrite Hkk. unfold d.
    assert (0 <= (1 - vv * a2) * ((1 - a2) * ((1 - vn) * (1 - vn)))).
    { apply Rmult_le_pos; [lra|]. apply Rmult_le_pos; [lra|]. nra. }
    nra. }
  assert (Hlo : k0 <= d + vn * (1 - a2)).
  { assert (0 <= d + vn * (1 - a2)) by (unfold d; nra).
    apply Rsqr_incr_0_var; [| assumption].
    unfold Rsqr. rewrite Hkk. unfold d.
    assert (0 <= (1 - vv * a2) * ((1 - a2) * ((1 + vn) * (1 + vn)))).
    { apply Rmult_le_pos; [lra|]. apply Rmult_le_pos; [lra|]. nra. }
    nra. }
  repeat split; try assumption.
  - apply Rdiv_lower; [exact Hd | lra].
  - unfold Rdiv. apply Rmult_lt_compat_r; [apply Rinv_0_lt_compat; exact Hd | lra].
  - apply Rdiv_upper; [exact Hd | lra].
Qed.

(** The sound speed of a causal gamma-law gas is below the speed of light. *)
Lemma sound_speed_squared_range (NPRIM : nprim) (G : R) (p : list R) :
  1 < G <= 2 ->
  0 < LibSrhd.rd p LibSrhd.RHO ->
  0 < LibSrhd.rd p (LibSrhd.PRE NPRIM) ->
  0 < LibSrhd.sound_speed_squared NPRIM G p < 1.
Proof.
  intros HG Hrho Hpre.
  unfold LibSrhd.sound_speed_squared, LibSrhd.gamma_factor, LibSrhd.DEN.
  unfold LibSrhd.RHO in Hrho. cbn.
  set (rho := LibSrhd.rd p 0) in *.
  set (pre := LibSrhd.rd p (LibSrhd.PRE NPRIM)) in *.
  remember (1 + 1 / (G - 1)) as gf eqn:Hgf.
  assert (Hgf1 : gf * (G - 1) = G) by (subst gf; field; lra).
  assert (Hgf0 : 0 < gf).
  { subst gf. assert (0 < 1 / (G - 1)); [|lra].
    apply Rdiv_lt_0_compat; lra. }
  assert (HgfG : G <= gf) by nra.
  remember (rho + pre * gf) as D eqn:HD.
  assert (HD0 : 0 < D) by (subst D; nra).
  assert (Hle : pre * G < D) by (subst D; nra).
  assert (Ha : pre / D * G * D = pre * G) by (field; lra).
  split.
  - apply Rmult_lt_0_compat; [apply Rdiv_lt_0_compat|]; lra.
  - apply Rmult_lt_reg_r with D; [exact HD0|]. lra.
Qed.

(** The components of the four-velocity are bounded by its norm. *)
Lemma four_velocity_norm (NPRIM : nprim) (p : list R) :
  let '(gbx, gby, gbz, uu) := LibSrhd.four_velocity NPRIM p in
  0 <= uu /\ gbx * gbx <= uu /\ gby * gby <= uu /\ gbz * gbz <= uu.
Proof.
  unfold LibSrhd.four_velocity.
  destruct NPRIM; cbn; repeat split; nra.
Qed.

(** Whatever the direction, the normal velocity is one of the components
    of the three-velocity, or zero. *)
Lemma normal_velocity_square (gbx gby gbz uu : R) (direction : Z) :
  0 <= uu -> gbx * gbx <= uu -> gby * gby <= uu -> gbz * gbz <= uu ->
  let vn := LibSrhd.normal_velocity gbx gby gbz (sqrt (1 + uu)) direction in
  vn * vn <= uu / (1 + uu).
Proof.
  intros Hu Hx Hy Hz vn.
  assert (Hw : sqrt (1 + uu) * sqrt (1 + uu) = 1 + uu) by (apply sqrt_sqrt; lra).
  assert (Hw0 : 0 < sqrt (1 + uu)) by (apply sqrt_lt_R0; lra).
  assert (Hsq : forall g, g * g <= uu ->
            g / sqrt (1 + uu) * (g / sqrt (1 + uu)) <= uu / (1 + uu)).
  { intros g Hg.
    replace (g / sqrt (1 + uu) * (g / sqrt (1 + uu)))
      with (g * g / (sqrt (1 + uu) * sqrt (1 + uu))) by (field; lra).
    rewrite Hw. unfold Rdiv. apply Rmult_le_compat_r; [|exact Hg].
    left. apply Rinv_0_lt_compat. lra. }
  assert (H0 : 0 * 0 <= uu / (1 + uu)).
  { rewrite Rmult_0_l. apply Rdiv_lower; lra. }
  unfold vn, LibSrhd.normal_velocity.
  destruct direction as [|[[q|q|]|[q|q|]|]|q]; cbn; auto.
Qed.

(** The squared sound speed of a gas of positive density and pressure is
    positive, whatever the adiabatic index above 1. *)
Lemma sound_speed_squared_positive (NPRIM : nprim) (G : R) (p : list R) :
  1 < G ->
  0 < LibSrhd.rd p LibSrhd.RHO ->
  0 < LibSrhd.rd p (LibSrhd.PRE NPRIM) ->
  0 < LibSrhd.sound_speed_squared NPRIM G p.
Proof.
  intros HG Hrho Hpre.
  unfold LibSrhd.sound_speed_squared, LibSrhd.gamma_factor, LibSrhd.DEN.
  unfold LibSrhd.RHO in Hrho. cbn.
  set (rho := LibSrhd.rd p 0) in *.
  set (pre := LibSrhd.rd p (LibSrhd.PRE NPRIM)) in *.
  assert (Hgf0 : 0 < 1 + 1 / (G - 1)).
  { assert (0 < 1 / (G - 1)); [|lra]. apply Rdiv_lt_0_compat; lra. }
  assert (HD0 : 0 < rho + pre * (1 + 1 / (G - 1))) by nra.
  apply Rmult_lt_0_compat; [apply Rdiv_lt_0_compat|]; lra.
Qed.

(** A state is causal when its sound speed is below the speed of light:
    every state is when the adiabatic index is at most 2. *)
Lemma sound_speed_squared_causal (NPRIM : nprim) (G : R) (p : list R) :
  1 < G ->
  0 < LibSrhd.rd p LibSrhd.RHO ->
  0 < LibSrhd.rd p (LibSrhd.PRE NPRIM) ->
  G <= 2 \/ LibSrhd.sound_speed_squared NPRIM G p < 1 ->
  0 < LibSrhd.sound_speed_squared NPRIM G p < 1.
Proof.
  intros HG Hrho Hpre [HG2 | Ha].
  - apply sound_speed_squared_range; [lra | assumption | assumption].
  - split; [apply sound_speed_squared_positive; assumption | exact Ha].
Qed.

(** The facts both wavespeed results rest on, for a causal state. *)
Lemma outer_wavespeeds_roots_causal
    (NPRIM : nprim) (G : R) (p : list R) (direction : Z) :
  0 < LibSrhd.sound_speed_squared NPRIM G p < 1 ->
  let a := LibSrhd.outer_wavespeeds NPRIM G p direction in
  -1 <= fst a /\ fst a < snd a /\ snd a <= 1.
Proof.
  intros Ha2.
  pose proof (four_velocity_norm NPRIM p) as Hn.
  unfold LibSrhd.outer_wavespeeds.
  destruct (LibSrhd.four_velocity NPRIM p) as [[[gbx gby] gbz] uu].
  destruct Hn as (Hu & Hx & Hy & Hz).
  pose proof (normal_velocity_square gbx gby gbz uu direction Hu Hx Hy Hz) as Hvn.
  cbn in *.
  set (a2 := LibSrhd.sound_speed_squared NPRIM G p) in *.
  set (vn := LibSrhd.normal_velocity gbx gby gbz (sqrt (1 + uu)) direction) in *.
  assert (Hvv : 0 <= uu / (1 + uu) < 1).
  { split; [apply Rdiv_lower; lra|].
    apply Rmult_lt_reg_r with (1 + uu); [lra|].
    replace (uu / (1 + uu) * (1 + uu)) with uu by (field; lra). lra. }
  destruct (characteristic_roots a2 (uu / (1 + uu)) vn Ha2 Hvv Hvn)
    as (_ & _ & Hlo & Hlt & Hhi).
  auto.
Qed.

(** The same for a state of positive density and pressure when the
    adiabatic index is at most 2. *)
Lemma outer_wavespeeds_roots (NPRIM : nprim) (G : R) (p : list R) (direction : Z) :
  1 < G <= 2 ->
  0 < LibSrhd.rd p LibSrhd.RHO ->
  0 < LibSrhd.rd p (LibSrhd.PRE NPRIM) ->
  let a := LibSrhd.outer_wavespeeds NPRIM G p direction in
  -1 <= fst a /\ fst a < snd a /\ snd a <= 1.
Proof.
  intros HG Hrho Hpre.
  apply outer_wavespeeds_roots_causal.
  apply sound_speed_squared_range; assumption.
Qed.

(** C4, as amended. In exact arithmetic, for a state of positive density
    and pressure whose sound speed is below the speed of light (every such
    state, when the adiabatic index is in (1, 2]), with any four-velocity
    and in any direction, [outer_wavespeeds] returns a pair with the first
    speed no larger than the second, both of magnitude at most 1, the
    speed of light. *)
Theorem outer_wavespeeds_ordered_and_bounded
    (NPRIM : nprim) (G : R) (p : list R) (direction : Z) :
  1 < G ->
  0 < LibSrhd.rd p LibSrhd.RHO ->
  0 < LibSrhd.rd p (LibSrhd.PRE NPRIM) ->
  G <= 2 \/ LibSrhd.sound_speed_squared NPRIM G p < 1 ->
  let a := LibSrhd.outer_wavespeeds NPRIM G p direction in
  fst a <= snd a /\ Rabs (fst a) <= 1 /\ Rabs (snd a) <= 1.
Proof.
  intros HG Hrho Hpre Hc a.
  destruct (outer_wavespeeds_roots_causal NPRIM G p direction
              (sound_speed_squared_causal NPRIM G p HG Hrho Hpre Hc))
    as (Hlo & Hlt & Hhi).
  fold a in Hlo, Hlt, Hhi.
  repeat split.
  - lra.
  - apply Rabs_le. lra.
  - apply Rabs_le. lra.
Qed.

Lemma outer_wavespeeds_ordered_and_bounded_witness :
  let p := [1; 2; 1 / 100] in
  let a := LibSrhd.outer_wavespeeds NPRIM3 (5 / 3) p 1 in
  fst a <= snd a /\ Rabs (fst a) <= 1 /\ Rabs (snd a) <= 1.
Proof.
  apply (outer_wavespeeds_ordered_and_bounded NPRIM3 (5 / 3) [1; 2; 1 / 100] 1);
    [lra | cbn; lra | cbn; lra | left; lra].
Defined.

(** With an adiabatic index of 3 the hot gas at rest [p_stiff] is not
    causal: its sound speed, which is its fastest wavespeed, is above the
    speed of light. *)
Lemma stiff_gas_wavespeed : 1 < snd (LibSrhd.outer_wavespeeds NPRIM3 3 OnReals.p_stiff 1).
Proof.
  unfold LibSrhd.outer_wavespeeds, LibSrhd.sound_speed_squared,
    LibSrhd.gamma_factor, OnReals.p_stiff.
  cbn.
  replace (0 / sqrt (1 + 0 * 0)) with 0 by (unfold Rdiv; ring).
  replace (0 * 0 / (1 + 0 * 0)) with 0 by (unfold Rdiv; ring).
  replace (100 / (1 + 100 * (1 + 1 / (3 - 1))) * 3) with (300 / 151) by field.
  match goal with |- 1 < (_ + sqrt ?r) / ?d =>
    replace r with (300 / 151) by field; replace d with 1 by field end.
  replace ((0 * (1 - 300 / 151) + sqrt (300 / 151)) / 1)
    with (sqrt (300 / 151)) by field.
  rewrite <- sqrt_1 at 1. apply sqrt_lt_1; lra.
Qed.

(** One component of the two-wave flux formula, between equal states. *)
Lemma hlle_component_same (f u ap am : R) :
  ap - am <> 0 -> LibSrhd.hlle_component f f u u ap am = f.
Proof.
  intros H. unfold LibSrhd.hlle_component. cbn. field. exact H.
Qed.

Lemma map4_same (g : R -> R -> R -> R -> R) :
  (forall f u, g f f u u = f) ->
  forall fl ul, length fl = length ul -> LibSrhd.map4 g fl fl ul ul = fl.
Proof.
  intros Hg fl. induction fl as [|f fl IH]; intros [|u ul] Hlen;
    cbn in *; try discriminate; try reflexivity.
  rewrite Hg, IH by lia. reflexivity.
Qed.

(** The signal speeds between equal states are apart. *)
Lemma signal_speeds_apart (x y : R) :
  x < y -> LibSrhd.max3 0 y y - LibSrhd.min3 0 x x <> 0.
Proof.
  intros Hxy.
  unfold LibSrhd.max3, LibSrhd.min3, LibSrhd.max2, LibSrhd.min2. cbn.
  unfold Rltb.
  destruct (Rlt_dec y y), (Rlt_dec x x); try lra.
  destruct (Rlt_dec y 0), (Rlt_dec 0 x); lra.
Qed.

(** C3, as amended. In exact arithmetic, for a state [p] of positive
    density and pressure whose sound speed is below the speed of light
    (every such state, when the adiabatic index is in (1, 2]),
    [riemann_hlle(p, p, direction)] is the flux [prim_and_cons_to_flux]
    computes from [p] and [prim_to_cons(p)], in every direction. *)
Theorem riemann_hlle_self_consistent
    (NPRIM : nprim) (G : R) (p : list R) (direction : Z) :
  1 < G ->
  0 < LibSrhd.rd p LibSrhd.RHO ->
  0 < LibSrhd.rd p (LibSrhd.PRE NPRIM) ->
  G <= 2 \/ LibSrhd.sound_speed_squared NPRIM G p < 1 ->
  LibSrhd.riemann_hlle NPRIM G p p direction =
  LibSrhd.prim_and_cons_to_flux NPRIM p (LibSrhd.prim_to_cons NPRIM G p)
    direction.
Proof.
  intros HG Hrho Hpre Hc.
  destruct (outer_wavespeeds_roots_causal NPRIM G p direction
              (sound_speed_squared_causal NPRIM G p HG Hrho Hpre Hc))
    as (_ & Hlt & _).
  unfold LibSrhd.riemann_hlle.
  apply map4_same.
  - intros f u. apply hlle_component_same. cbn.
    apply signal_speeds_apart. exact Hlt.
  - unfold LibSrhd.prim_and_cons_to_flux, LibSrhd.prim_to_cons.
    destruct (LibSrhd.four_velocity NPRIM p) as [[[gbx gby] gbz] uu].
    destruct NPRIM; reflexivity.
Qed.

Lemma riemann_hlle_self_consistent_witness :
  let p := [1; 2; 1 / 100] in
  LibSrhd.riemann_hlle NPRIM3 (5 / 3) p p 1 =
  LibSrhd.prim_and_cons_to_flux NPRIM3 p
    (LibSrhd.prim_to_cons NPRIM3 (5 / 3) p) 1.
Proof.
  apply (riemann_hlle_self_consistent NPRIM3 (5 / 3) [1; 2; 1 / 100] 1);
    [lra | cbn; lra | cbn; lra | left; lra].
Defined.

(** At the pressure of the state the conserved variables come from, and
    with the clamp on [b2] idle, a pass finds the Lorentz factor of the
    state and a residual of zero. *)
Lemma newton_pass_at_state (G rho pre uu w ss : R) :
  1 < G -> 0 < rho -> 0 < pre -> 0 <= uu -> uu < 1e10 - 1 ->
  0 < w -> w * w = 1 + uu ->
  let h := 1 + pre / rho * (1 + 1 / (G - 1)) in
  let m := rho * w in
  let tau := m * (h * w - 1) - pre in
  ss = m * h * (m * h) * uu ->
  0 < h /\
  LibSrhd.pass_w (LibSrhd.newton_pass G m tau ss pre) = w /\
  LibSrhd.pass_f (LibSrhd.newton_pass G m tau ss pre) = 0.
Proof.
  intros HG Hrho Hpre Hu Hclamp Hw Hww h m tau Hss.
  assert (Hgf : 0 < 1 + 1 / (G - 1)).
  { assert (0 < 1 / (G - 1)); [apply Rdiv_lt_0_compat; lra | lra]. }
  assert (Hh : 0 < h).
  { unfold h. assert (0 < pre / rho * (1 + 1 / (G - 1))); [|lra].
    apply Rmult_lt_0_compat; [apply Rdiv_lt_0_compat; lra | exact Hgf]. }
  assert (Hm : 0 < m) by (unfold m; apply Rmult_lt_0_compat; lra).
  assert (Het : tau + pre + m = m * h * w) by (unfold tau; ring).
  assert (Hb2 : ss / (tau + pre + m) / (tau + pre + m) = uu / (1 + uu)).
  { rewrite Het, Hss, <- Hww. field. repeat split; lra. }
  assert (Hlt : uu / (1 + uu) < 1 - 1 / 10000000000).
  { apply Rmult_lt_reg_r with (1 + uu); [lra|].
    replace (uu / (1 + uu) * (1 + uu)) with uu by (field; lra). lra. }
  split; [exact Hh|].
  unfold LibSrhd.newton_pass, LibSrhd.min2. cbn.
  rewrite Hb2, (Rltb_true _ _ Hlt).
  assert (Hw2 : 1 / (1 - uu / (1 + uu)) = w * w) by (rewrite Hww; field; lra).
  rewrite Hw2, sqrt_square by lra.
  split; [reflexivity|].
  unfold tau, h, m. field. repeat split; lra.
Qed.

(** From a guess that is the pressure of the state, the loop returns on
    its first pass, with that pressure unchanged. *)
Lemma newton_loop_at_state (G rho pre uu w ss : R) :
  1 < G -> 0 < rho -> 0 < pre -> 0 <= uu -> uu < 1e10 - 1 ->
  0 < w -> w * w = 1 + uu ->
  let h := 1 + pre / rho * (1 + 1 / (G - 1)) in
  let m := rho * w in
  let tau := m * (h * w - 1) - pre in
  ss = m * h * (m * h) * uu ->
  LibSrhd.newton_loop G (S LibSrhd.newton_iter_max) m tau ss pre 0 =
  Some (Returned (w, pre)).
Proof.
  intros HG Hrho Hpre Hu Hclamp Hw Hww h m tau Hss.
  destruct (newton_pass_at_state G rho pre uu w ss HG Hrho Hpre Hu Hclamp Hw Hww Hss)
    as (_ & Hpw & Hpf).
  fold h m tau in Hpw, Hpf.
  rewrite (newton_loop_returns G m tau ss 0).
  - cbn [LibSrhd.newton_iterate]. unfold LibSrhd.newton_update.
    rewrite Hpw, Hpf. cbn.
    replace (pre - 0 / _) with pre by (unfold Rdiv; ring). reflexivity.
  - intros j Hj. lia.
  - cbn [LibSrhd.newton_iterate]. unfold LibSrhd.converged.
    rewrite Hpf. cbn. apply Rltb_true. rewrite Rabs_R0. lra.
  - lia.
  - lia.
Qed.

(** The entries [cons_to_prim] writes, once the loop has left with the
    Lorentz factor [w] and the pressure [pre] of the state. *)
Lemma recovered_density (rho w : R) : 0 < w -> rho * w / w = rho.
Proof. intros. field. lra. Qed.

Lemma recovered_velocity (rho w h g pre : R) :
  0 < rho -> 0 < w -> 0 < h ->
  w * (rho * w * h * g) / (rho * w * (h * w - 1) - pre + rho * w + pre) = g.
Proof.
  intros Hrho Hw Hh.
  replace (rho * w * (h * w - 1) - pre + rho * w + pre) with (rho * w * h * w)
    by ring.
  field. repeat split; lra.
Qed.







(** Whatever the loop returns, the clamp on [b2] keeps its Lorentz factor
    at [1e5] or below. *)
Lemma pass_lorentz_factor_bound (G m tau ss pre : R) :
  0 < LibSrhd.pass_w (LibSrhd.newton_pass G m tau ss pre) <= 100000.
Proof.
  unfold LibSrhd.newton_pass, LibSrhd.min2. cbn.
  set (x := ss / (tau + pre + m) / (tau + pre + m)).
  set (b2 := if Rltb x (1 - 1 / 10000000000) then x else 1 - 1 / 10000000000).
  assert (Hb2 : b2 <= 1 - 1 / 10000000000).
  { unfold b2, Rltb. destruct (Rlt_dec x (1 - 1 / 10000000000)); lra. }
  assert (Hpos : 0 < 1 / (1 - b2)) by (apply Rdiv_lt_0_compat; lra).
  assert (Hle : 1 / (1 - b2) <= 100000 * 100000).
  { apply Rdiv_upper; lra. }
  split.
  - apply sqrt_lt_R0. exact Hpos.
  - rewrite <- (sqrt_square 100000) by lra.
    apply sqrt_le_1; lra.
Qed.

Lemma newton_loop_lorentz_factor_bound (G m tau ss : R) (fuel : nat) :
  forall pre iteration w0 pre',
    LibSrhd.newton_loop G fuel m tau ss pre iteration = Some (Returned (w0, pre')) ->
    0 < w0 <= 100000.
Proof.
  induction fuel as [|fuel IH]; intros pre iteration w0 pre' H.
  - discriminate H.
  - cbn [LibSrhd.newton_loop] in H.
    destruct (fltb _ _).
    + replace w0 with (LibSrhd.pass_w (LibSrhd.newton_pass G m tau ss pre))
        by congruence.
      apply pass_lorentz_factor_bound.
    + destruct (Nat.eqb _ _); [discriminate H|].
      apply IH in H. exact H.
Qed.




End ExactKernels.

(* ================================================================== *)
(** ** The round trip *)

Section RoundTrip.
Local Open Scope R_scope.



End RoundTrip.

(* ================================================================== *)
(** ** [cons_to_prim] and [cons_to_prim_check], in any arithmetic *)

Section Recovery.
Context {F : Type} {AR : Arith F}.
Variable NPRIM : nprim.
Variable GAMMA_LAW_INDEX : F.

Let c2p := LibSrhd.cons_to_prim NPRIM GAMMA_LAW_INDEX.
Let check := LibSrhd.cons_to_prim_check NPRIM GAMMA_LAW_INDEX.

(** The inputs of the loop, read from [u] and from the pressure slot of
    [p]. *)
Let m (u : list F) := LibSrhd.rd u LibSrhd.DEN.
Let tau (u : list F) := LibSrhd.rd u (LibSrhd.NRG NPRIM).
Let ss (u : list F) := LibSrhd.momentum_squared NPRIM u.
Let guess (p : list F) := LibSrhd.rd p (LibSrhd.PRE NPRIM).
Let iter u p := LibSrhd.newton_iterate GAMMA_LAW_INDEX (m u) (tau u) (ss u) (guess p).
Let conv u := LibSrhd.converged GAMMA_LAW_INDEX (m u) (tau u) (ss u).

(** [cons_to_prim] returns at the first pass [k <= newton_iter_max] (the
    pass numbered from zero) whose residual meets the tolerance: the
    primitives are written from the Lorentz factor of that pass and from
    the pressure after [k + 1] updates. *)
Lemma cons_to_prim_returns (u p : list F) (k : nat) :
  k <= LibSrhd.newton_iter_max ->
  (forall j, j < k -> conv u (iter u p j) = false) ->
  conv u (iter u p k) = true ->
  c2p u p =
  Returned
    (LibSrhd.write_prim NPRIM u
       (LibSrhd.pass_w
          (LibSrhd.newton_pass GAMMA_LAW_INDEX (m u) (tau u) (ss u) (iter u p k)))
       (iter u p (S k))).
Proof.
  intros Hk Hlt Hc.
  unfold c2p, LibSrhd.cons_to_prim.
  fold (m u) (tau u) (ss u) (guess p).
  rewrite (newton_loop_returns GAMMA_LAW_INDEX (m u) (tau u) (ss u) k);
    auto; lia.
Qed.

(** [cons_to_prim] exits fatally exactly when none of the passes
    [0 .. newton_iter_max], [newton_iter_max + 1] of them, meets the
    tolerance. *)
Lemma cons_to_prim_aborts (u p : list F) :
  (forall j, j <= LibSrhd.newton_iter_max -> conv u (iter u p j) = false) ->
  c2p u p = Aborted.
Proof.
  intros Hall.
  unfold c2p, LibSrhd.cons_to_prim.
  fold (m u) (tau u) (ss u) (guess p).
  rewrite (newton_loop_aborts GAMMA_LAW_INDEX (m u) (tau u) (ss u)
             LibSrhd.newton_iter_max); auto.
Qed.

(** The first index of a range at which a test holds, as [find] gives
    it. *)
Lemma find_seq_Some (f : nat -> bool) (n a k : nat) :
  find f (seq a n) = Some k ->
  a <= k < a + n /\ f k = true /\ forall j, a <= j < k -> f j = false.
Proof.
  revert a. induction n as [|n IH]; intros a H; cbn in H; [discriminate H|].
  destruct (f a) eqn:E.
  - injection H as <-. split; [lia|]. split; [exact E|]. intros j Hj. lia.
  - destruct (IH (S a) H) as (Hk & Hf & Hmin).
    split; [lia|]. split; [exact Hf|].
    intros j Hj. destruct (Nat.eq_dec j a) as [->|Hne]; [exact E|].
    apply Hmin. lia.
Qed.

Lemma find_seq_None (f : nat -> bool) (n a : nat) :
  find f (seq a n) = None -> forall j, a <= j < a + n -> f j = false.
Proof.
  intros H j Hj. apply (find_none f (seq a n) H j).
  apply in_seq. exact Hj.
Qed.

(** The pressure after [k + 1] updates is one update, [pre - f / g], away
    from the pressure after [k]. *)
Lemma newton_iterate_S (mm tt s2 pre : F) (k : nat) :
  LibSrhd.newton_iterate GAMMA_LAW_INDEX mm tt s2 pre (S k) =
  LibSrhd.newton_update GAMMA_LAW_INDEX mm tt s2
    (LibSrhd.newton_iterate GAMMA_LAW_INDEX mm tt s2 pre k).
Proof.
  revert pre. induction k as [|k IH]; intros pre; [reflexivity|].
  cbn [LibSrhd.newton_iterate] in *. rewrite IH. reflexivity.
Qed.

(** C2, as amended. In any arithmetic and on every input the loop of
    [cons_to_prim] is over within [newton_iter_max + 1 = 51] passes: any
    fuel above 50 gives the same outcome. With [pre k] the pressure after
    [k] updates of the first guess, each update being [pre - f / g] for
    the residual [f] and the derivative proxy [g] of the pass, the loop
    leaves at the first pass [k] among [0 .. 50] whose residual meets
    [|f| < 1e-12], and [cons_to_prim] returns the primitives written from
    the Lorentz factor of that pass and from the pressure [pre (k + 1)];
    it ends in the fatal exit when none of these 51 passes meets the
    tolerance. *)
Theorem cons_to_prim_first_convergent_pass (u p : list F) :
  let pass_at x := LibSrhd.newton_pass GAMMA_LAW_INDEX (m u) (tau u) (ss u) x in
  let pre k := iter u p k in
  let first :=
    find (fun k => (ffabs (LibSrhd.pass_f (pass_at (pre k))) <? lit1em12)%A)
      (seq 0 (S LibSrhd.newton_iter_max)) in
  pre 0 = LibSrhd.rd p (LibSrhd.PRE NPRIM) /\
  (forall k,
     pre (S k) =
     (pre k - LibSrhd.pass_f (pass_at (pre k)) / LibSrhd.pass_g (pass_at (pre k)))%A) /\
  (forall fuel,
     LibSrhd.newton_iter_max < fuel ->
     LibSrhd.newton_loop GAMMA_LAW_INDEX fuel (m u) (tau u) (ss u) (pre 0) 0 =
     Some match first with
          | Some k => Returned (LibSrhd.pass_w (pass_at (pre k)), pre (S k))
          | None => Aborted
          end) /\
  c2p u p =
  match first with
  | Some k =>
      Returned (LibSrhd.write_prim NPRIM u (LibSrhd.pass_w (pass_at (pre k)))
                  (pre (S k)))
  | None => Aborted
  end.
Proof.
  intros pass_at pre first.
  split; [reflexivity|].
  split; [intros k; unfold pre, iter; apply newton_iterate_S|].
  assert (Hloop : forall fuel,
    LibSrhd.newton_iter_max < fuel ->
    LibSrhd.newton_loop GAMMA_LAW_INDEX fuel (m u) (tau u) (ss u) (pre 0) 0 =
    Some match first with
         | Some k => Returned (LibSrhd.pass_w (pass_at (pre k)), pre (S k))
         | None => Aborted
         end).
  { intros fuel Hfuel. destruct first as [k|] eqn:E; unfold first in E.
    - apply find_seq_Some in E. destruct E as (Hk & Hf & Hmin).
      apply (newton_loop_returns GAMMA_LAW_INDEX (m u) (tau u) (ss u) k).
      + intros j Hj. apply (Hmin j). lia.
      + exact Hf.
      + lia.
      + lia.
    - apply (newton_loop_aborts GAMMA_LAW_INDEX (m u) (tau u) (ss u)
               LibSrhd.newton_iter_max).
      + reflexivity.
      + intros j Hj. apply (find_seq_None _ _ _ E j). lia.
      + exact Hfuel. }
  split; [exact Hloop|].
  unfold c2p, LibSrhd.cons_to_prim.
  fold (m u) (tau u) (ss u) (guess p).
  change (guess p) with (pre 0).
  rewrite (Hloop (S LibSrhd.newton_iter_max)) by lia.
  destruct first; reflexivity.
Qed.

(** C5, as amended. [cons_to_prim_check] runs [cons_to_prim] itself: where
    that solve exits fatally (no pass met the tolerance) so does the
    check; where it returns, the check returns the same primitives with
    the status 1 for a negative mass density, else 2 for a negative
    energy, else 3 for a negative recovered pressure, else 0. *)
Theorem cons_to_prim_check_status (u p : list F) :
  match c2p u p with
  | Aborted => check u p = Aborted
  | Returned p' =>
      exists status : Z,
        check u p = Returned (status, p') /\
        let neg_den := fltb (LibSrhd.rd u LibSrhd.DEN) lit0 in
        let neg_nrg := fltb (LibSrhd.rd u (LibSrhd.NRG NPRIM)) lit0 in
        let neg_pre := fltb (LibSrhd.rd p' (LibSrhd.PRE NPRIM)) lit0 in
        (status = 1%Z <-> neg_den = true) /\
        (status = 2%Z <-> neg_den = false /\ neg_nrg = true) /\
        (status = 3%Z <-> neg_den = false /\ neg_nrg = false /\ neg_pre = true) /\
        (status = 0%Z <-> neg_den = false /\ neg_nrg = false /\ neg_pre = false)
  end.
Proof.
  unfold check, LibSrhd.cons_to_prim_check, c2p.
  destruct (LibSrhd.cons_to_prim NPRIM GAMMA_LAW_INDEX u p) as [p'|]; cbn [bind].
  - destruct (fltb (LibSrhd.rd u LibSrhd.DEN) lit0) eqn:Hd;
    [| destruct (fltb (LibSrhd.rd u (LibSrhd.NRG NPRIM)) lit0) eqn:Hn;
       [| destruct (fltb (LibSrhd.rd p' (LibSrhd.PRE NPRIM)) lit0) eqn:Hp ]];
    eexists; (split; [reflexivity|]); cbn zeta;
    repeat split; intros; try discriminate; try reflexivity;
    repeat match goal with H : _ /\ _ |- _ => destruct H end;
    try discriminate; try congruence.
  - reflexivity.
Qed.

End Recovery.

(* ================================================================== *)
(** ** The recovery on doubles *)

Section RecoveryOnDoubles.
Import OnDoubles.

(** The round-trip check of [lib_srhd.py]: on doubles the state comes
    back to within [1e-8], from a zero first guess. *)
Lemma selftest_round_trip :
  exists q,
    LibSrhd.cons_to_prim NPRIM5 gamma64
      (LibSrhd.prim_to_cons NPRIM5 gamma64 p_selftest) zeros5 = Returned q /\
    close_to 1e-8 p_selftest q = true.
Proof. eexists. split; vm_compute; reflexivity. Qed.



(** C2, counterexample. On the conserved form of the state (density 10,
    four-velocity 8, pressure 1657), from a zero first guess, 50 passes go
    by without one meeting the tolerance, and [cons_to_prim] does not end
    the run: it takes a 51st pass and returns the primitives on it. *)
Theorem cons_to_prim_returns_on_pass_51 :
  let m := LibSrhd.rd u_slow LibSrhd.DEN in
  let tau := LibSrhd.rd u_slow (LibSrhd.NRG NPRIM3) in
  let ss := LibSrhd.momentum_squared NPRIM3 u_slow in
  let pre k := LibSrhd.newton_iterate gamma64 m tau ss 0%float k in
  forallb (fun k => negb (LibSrhd.converged gamma64 m tau ss (pre k))) (seq 0 50)
  = true /\
  LibSrhd.converged gamma64 m tau ss (pre 50) = true /\
  exists q,
    LibSrhd.cons_to_prim NPRIM3 gamma64 u_slow zeros3 = Returned q /\
    close_to 1e-9 p_slow q = true.
Proof.
  split; [vm_compute; reflexivity|].
  split; [vm_compute; reflexivity|].
  eexists. split; vm_compute; reflexivity.
Qed.

(** C5, counterexample. On a conserved state of negative mass density the
    check does not return status 1: the solve inside it never meets the
    tolerance and the run ends. *)
Lemma cons_to_prim_check_aborts :
  fltb (LibSrhd.rd u_negative_density LibSrhd.DEN) lit0 = true /\
  LibSrhd.cons_to_prim_check NPRIM3 gamma64 u_negative_density zeros3 = Aborted.
Proof. split; vm_compute; reflexivity. Qed.

End RecoveryOnDoubles.

(* ================================================================== *)
(** ** The wavespeeds and the two-wave flux on doubles *)

Section WavesOnDoubles.
Import OnDoubles.
Local Open Scope float_scope.

(** C3, counterexample. On doubles the two sides differ by rounding: for
    the state (density 1, four-velocity 0.5, pressure 1) in direction 1
    the momentum flux [riemann_hlle(p, p)] returns is 1.8749999999999998,
    the one [prim_and_cons_to_flux] computes is 1.875. And with an
    adiabatic index of 3 the state [p_stiff_moving] is not causal: in
    direction 2 the root in [outer_wavespeeds] is that of a negative
    number, and every entry [riemann_hlle(p, p)] returns is a NaN, where
    the flux is [0, 0, 100, 0]. *)
Lemma riemann_hlle_not_self_consistent :
  (LibSrhd.riemann_hlle NPRIM3 gamma64 p_mild p_mild 1
     = [0.5; 1.8749999999999998; 1.4565594803123161] /\
   LibSrhd.prim_and_cons_to_flux NPRIM3 p_mild
     (LibSrhd.prim_to_cons NPRIM3 gamma64 p_mild) 1
     = [0.5; 1.875; 1.4565594803123161] /\
   LibSrhd.riemann_hlle NPRIM3 gamma64 p_mild p_mild 1 <>
   LibSrhd.prim_and_cons_to_flux NPRIM3 p_mild
     (LibSrhd.prim_to_cons NPRIM3 gamma64 p_mild) 1) /\
  (forallb (fun x => negb (PrimFloat.eqb x x))
     (LibSrhd.riemann_hlle NPRIM4 3 p_stiff_moving p_stiff_moving 2) = true /\
   length (LibSrhd.riemann_hlle NPRIM4 3 p_stiff_moving p_stiff_moving 2)
     = 4%nat /\
   LibSrhd.prim_and_cons_to_flux NPRIM4 p_stiff_moving
     (LibSrhd.prim_to_cons NPRIM4 3 p_stiff_moving) 2
     = [0; 0; 100; 0]).
Proof.
  split.
  - split; [vm_compute; reflexivity|].
    split; [vm_compute; reflexivity|].
    intros H.
    apply (f_equal (fun f => PrimFloat.eqb (nth 1 f 0) 1.875)) in H.
    vm_compute in H. discriminate H.
  - repeat split; vm_compute; reflexivity.
Qed.

(** C4, counterexample. Three valid states whose wavespeeds are not
    within the bound. On doubles, for (density 1, four-velocity
    41000000.3, pressure 10) the second wavespeed comes out as
    1.0000000000000002, above 1; for a four-velocity of [1e160] the
    square overflows and both wavespeeds are NaN, neither ordered nor
    bounded. In exact arithmetic, with an adiabatic index of 3, the gas at
    rest of density 1 and pressure 100 has a wavespeed above 1. *)
Lemma outer_wavespeeds_out_of_bound :
  (let a := LibSrhd.outer_wavespeeds NPRIM3 gamma64 p_ultra 1 in
   a = (0.99999999999999767, 1.0000000000000002) /\
   PrimFloat.leb (PrimFloat.abs (snd a)) 1 = false) /\
  (let a := LibSrhd.outer_wavespeeds NPRIM3 gamma64 p_overflow 1 in
   PrimFloat.eqb (fst a) (fst a) = false /\
   PrimFloat.eqb (snd a) (snd a) = false /\
   PrimFloat.leb (fst a) (snd a) = false /\
   PrimFloat.leb (PrimFloat.abs (fst a)) 1 = false /\
   PrimFloat.leb (PrimFloat.abs (snd a)) 1 = false) /\
  (1 < snd (LibSrhd.outer_wavespeeds NPRIM3 3 OnReals.p_stiff 1))%R.
Proof.
  split; [split; vm_compute; reflexivity|].
  split; [repeat split; vm_compute; reflexivity|].
  exact stiff_gas_wavespeed.
Qed.

End WavesOnDoubles.

(* ================================================================== *)
(** ** Slices and guard-zone loops *)

Section Slices.
Context {A : Type}.
Implicit Types (a src : list A) (ng : nat).

(** [a[-2 * ng : -ng]]: the [ng] entries before the last [ng]. *)
Lemma getslice_before_tail a ng :
  2 * ng <= length a ->
  Numpy.getslice a (Some (-2 * Z.of_nat ng)%Z) (Some (- Z.of_nat ng)%Z) =
  firstn ng (skipn (length a - 2 * ng) a).
Proof.
  intros Hlen. unfold Numpy.getslice, Numpy.slice_range, Numpy.clamp_bound.
  destruct (Z.ltb_spec (-2 * Z.of_nat ng) 0), (Z.ltb_spec (- Z.of_nat ng) 0);
    try lia.
  - replace (Z.to_nat (Z.max (-2 * Z.of_nat ng + Z.of_nat (length a)) 0))
      with (length a - 2 * ng) by lia.
    replace (Z.to_nat (Z.max (- Z.of_nat ng + Z.of_nat (length a)) 0) -
             (length a - 2 * ng)) with ng by lia.
    reflexivity.
  - assert (ng = 0) by lia. subst ng. cbn. rewrite Nat.sub_diag. reflexivity.
Qed.

(** [a[ng : 2 * ng]]: the [ng] entries after the first [ng]. *)
Lemma getslice_after_head a ng :
  2 * ng <= length a ->
  Numpy.getslice a (Some (Z.of_nat ng)) (Some (2 * Z.of_nat ng)%Z) =
  firstn ng (skipn ng a).
Proof.
  intros Hlen. unfold Numpy.getslice, Numpy.slice_range, Numpy.clamp_bound.
  destruct (Z.ltb_spec (Z.of_nat ng) 0), (Z.ltb_spec (2 * Z.of_nat ng) 0);
    try lia.
  replace (Z.to_nat (Z.min (Z.of_nat ng) (Z.of_nat (length a)))) with ng by lia.
  replace (Z.to_nat (Z.min (2 * Z.of_nat ng) (Z.of_nat (length a))) - ng)
    with ng by lia.
  reflexivity.
Qed.

(** [a[:ng] = src], the shapes agreeing. *)
Lemma setslice_head a ng src :
  ng <= length a -> length src = ng ->
  Numpy.setslice a None (Some (Z.of_nat ng)) src = Returned (src ++ skipn ng a).
Proof.
  intros Hlen Hsrc. unfold Numpy.setslice, Numpy.slice_range, Numpy.clamp_bound.
  destruct (Z.ltb_spec (Z.of_nat ng) 0); try lia.
  replace (Z.to_nat (Z.min (Z.of_nat ng) (Z.of_nat (length a))) - Z.to_nat 0)
    with ng by lia.
  rewrite Hsrc, Nat.eqb_refl. reflexivity.
Qed.

(** [a[-ng:] = src], the shapes agreeing. *)
Lemma setslice_tail a ng src :
  0 < ng -> ng <= length a -> length src = ng ->
  Numpy.setslice a (Some (- Z.of_nat ng)%Z) None src =
  Returned (firstn (length a - ng) a ++ src).
Proof.
  intros Hng Hlen Hsrc.
  unfold Numpy.setslice, Numpy.slice_range, Numpy.clamp_bound.
  destruct (Z.ltb_spec (- Z.of_nat ng) 0); try lia.
  replace (Z.to_nat (Z.max (- Z.of_nat ng + Z.of_nat (length a)) 0))
    with (length a - ng) by lia.
  replace (Z.to_nat (Z.of_nat (length a)) - (length a - ng)) with ng by lia.
  rewrite Hsrc, Nat.eqb_refl.
  replace (length a - ng + ng) with (length a) by lia.
  rewrite skipn_all, app_nil_r. reflexivity.
Qed.

(** [a[i]] and [a[i] = x] at a position in range. *)
Lemma getitem_at a (i : nat) (x : A) :
  nth_error a i = Some x -> Numpy.getitem a (Z.of_nat i) = Returned x.
Proof.
  intros H. assert (i < length a) by (apply nth_error_Some; congruence).
  unfold Numpy.getitem, Numpy.index_of.
  destruct (Z.ltb_spec (Z.of_nat i) 0); try lia.
  destruct (Z.leb_spec 0 (Z.of_nat i)); try lia.
  destruct (Z.ltb_spec (Z.of_nat i) (Z.of_nat (length a))); try lia.
  cbn. rewrite Nat2Z.id, H. reflexivity.
Qed.

Lemma getitem_from_end a (k i : nat) (x : A) :
  0 < k -> k <= length a -> i = length a - k ->
  nth_error a i = Some x -> Numpy.getitem a (- Z.of_nat k)%Z = Returned x.
Proof.
  intros Hk Hlen -> H.
  unfold Numpy.getitem, Numpy.index_of.
  destruct (Z.ltb_spec (- Z.of_nat k) 0); try lia.
  destruct (Z.leb_spec 0 (- Z.of_nat k + Z.of_nat (length a))); try lia.
  destruct (Z.ltb_spec (- Z.of_nat k + Z.of_nat (length a)) (Z.of_nat (length a)));
    try lia.
  cbn.
  replace (Z.to_nat (- Z.of_nat k + Z.of_nat (length a))) with (length a - k) by lia.
  rewrite H. reflexivity.
Qed.

Lemma setitem_at a (i : nat) (x : A) :
  i < length a ->
  Numpy.setitem a (Z.of_nat i) x = Returned (firstn i a ++ x :: skipn (S i) a).
Proof.
  intros H. unfold Numpy.setitem, Numpy.index_of.
  destruct (Z.ltb_spec (Z.of_nat i) 0); try lia.
  destruct (Z.leb_spec 0 (Z.of_nat i)); try lia.
  destruct (Z.ltb_spec (Z.of_nat i) (Z.of_nat (length a))); try lia.
  cbn. rewrite Nat2Z.id. reflexivity.
Qed.

(** [range(lo, lo + n)], one step at a time. *)
Lemma range_cons (lo : Z) (n : nat) :
  Numpy.range lo (lo + Z.of_nat (S n)) =
  lo :: Numpy.range (lo + 1) (lo + 1 + Z.of_nat n).
Proof.
  unfold Numpy.range.
  replace (Z.to_nat (lo + Z.of_nat (S n) - lo)) with (S n) by lia.
  replace (Z.to_nat (lo + 1 + Z.of_nat n - (lo + 1))) with n by lia.
  cbn [seq map]. f_equal; [lia|].
  rewrite <- seq_shift, map_map. apply map_ext. intros k. lia.
Qed.

Lemma range_nil (lo : Z) : Numpy.range lo (lo + Z.of_nat 0) = [].
Proof. unfold Numpy.range. replace (Z.to_nat _) with 0 by lia. reflexivity. Qed.

(** The loop [for i in range(lo, lo + n): a[i] = x] over a stretch
    [old] of [a], where [x] is what [read] finds in the array at every
    turn: the stretch ends up filled with [x]. *)
Lemma fill_loop (x : A) (read : list A -> outcome A) (n : nat) :
  forall (done old rest : list A),
    length old = n ->
    (forall k o, k + length o = n ->
                 read ((done ++ repeat x k) ++ o ++ rest) = Returned x) ->
    Numpy.for_each
      (fun a i => y <- read a ;; Numpy.setitem a i y)
      (done ++ old ++ rest)
      (Numpy.range (Z.of_nat (length done))
         (Z.of_nat (length done) + Z.of_nat n)) =
    Returned (done ++ repeat x n ++ rest).
Proof.
  induction n as [|n IH]; intros done old rest Hold Hread.
  - destruct old; [|discriminate]. rewrite range_nil. reflexivity.
  - destruct old as [|o old]; [discriminate|]. injection Hold as Hold.
    rewrite range_cons. cbn [Numpy.for_each].
    pose proof (Hread 0 (o :: old)) as H0. cbn [repeat] in H0.
    rewrite app_nil_r in H0. rewrite H0 by (cbn; lia). cbn [bind].
    rewrite setitem_at by (rewrite !length_app; cbn; lia).
    rewrite firstn_app, Nat.sub_diag, firstn_all, firstn_O, app_nil_r.
    replace (skipn (S (length done)) (done ++ (o :: old) ++ rest))
      with (old ++ rest).
    2:{ rewrite skipn_app, skipn_all2 by lia.
        replace (S (length done) - length done) with 1 by lia. reflexivity. }
    cbn [bind].
    replace (done ++ x :: old ++ rest) with ((done ++ [x]) ++ old ++ rest)
      by (rewrite <- app_assoc; reflexivity).
    replace (Z.of_nat (length done) + 1)%Z with (Z.of_nat (length (done ++ [x])))
      by (rewrite length_app; cbn; lia).
    rewrite (IH (done ++ [x]) old rest Hold).
    + rewrite <- app_assoc. reflexivity.
    + intros k o' Hlen.
      replace ((done ++ [x]) ++ repeat x k) with (done ++ repeat x (S k))
        by (rewrite <- app_assoc; reflexivity).
      apply Hread. lia.
Qed.

End Slices.

(* ================================================================== *)
(** ** The boundary exchange *)

Section Exchange.
Context {F : Type} {AR : Arith F} {cell faces_t : Type}.
Import Srhd2d.
Local Abbreviation Patch := (@Srhd2d.Patch F cell faces_t).
Local Abbreviation Solver := (@Srhd2d.Solver F cell faces_t).
Local Abbreviation array := (@Srhd2d.array cell).

Implicit Types (a L R mid : array) (ng : nat) (b : buffer) (ps : list Patch).

(** A buffer is its left guard, its interior and its right guard. *)
Lemma guards_and_interior ng a :
  2 * ng <= length a ->
  a = left_guard ng a ++ interior ng a ++ right_guard ng a.
Proof.
  intros H. unfold left_guard, interior, right_guard.
  rewrite <- (firstn_skipn ng a) at 1. f_equal.
  rewrite <- (firstn_skipn (length a - 2 * ng) (skipn ng a)) at 1. f_equal.
  rewrite skipn_skipn. f_equal. lia.
Qed.

Lemma interior_length ng a :
  length (interior ng a) = length a - 2 * ng.
Proof.
  unfold interior. rewrite length_firstn, length_skipn. lia.
Qed.

(** The interior of a buffer given by its three parts. *)
Lemma interior_of_parts ng L mid R :
  length L = ng -> length R = ng -> interior ng (L ++ mid ++ R) = mid.
Proof.
  intros HL HR. unfold interior.
  rewrite !length_app, skipn_app, skipn_all2, HL, Nat.sub_diag by lia.
  cbn [skipn app].
  replace (ng + (length mid + length R) - 2 * ng) with (length mid) by lia.
  rewrite firstn_app, Nat.sub_diag, firstn_all, firstn_O, app_nil_r.
  reflexivity.
Qed.

(** The last entry of a list that has one. *)
Lemma nth_error_last (l : list (list cell)) :
  l <> [] -> nth_error l (length l - 1) = Some (last l []).
Proof.
  induction l as [|r l IH]; [contradiction|]. intros _.
  destruct l as [|r' l]; [reflexivity|].
  cbn [length last]. replace (S (S (length l)) - 1) with (S (length l)) by lia.
  cbn [nth_error]. specialize (IH ltac:(discriminate)). cbn [length] in IH.
  replace (S (length l) - 1) with (length l) in IH by lia. exact IH.
Qed.

(** The loops of the outflow condition, on a buffer given by its parts:
    [for i in range(ng): pc[i] = pc[ng]] ... *)
Lemma outflow_left ng L mid R :
  length L = ng -> mid <> [] ->
  Numpy.for_each
    (fun a i => x <- Numpy.getitem a (Z.of_nat ng) ;; Numpy.setitem a i x)
    (L ++ mid ++ R) (Numpy.range 0 (Z.of_nat ng)) =
  Returned (repeat (hd [] mid) ng ++ mid ++ R).
Proof.
  intros HL Hmid.
  pose proof (fill_loop (hd [] mid) (fun a => Numpy.getitem a (Z.of_nat ng)) ng
                [] L (mid ++ R) HL) as Hfill.
  cbn [app length] in Hfill. apply Hfill.
  intros k o Hlen. rewrite app_assoc.
  apply getitem_at.
  rewrite nth_error_app2 by (rewrite length_app, repeat_length; lia).
  rewrite length_app, repeat_length.
  replace (ng - (k + length o)) with 0 by lia.
  destruct mid; [contradiction | reflexivity].
Qed.

(** ... and [for i in range(pc.shape[0] - ng, pc.shape[0]): pc[i] = pc[-ng - 1]]. *)
Lemma outflow_right ng L mid R :
  length R = ng -> mid <> [] ->
  Numpy.for_each
    (fun a i => x <- Numpy.getitem a (- Z.of_nat ng - 1)%Z ;; Numpy.setitem a i x)
    (L ++ mid ++ R)
    (Numpy.range (Z.of_nat (length (L ++ mid ++ R)) - Z.of_nat ng)
       (Z.of_nat (length (L ++ mid ++ R)))) =
  Returned (L ++ mid ++ repeat (last mid []) ng).
Proof.
  intros HR Hmid.
  assert (Hm : 0 < length mid) by (destruct mid; [contradiction | cbn; lia]).
  pose proof (fill_loop (last mid [])
                (fun a => Numpy.getitem a (- Z.of_nat ng - 1)%Z) ng
                (L ++ mid) R [] HR) as Hfill.
  rewrite !app_nil_r, <- !app_assoc in Hfill.
  replace (Z.of_nat (length (L ++ mid ++ R)) - Z.of_nat ng)%Z
    with (Z.of_nat (length (L ++ mid))).
  2:{ rewrite !length_app. lia. }
  replace (Z.of_nat (length (L ++ mid ++ R)))
    with (Z.of_nat (length (L ++ mid)) + Z.of_nat ng)%Z.
  2:{ rewrite !length_app. lia. }
  apply Hfill.
  intros k o Hlen. rewrite app_nil_r.
  replace (- Z.of_nat ng - 1)%Z with (- Z.of_nat (S ng))%Z by lia.
  apply (getitem_from_end _ (S ng) (length L + (length mid - 1))).
  - lia.
  - rewrite !length_app, repeat_length. lia.
  - rewrite !length_app, repeat_length. lia.
  - rewrite <- !app_assoc.
    rewrite nth_error_app2 by lia.
    replace (length L + (length mid - 1) - length L) with (length mid - 1) by lia.
    rewrite nth_error_app1 by lia.
    apply nth_error_last. exact Hmid.
Qed.

(** The slices the exchange copies are the end and the start of the
    neighbours' interiors. *)
Lemma interior_tail ng a :
  wide_enough ng a ->
  firstn ng (skipn (length a - 2 * ng) a) =
  skipn (length (interior ng a) - ng) (interior ng a).
Proof.
  unfold wide_enough. intros H. rewrite interior_length. unfold interior.
  rewrite skipn_firstn_comm, skipn_skipn. f_equal; [lia|]. f_equal. lia.
Qed.

Lemma interior_head ng a :
  wide_enough ng a ->
  firstn ng (skipn ng a) = firstn ng (interior ng a).
Proof.
  unfold wide_enough. intros H. unfold interior.
  rewrite firstn_firstn. f_equal. lia.
Qed.

Lemma interior_nonempty ng a :
  0 < ng -> wide_enough ng a -> interior ng a <> [].
Proof.
  unfold wide_enough. intros Hng H Hnil.
  apply (f_equal (@length _)) in Hnil. rewrite interior_length in Hnil.
  cbn in Hnil. lia.
Qed.

(** Reads and writes through the patch list. *)
Lemma getattr_setattr (p : Patch) b a : getattr (setattr p b a) b = a.
Proof. destruct b; reflexivity. Qed.

Lemma store_length ps i b a : length (store ps i b a) = length ps.
Proof.
  unfold store. destruct (nth_error ps i) eqn:E; [|reflexivity].
  assert (i < length ps) by (apply nth_error_Some; congruence).
  rewrite length_app, length_firstn. cbn [length]. rewrite length_skipn. lia.
Qed.

Lemma nth_error_store_same ps i b a (p : Patch) :
  nth_error ps i = Some p ->
  nth_error (store ps i b a) i = Some (setattr p b a).
Proof.
  intros E. unfold store. rewrite E.
  assert (i < length ps) by (apply nth_error_Some; congruence).
  rewrite nth_error_app2 by (rewrite length_firstn; lia).
  rewrite length_firstn. replace (i - Nat.min i (length ps)) with 0 by lia.
  reflexivity.
Qed.

Lemma nth_error_store_other ps i j b a :
  j <> i -> nth_error (store ps i b a) j = nth_error ps j.
Proof.
  intros Hne. unfold store. destruct (nth_error ps i) eqn:E; [|reflexivity].
  assert (Hi : i < length ps) by (apply nth_error_Some; congruence).
  destruct (Nat.lt_ge_cases j i) as [Hlt|Hge].
  - rewrite nth_error_app1 by (rewrite length_firstn; lia).
    rewrite nth_error_firstn.
    destruct (Nat.ltb_spec j i); [reflexivity | lia].
  - rewrite nth_error_app2 by (rewrite length_firstn; lia).
    rewrite length_firstn. replace (Nat.min i (length ps)) with i by lia.
    destruct (j - i) as [|d] eqn:Hd; [lia|]. cbn [nth_error].
    rewrite nth_error_skipn. f_equal. lia.
Qed.

(** [set_bc_patch] on buffers wide enough: patch [i0] is left with the
    closed form [exchanged], computed from the three interiors. *)
Lemma set_bc_patch_exchanged ng b ps (il i0 ir : nat) (pl pc pr : Patch) :
  0 < ng ->
  nth_error ps il = Some pl ->
  nth_error ps i0 = Some pc ->
  nth_error ps ir = Some pr ->
  wide_enough ng (getattr pl b) ->
  wide_enough ng (getattr pc b) ->
  wide_enough ng (getattr pr b) ->
  set_bc_patch ng b ps il i0 ir =
  Returned
    (store ps i0 b
       (exchanged ng (length ps) i0 (interior ng (getattr pl b))
          (interior ng (getattr pc b)) (interior ng (getattr pr b)))).
Proof.
  intros Hng Hl Hc Hr Wl Wc Wr.
  pose proof Wl as Wl'. pose proof Wc as Wc'. pose proof Wr as Wr'.
  unfold wide_enough in Wl', Wc', Wr'.
  unfold set_bc_patch, patch_at. rewrite Hl, Hc. cbn [bind].
  rewrite getslice_before_tail by lia.
  set (srcL := firstn ng (skipn (length (getattr pl b) - 2 * ng) (getattr pl b))).
  assert (HsrcL : length srcL = ng)
    by (unfold srcL; rewrite length_firstn, length_skipn; lia).
  rewrite setslice_head by (auto; lia). cbn [bind].
  set (a1 := srcL ++ skipn ng (getattr pc b)).
  assert (Ha1 : length a1 = length (getattr pc b))
    by (unfold a1; rewrite length_app, length_skipn; lia).
  (* the right neighbour is read after the write to [pc] *)
  assert (Hpr : exists pr',
             nth_error (store ps i0 b a1) ir = Some pr' /\
             length (getattr pr' b) = length (getattr pr b) /\
             firstn ng (skipn ng (getattr pr' b)) =
             firstn ng (skipn ng (getattr pr b))).
  { destruct (Nat.eq_dec ir i0) as [->|Hne].
    - exists (setattr pc b a1). rewrite (nth_error_store_same _ _ _ _ _ Hc).
      assert (pr = pc) by congruence. subst pr.
      rewrite getattr_setattr. repeat split; [exact Ha1|].
      unfold a1. rewrite skipn_app, skipn_all2, HsrcL, Nat.sub_diag by lia.
      reflexivity.
    - exists pr. rewrite nth_error_store_other by exact Hne. auto. }
  destruct Hpr as (pr' & Hr' & Hlen' & Hhead). rewrite Hr'. cbn [bind].
  rewrite getslice_after_head by lia. rewrite Hhead.
  set (srcR := firstn ng (skipn ng (getattr pr b))).
  assert (HsrcR : length srcR = ng)
    by (unfold srcR; rewrite length_firstn, length_skipn; lia).
  rewrite setslice_tail by (auto; lia). cbn [bind].
  set (mid := interior ng (getattr pc b)).
  assert (Hmid : mid <> []) by (apply interior_nonempty; assumption).
  assert (Ha2 : firstn (length a1 - ng) a1 ++ srcR = srcL ++ mid ++ srcR).
  { rewrite Ha1. unfold a1. rewrite firstn_app, HsrcL.
    rewrite (firstn_all2 (n := length (getattr pc b) - ng)) by lia.
    rewrite <- app_assoc. do 2 f_equal. unfold mid, interior. f_equal. lia. }
  rewrite Ha2.
  match goal with |- bind ?X _ = _ =>
    assert (H3 : X = Returned ((if Nat.eqb i0 0 then repeat (hd [] mid) ng
                                else srcL) ++ mid ++ srcR))
  end.
  { destruct (Nat.eqb i0 0); [apply outflow_left; assumption | reflexivity]. }
  rewrite H3. cbn [bind].
  set (L' := if Nat.eqb i0 0 then repeat (hd [] mid) ng else srcL).
  match goal with |- bind ?X _ = _ =>
    assert (H4 : X = Returned (L' ++ mid ++
                   (if Z.eqb (Z.of_nat i0) (Z.of_nat (length ps) - 1)
                    then repeat (last mid []) ng else srcR)))
  end.
  { destruct (Z.eqb _ _); [apply outflow_right; assumption | reflexivity]. }
  rewrite H4. cbn [bind].
  unfold exchanged. fold mid. unfold L', srcL, srcR.
  rewrite (interior_tail ng (getattr pl b) Wl), (interior_head ng (getattr pr b) Wr).
  reflexivity.
Qed.

(** The closed form, entry by entry. *)
Lemma exchanged_patches_length ng b ps :
  length (exchanged_patches ng b ps) = length ps.
Proof.
  unfold exchanged_patches.
  rewrite length_map, length_combine, length_seq. lia.
Qed.

Lemma nth_error_exchanged_patches ng b ps (j : nat) (p : Patch) :
  nth_error ps j = Some p ->
  nth_error (exchanged_patches ng b ps) j = Some (exchanged_patch ng b ps j p).
Proof.
  intros E. assert (Hj : j < length ps) by (apply nth_error_Some; congruence).
  unfold exchanged_patches.
  rewrite nth_error_map.
  assert (Hc : forall k, nth_error (combine (seq k (length ps)) ps) j
                      = Some (k + j, p)).
  { clear Hj. revert j E.
    induction ps as [|q ps IH]; intros j E k; [destruct j; discriminate|].
    destruct j as [|j]; cbn in *.
    - injection E as ->. f_equal. f_equal. lia.
    - rewrite (IH j E (S k)). f_equal. f_equal. lia. }
  rewrite (Hc 0). reflexivity.
Qed.

(** The exchange keeps the length and the interior of a buffer. *)
Lemma exchanged_length ng (n i0 : nat) (ml mc mr : array) :
  ng <= length ml -> ng <= length mr ->
  length (exchanged ng n i0 ml mc mr) = ng + length mc + ng.
Proof.
  intros Hl Hr. unfold exchanged. rewrite !length_app.
  destruct (Nat.eqb i0 0), (Z.eqb _ _);
    rewrite ?repeat_length, ?length_skipn, ?length_firstn; lia.
Qed.

Lemma exchanged_interior ng (n i0 : nat) (ml mc mr : array) :
  ng <= length ml -> ng <= length mr ->
  interior ng (exchanged ng n i0 ml mc mr) = mc.
Proof.
  intros Hl Hr. unfold exchanged. apply interior_of_parts.
  - destruct (Nat.eqb i0 0); rewrite ?repeat_length, ?length_skipn; lia.
  - destruct (Z.eqb _ _); rewrite ?repeat_length, ?length_firstn; lia.
Qed.

Lemma firstn_snoc {X : Type} (l : list X) (k : nat) (x : X) :
  nth_error l k = Some x -> firstn (S k) l = firstn k l ++ [x].
Proof.
  revert k. induction l as [|y l IH]; intros [|k] E; try discriminate.
  - injection E as ->. reflexivity.
  - cbn [firstn app]. f_equal. apply IH. exact E.
Qed.

(** *** The loop of [set_bc], patch after patch *)

Section ClosedForm.
Variables (ng : nat) (b : buffer) (ps0 : list Patch).
Hypothesis Hng : 0 < ng.
Hypothesis Hwide : Forall (fun p => wide_enough ng (getattr p b)) ps0.

Let n := length ps0.
Let final := exchanged_patches ng b ps0.

(** The patches once the first [k] are done. *)
Let cur (k : nat) : list Patch := firstn k final ++ skipn k ps0.

Lemma wide_at (j : nat) (p : Patch) :
  nth_error ps0 j = Some p -> wide_enough ng (getattr p b).
Proof.
  intros E. apply nth_error_In in E.
  rewrite Forall_forall in Hwide. apply Hwide. exact E.
Qed.

Lemma cur_length (k : nat) : k <= n -> length (cur k) = n.
Proof.
  intros Hk. unfold cur. rewrite length_app, length_firstn, length_skipn.
  unfold final. rewrite exchanged_patches_length. fold n. lia.
Qed.

Lemma cur_done (k j : nat) :
  k <= n -> j < k -> nth_error (cur k) j = nth_error final j.
Proof.
  intros Hk Hj. unfold cur.
  rewrite nth_error_app1.
  - rewrite nth_error_firstn. destruct (Nat.ltb_spec j k); [reflexivity | lia].
  - rewrite length_firstn. unfold final. rewrite exchanged_patches_length.
    fold n. lia.
Qed.

Lemma cur_pending (k j : nat) :
  k <= n -> k <= j -> nth_error (cur k) j = nth_error ps0 j.
Proof.
  intros Hk Hj. unfold cur.
  rewrite nth_error_app2; rewrite length_firstn; unfold final;
    rewrite exchanged_patches_length; fold n;
    replace (Nat.min k n) with k by lia; [|lia].
  rewrite nth_error_skipn. f_equal. lia.
Qed.

(** Done or pending, a patch has the width and the interior it had on
    entry. *)
Lemma cur_interior (k j : nat) (p0 : Patch) :
  k <= n -> nth_error ps0 j = Some p0 ->
  exists p, nth_error (cur k) j = Some p /\
            wide_enough ng (getattr p b) /\
            interior ng (getattr p b) = interior ng (getattr p0 b).
Proof.
  intros Hk E0. pose proof (wide_at j p0 E0) as W0.
  destruct (Nat.lt_ge_cases j k) as [Hlt|Hge].
  - exists (exchanged_patch ng b ps0 j p0).
    rewrite cur_done by assumption. unfold final.
    rewrite (nth_error_exchanged_patches ng b ps0 j p0 E0).
    split; [reflexivity|].
    unfold exchanged_patch. rewrite getattr_setattr.
    assert (Hn : 0 < length ps0) by (apply Nat.le_lt_trans with j; [lia|];
      apply nth_error_Some; congruence).
    assert (Hll : ng <= length (interior ng (buffer_of ps0 (left_of (length ps0) j) b))).
    { unfold buffer_of.
      destruct (nth_error ps0 (left_of (length ps0) j)) as [pl|] eqn:El.
      - pose proof (wide_at _ _ El) as Wl. unfold wide_enough in Wl.
        rewrite interior_length. lia.
      - apply nth_error_None in El. unfold left_of in El.
        pose proof (Nat.mod_upper_bound (j + length ps0 - 1) (length ps0)). lia. }
    assert (Hrr : ng <= length (interior ng (buffer_of ps0 (right_of (length ps0) j) b))).
    { unfold buffer_of.
      destruct (nth_error ps0 (right_of (length ps0) j)) as [pr|] eqn:Er.
      - pose proof (wide_at _ _ Er) as Wr. unfold wide_enough in Wr.
        rewrite interior_length. lia.
      - apply nth_error_None in Er. unfold right_of in Er.
        pose proof (Nat.mod_upper_bound (j + length ps0 + 1) (length ps0)). lia. }
    split.
    + unfold wide_enough in *. rewrite exchanged_length by assumption.
      rewrite interior_length. lia.
    + apply exchanged_interior; assumption.
  - exists p0. rewrite cur_pending by assumption. auto.
Qed.

(** One turn of the loop. *)
Lemma set_bc_step (k : nat) :
  k < n ->
  set_bc_patch ng b (cur k) (left_of n k) k (right_of n k) = Returned (cur (S k)).
Proof.
  intros Hk.
  assert (Hil : left_of n k < n) by (apply Nat.mod_upper_bound; lia).
  assert (Hir : right_of n k < n) by (apply Nat.mod_upper_bound; lia).
  destruct (nth_error ps0 k) as [pc|] eqn:Ec;
    [| apply nth_error_None in Ec; fold n in Ec; lia].
  destruct (nth_error ps0 (left_of n k)) as [pl0|] eqn:El;
    [| apply nth_error_None in El; fold n in El; lia].
  destruct (nth_error ps0 (right_of n k)) as [pr0|] eqn:Er;
    [| apply nth_error_None in Er; fold n in Er; lia].
  destruct (cur_interior k _ pl0 ltac:(lia) El) as (pl & Hl & Wl & Il).
  destruct (cur_interior k _ pr0 ltac:(lia) Er) as (pr & Hr & Wr & Ir).
  assert (Hc : nth_error (cur k) k = Some pc)
    by (rewrite cur_pending by lia; exact Ec).
  rewrite (set_bc_patch_exchanged ng b (cur k) _ k _ pl pc pr Hng Hl Hc Hr Wl
             (wide_at k pc Ec) Wr).
  f_equal. rewrite Il, Ir, cur_length by lia.
  unfold store. rewrite Hc.
  assert (Hf : nth_error final k = Some (exchanged_patch ng b ps0 k pc))
    by (apply nth_error_exchanged_patches; exact Ec).
  unfold cur at 3. rewrite (firstn_snoc final k _ Hf), <- app_assoc.
  assert (Hlen : length (firstn k final) = k).
  { rewrite length_firstn. unfold final. rewrite exchanged_patches_length.
    fold n. lia. }
  unfold cur.
  rewrite firstn_app, Hlen, Nat.sub_diag, firstn_O, app_nil_r.
  rewrite (firstn_all2 (n := k)) by lia.
  rewrite skipn_app, Hlen, skipn_all2 by lia.
  replace (S k - k) with 1 by lia. rewrite skipn_skipn.
  cbn [app]. f_equal. f_equal.
  unfold exchanged_patch, buffer_of. fold n. rewrite El, Er. reflexivity.
Qed.

Lemma set_bc_loop (m : nat) :
  forall k, k + m = n ->
    Numpy.for_each
      (fun ps i0 => set_bc_patch ng b ps (left_of n i0) i0 (right_of n i0))
      (cur k) (seq k m) = Returned final.
Proof.
  induction m as [|m IH]; intros k Hk.
  - cbn. f_equal. unfold cur.
    rewrite skipn_all2 by (fold n; lia).
    rewrite app_nil_r. apply firstn_all2.
    unfold final. rewrite exchanged_patches_length. fold n. lia.
  - cbn [seq Numpy.for_each]. rewrite set_bc_step by lia. cbn [bind].
    apply IH. lia.
Qed.

End ClosedForm.

(** [set_bc] on a solver ready for it returns, and leaves the patches in
    the closed form. *)
Lemma set_bc_closed_form b (s : Solver) :
  exchange_ready b s ->
  set_bc b s =
  Returned
    (with_patches s (exchanged_patches (num_guard s) b (patches s))
       (map (fun i0 =>
               SetBcPatch i0 (left_of (length (patches s)) i0)
                 (right_of (length (patches s)) i0))
          (seq 0 (length (patches s))))).
Proof.
  intros [Hng Hwide]. unfold set_bc.
  pose proof (set_bc_loop (num_guard s) b (patches s) Hng Hwide
                (length (patches s)) 0 eq_refl) as Hloop.
  cbn [firstn skipn app] in Hloop. rewrite Hloop. reflexivity.
Qed.

(** The guards of a buffer given by its parts. *)
Lemma left_guard_of_parts ng L mid R :
  length L = ng -> left_guard ng (L ++ mid ++ R) = L.
Proof.
  intros HL. unfold left_guard.
  rewrite firstn_app, HL, Nat.sub_diag, firstn_O, app_nil_r.
  apply firstn_all2. lia.
Qed.

Lemma right_guard_of_parts ng L mid R :
  length R = ng -> right_guard ng (L ++ mid ++ R) = R.
Proof.
  intros HR. unfold right_guard. rewrite !length_app, HR.
  replace (length L + (length mid + ng) - ng) with (length L + length mid) by lia.
  rewrite app_assoc, skipn_app, length_app, Nat.sub_diag.
  rewrite skipn_all2 by (rewrite length_app; lia). reflexivity.
Qed.

(** The neighbours of a patch: the one before and the one after, around
    the ring. *)
Lemma neighbours (n i : nat) :
  i < n ->
  left_of n i = (if Nat.eqb i 0 then n - 1 else i - 1) /\
  right_of n i = (if Nat.eqb (S i) n then 0 else S i).
Proof.
  intros Hi. unfold left_of, right_of. split.
  - destruct (Nat.eqb_spec i 0) as [->|Hne].
    + replace (0 + n - 1) with (n - 1) by lia. apply Nat.mod_small. lia.
    + replace (i + n - 1) with (i - 1 + 1 * n) by lia.
      rewrite Nat.Div0.mod_add. apply Nat.mod_small. lia.
  - destruct (Nat.eqb_spec (S i) n) as [He|Hne].
    + replace (i + n + 1) with (0 + 2 * n) by lia.
      rewrite Nat.Div0.mod_add. apply Nat.Div0.mod_0_l.
    + replace (i + n + 1) with (S i + 1 * n) by lia.
      rewrite Nat.Div0.mod_add. apply Nat.mod_small. lia.
Qed.

(** C7, as amended. On a solver whose patches all hold at least [ng]
    interior entries in buffer [b] ([ng >= 1]), [set_bc] returns; every
    buffer keeps its length and its interior; the left guard of patch [i]
    holds the last [ng] interior entries of patch [(i + n - 1) mod n], the
    right guard the first [ng] interior entries of patch [(i + n + 1) mod
    n]; except that the left guard of patch 0 is [ng] copies of its own
    first interior entry and the right guard of patch [n - 1] is [ng]
    copies of its own last interior entry. *)
Theorem set_bc_guard_zones b (s : Solver) :
  exchange_ready b s ->
  exists s',
    set_bc b s = Returned s' /\
    length (patches s') = length (patches s) /\
    forall (i : nat) (p : Patch),
      nth_error (patches s) i = Some p ->
      exists p',
        nth_error (patches s') i = Some p' /\
        let ng := num_guard s in
        let n := length (patches s) in
        let a := getattr p b in
        let a' := getattr p' b in
        length a' = length a /\
        interior ng a' = interior ng a /\
        left_guard ng a' =
          (if Nat.eqb i 0 then repeat (hd [] (interior ng a)) ng
           else
             let al := buffer_of (patches s) (left_of n i) b in
             skipn (length (interior ng al) - ng) (interior ng al)) /\
        right_guard ng a' =
          (if Nat.eqb (S i) n then repeat (last (interior ng a) []) ng
           else firstn ng (interior ng (buffer_of (patches s) (right_of n i) b))).
Proof.
  intros Hready. pose proof Hready as [Hng Hwide].
  eexists. split; [apply set_bc_closed_form; exact Hready|].
  cbn [with_patches patches]. split; [apply exchanged_patches_length|].
  intros i p Ei. eexists. split; [apply nth_error_exchanged_patches; exact Ei|].
  cbn zeta. unfold exchanged_patch. rewrite getattr_setattr.
  set (ng := num_guard s) in *. set (n := length (patches s)).
  assert (Hi : i < n) by (apply nth_error_Some; congruence).
  assert (Wat : forall j, j < n ->
            ng <= length (interior ng (buffer_of (patches s) j b))).
  { intros j Hj. unfold buffer_of.
    destruct (nth_error (patches s) j) as [q|] eqn:Ej;
      [| apply nth_error_None in Ej; fold n in Ej; lia].
    pose proof (wide_at ng b (patches s) Hwide j q Ej) as W.
    unfold wide_enough in W. rewrite interior_length. lia. }
  assert (Hl : ng <= length (interior ng (buffer_of (patches s) (left_of n i) b)))
    by (apply Wat, Nat.mod_upper_bound; lia).
  assert (Hr : ng <= length (interior ng (buffer_of (patches s) (right_of n i) b)))
    by (apply Wat, Nat.mod_upper_bound; lia).
  pose proof (wide_at ng b (patches s) Hwide i p Ei) as W.
  unfold wide_enough in W.
  split; [rewrite exchanged_length, interior_length by assumption; lia|].
  split; [apply exchanged_interior; assumption|].
  unfold exchanged. split.
  - rewrite left_guard_of_parts; [reflexivity|].
    destruct (Nat.eqb i 0); rewrite ?repeat_length, ?length_skipn; lia.
  - rewrite right_guard_of_parts.
    + destruct (Z.eqb_spec (Z.of_nat i) (Z.of_nat n - 1)),
               (Nat.eqb_spec (S i) n); try lia; reflexivity.
    + destruct (Z.eqb _ _); rewrite ?repeat_length, ?length_firstn; lia.
Qed.

(** Exchanged patches are ready for another exchange, and a second
    exchange rebuilds the same buffers. *)
Lemma exchanged_patches_wide ng b ps :
  Forall (fun p => wide_enough ng (getattr p b)) ps ->
  Forall (fun p => wide_enough ng (getattr p b)) (exchanged_patches ng b ps).
Proof.
  intros Hwide. apply Forall_forall. intros q Hq.
  apply In_nth_error in Hq. destruct Hq as [j Ej].
  assert (Hj : j < length ps).
  { rewrite <- (exchanged_patches_length ng b ps).
    apply nth_error_Some. congruence. }
  destruct (nth_error ps j) as [p|] eqn:Ep;
    [| apply nth_error_None in Ep; lia].
  rewrite (nth_error_exchanged_patches ng b ps j p Ep) in Ej.
  injection Ej as <-.
  unfold exchanged_patch. rewrite getattr_setattr.
  assert (Wat : forall k, k < length ps ->
            ng <= length (interior ng (buffer_of ps k b))).
  { intros k Hk. unfold buffer_of.
    destruct (nth_error ps k) as [q|] eqn:Ek;
      [| apply nth_error_None in Ek; lia].
    pose proof (wide_at ng b ps Hwide k q Ek) as W.
    unfold wide_enough in W. rewrite interior_length. lia. }
  pose proof (wide_at ng b ps Hwide j p Ep) as W. unfold wide_enough in *.
  rewrite exchanged_length, interior_length;
    [lia | apply Wat, Nat.mod_upper_bound; lia
         | apply Wat, Nat.mod_upper_bound; lia].
Qed.

Lemma setattr_setattr (p : Patch) b a a' :
  setattr (setattr p b a) b a' = setattr p b a'.
Proof. destruct b; reflexivity. Qed.

Lemma exchanged_patches_idempotent ng b ps :
  Forall (fun p => wide_enough ng (getattr p b)) ps ->
  exchanged_patches ng b (exchanged_patches ng b ps) = exchanged_patches ng b ps.
Proof.
  intros Hwide. apply nth_error_ext. intros j.
  destruct (nth_error ps j) as [p|] eqn:Ep.
  - assert (Hj : j < length ps) by (apply nth_error_Some; congruence).
    pose proof (nth_error_exchanged_patches ng b ps j p Ep) as E1.
    rewrite (nth_error_exchanged_patches ng b _ j _ E1), E1. f_equal.
    assert (Wat : forall k, k < length ps ->
              ng <= length (interior ng (buffer_of ps k b))).
    { intros k Hk. unfold buffer_of.
      destruct (nth_error ps k) as [q|] eqn:Ek;
        [| apply nth_error_None in Ek; lia].
      pose proof (wide_at ng b ps Hwide k q Ek) as W.
      unfold wide_enough in W. rewrite interior_length. lia. }
    assert (Hint : forall k, k < length ps ->
              interior ng (buffer_of (exchanged_patches ng b ps) k b) =
              interior ng (buffer_of ps k b)).
    { intros k Hk. unfold buffer_of at 1.
      destruct (nth_error ps k) as [q|] eqn:Ek;
        [| apply nth_error_None in Ek; lia].
      rewrite (nth_error_exchanged_patches ng b ps k q Ek).
      unfold exchanged_patch. rewrite getattr_setattr.
      rewrite exchanged_interior by (apply Wat, Nat.mod_upper_bound; lia).
      unfold buffer_of. rewrite Ek. reflexivity. }
    unfold exchanged_patch at 1. rewrite exchanged_patches_length.
    rewrite !Hint by (apply Nat.mod_upper_bound; lia).
    unfold exchanged_patch. rewrite getattr_setattr, setattr_setattr.
    rewrite exchanged_interior by (apply Wat, Nat.mod_upper_bound; lia).
    reflexivity.
  - pose proof Ep as Ep'. apply nth_error_None in Ep'.
    replace (nth_error (exchanged_patches ng b ps) j) with (@None Patch)
      by (symmetry; apply nth_error_None; rewrite exchanged_patches_length; lia).
    apply nth_error_None. rewrite !exchanged_patches_length. lia.
Qed.

(** C8, as amended. On a solver whose patches all hold at least [ng]
    interior entries in buffer [b] ([ng >= 1]), two exchanges in a row
    both return, and the second leaves every patch, guard zones included,
    as the first did. *)
Theorem set_bc_idempotent b (s : Solver) :
  exchange_ready b s ->
  exists s1 s2,
    set_bc b s = Returned s1 /\
    set_bc b s1 = Returned s2 /\
    patches s2 = patches s1.
Proof.
  intros Hready. pose proof Hready as [Hng Hwide].
  eexists. eexists. split; [apply set_bc_closed_form; exact Hready|].
  split.
  - apply set_bc_closed_form. split; cbn [with_patches num_guard patches].
    + exact Hng.
    + apply exchanged_patches_wide. exact Hwide.
  - cbn [with_patches num_guard patches].
    apply exchanged_patches_idempotent. exact Hwide.
Qed.

End Exchange.

(* ================================================================== *)
(** ** What the exchange and the driver leave alone *)

Section Frame.
Context {F : Type} {AR : Arith F} {cell faces_t : Type}.
Import Srhd2d.
Local Abbreviation Patch := (@Srhd2d.Patch F cell faces_t).
Local Abbreviation Solver := (@Srhd2d.Solver F cell faces_t).

(** Lists related entry by entry. *)
Lemma Forall2_same {X : Type} (R : X -> X -> Prop) (l : list X) :
  (forall x, R x x) -> Forall2 R l l.
Proof. intros HR. induction l; constructor; auto. Qed.

Lemma Forall2_chain {X Y Z : Type} (R : X -> Y -> Prop) (S : Y -> Z -> Prop)
    (T : X -> Z -> Prop) :
  (forall x y z, R x y -> S y z -> T x z) ->
  forall l1 l2 l3, Forall2 R l1 l2 -> Forall2 S l2 l3 -> Forall2 T l1 l3.
Proof.
  intros HT l1 l2 l3 H12. revert l3.
  induction H12 as [|x y l1 l2 Hxy _ IH]; intros l3 H23; inversion H23; subst.
  - constructor.
  - constructor; [eapply HT; eauto | apply IH; assumption].
Qed.

Lemma Forall2_map_left {X Y Z : Type} (R : Y -> Z -> Prop) (f : X -> Y) :
  forall l l', Forall2 R (map f l) l' <-> Forall2 (fun x z => R (f x) z) l l'.
Proof.
  induction l as [|x l IH]; intros l'; split; intros H.
  - inversion H. constructor.
  - inversion H. constructor.
  - cbn in H. inversion H; subst. constructor; [assumption | apply IH; assumption].
  - inversion H; subst. cbn. constructor; [assumption | apply IH; assumption].
Qed.

Lemma Forall2_map_right {X Y Z : Type} (R : X -> Z -> Prop) (g : Y -> Z) :
  forall l l', Forall2 R l (map g l') <-> Forall2 (fun x y => R x (g y)) l l'.
Proof.
  intros l l'. revert l.
  induction l' as [|y l' IH]; intros l; split; intros H.
  - inversion H. constructor.
  - inversion H. constructor.
  - cbn in H. inversion H; subst. constructor; [assumption | apply IH; assumption].
  - inversion H; subst. cbn. constructor; [assumption | apply IH; assumption].
Qed.

(** A patch that differs from [p] in buffer [b] at most. *)
Let same_but (b : buffer) (p p' : Patch) : Prop :=
  p' = setattr p b (getattr p' b).

Lemma same_but_refl b (p : Patch) : same_but b p p.
Proof. unfold same_but. destruct p, b; reflexivity. Qed.

Lemma same_but_setattr b (p : Patch) a : same_but b p (setattr p b a).
Proof. unfold same_but. rewrite getattr_setattr. reflexivity. Qed.

Lemma same_but_trans b (p q r : Patch) :
  same_but b p q -> same_but b q r -> same_but b p r.
Proof.
  unfold same_but. intros Hq Hr. rewrite Hr at 1. rewrite Hq.
  rewrite setattr_setattr. reflexivity.
Qed.

Lemma store_same_but (ps : list Patch) i b a :
  Forall2 (same_but b) ps (store ps i b a).
Proof.
  revert i. induction ps as [|p ps IH]; intros [|i].
  - constructor.
  - constructor.
  - cbn. constructor; [apply same_but_setattr | apply Forall2_same, same_but_refl].
  - specialize (IH i). unfold store in *. cbn [nth_error].
    destruct (nth_error ps i) as [q|].
    + cbn. constructor; [apply same_but_refl | exact IH].
    + apply Forall2_same, same_but_refl.
Qed.

(** Whatever the widths, [set_bc_patch] either raises or writes buffer [b]
    of patch [i0] and nothing else. *)
Lemma set_bc_patch_writes ng b (ps ps' : list Patch) (il i0 ir : nat) :
  set_bc_patch ng b ps il i0 ir = Returned ps' ->
  exists a, ps' = store ps i0 b a.
Proof.
  unfold set_bc_patch, bind. intros H.
  repeat match type of H with
         | match ?x with Returned _ => _ | Aborted => Aborted end = _ =>
             destruct x; [|discriminate H]
         end.
  eexists. injection H as <-. reflexivity.
Qed.

Lemma set_bc_loop_writes ng b (fl fr : nat -> nat) (l : list nat) :
  forall ps ps' : list Patch,
    Numpy.for_each (fun ps i0 => set_bc_patch ng b ps (fl i0) i0 (fr i0)) ps l
    = Returned ps' ->
    Forall2 (same_but b) ps ps'.
Proof.
  induction l as [|i0 l IH]; intros ps ps' H; cbn in H.
  - injection H as <-. apply Forall2_same, same_but_refl.
  - unfold bind in H.
    destruct (set_bc_patch ng b ps (fl i0) i0 (fr i0)) as [ps1|] eqn:E;
      [|discriminate H].
    destruct (set_bc_patch_writes _ _ _ _ _ _ _ E) as (a & ->).
    eapply Forall2_chain; [apply same_but_trans | apply store_same_but | apply IH, H].
Qed.

Lemma set_bc_frame (b : buffer) (s s' : Solver) :
  set_bc b s = Returned s' ->
  Forall2 (same_but b) (patches s) (patches s').
Proof.
  unfold set_bc, bind. intros H.
  destruct (Numpy.for_each _ _ _) as [ps|] eqn:E; [|discriminate H].
  injection H as <-. cbn.
  exact (set_bc_loop_writes _ _ _ _ _ _ _ E).
Qed.

(** Whenever [set_bc] returns, it has written the buffer it was given and
    nothing else: the mesh, the setup and the guard width are as before,
    there are as many patches, and each differs from what it was in that
    one buffer at most (times, wavespeeds and the three other buffers are
    kept). *)
Theorem set_bc_writes_one_buffer (b : buffer) (s s' : Solver) :
  set_bc b s = Returned s' ->
  solver_mesh s' = solver_mesh s /\
  solver_setup s' = solver_setup s /\
  num_guard s' = num_guard s /\
  num_cons s' = num_cons s /\
  Forall2 (fun p p' => p' = setattr p b (getattr p' b)) (patches s) (patches s').
Proof.
  intros H. pose proof (set_bc_frame b s s' H) as Hf.
  unfold set_bc, bind in H.
  destruct (Numpy.for_each _ _ _) as [ps|]; [|discriminate H].
  injection H as <-. cbn.
  repeat split. exact Hf.
Qed.

End Frame.

(* ================================================================== *)
(** ** The Runge-Kutta driver *)

Section Driver.
Context {F : Type} {AR : Arith F} {cell faces_t : Type}.
Import Srhd2d.
Local Abbreviation Patch := (@Srhd2d.Patch F cell faces_t).
Local Abbreviation Solver := (@Srhd2d.Solver F cell faces_t).
Variable lib : @Library F cell faces_t.

(** A loop that collects what a method returns, patch after patch, gives
    the outcomes of the method on every patch, or none. *)
Lemma for_each_all_returned {A B : Type} (m : A -> outcome B) (l : list A) :
  forall acc : list B,
    Numpy.for_each (fun acc p => p' <- m p ;; Returned (acc ++ [p'])) acc l =
    (r <- all_returned (map m l) ;; Returned (acc ++ r)).
Proof.
  induction l as [|a l IH]; intros acc; cbn [Numpy.for_each map all_returned bind].
  - rewrite app_nil_r. reflexivity.
  - destruct (m a) as [b|]; cbn [bind]; [|reflexivity].
    rewrite IH. destruct (all_returned (map m l)) as [r|]; cbn [bind];
      [|reflexivity].
    rewrite <- app_assoc. reflexivity.
Qed.

Lemma all_returned_Forall2 {A B : Type} (m : A -> outcome B) (l : list A) :
  forall r, all_returned (map m l) = Returned r ->
            Forall2 (fun a b => m a = Returned b) l r.
Proof.
  induction l as [|a l IH]; intros r H; cbn [map all_returned bind] in H.
  - injection H as <-. constructor.
  - destruct (m a) as [b|] eqn:E; cbn [bind] in H; [|discriminate H].
    destruct (all_returned (map m l)) as [r'|]; cbn [bind] in H; [|discriminate H].
    injection H as <-. constructor; [exact E | apply IH; reflexivity].
Qed.

(** A stage that returns leaves as many patches as it found. *)
Lemma specified_stage_length (w dt : F) (s : Solver) (ps ps' : list Patch) :
  specified_stage lib w dt s ps = Returned ps' -> length ps' = length ps.
Proof.
  unfold specified_stage. intros H.
  destruct (all_returned _) as [ps1|] eqn:E1; cbn [bind] in H; [|discriminate H].
  destruct (set_bc _ _) as [s2|] eqn:E2; cbn [bind] in H; [|discriminate H].
  injection H as <-. rewrite length_map.
  apply set_bc_frame, Forall2_length in E2. cbn [with_patches patches] in E2.
  apply all_returned_Forall2, Forall2_length in E1. congruence.
Qed.

(** [Solver.advance_rk] on a solver [s0] is the stage of the
    specification on its patches, with the calls of the stage added. *)
Lemma advance_rk_specified (w dt : F) (s0 s : Solver) :
  num_guard s0 = num_guard s ->
  advance_rk lib w dt s0 =
  (ps <- specified_stage lib w dt s (patches s0) ;;
   Returned (with_patches s0 ps (stage_calls (length (patches s0)) w dt))).
Proof.
  intros Hng. unfold advance_rk, for_patches_raising, specified_stage.
  rewrite for_each_all_returned.
  destruct (all_returned _) as [ps1|] eqn:E1; cbn [bind app]; [|reflexivity].
  assert (Hl1 : length ps1 = length (patches s0))
    by (apply all_returned_Forall2, Forall2_length in E1; congruence).
  unfold set_bc. cbn [num_guard patches with_patches]. rewrite Hng.
  destruct (Numpy.for_each _ ps1 _) as [ps2|] eqn:E2; cbn [bind]; [|reflexivity].
  assert (Hl2 : length ps2 = length ps1)
    by (apply set_bc_loop_writes, Forall2_length in E2; congruence).
  unfold for_patches, with_patches. cbn.
  rewrite Hl2, Hl1. unfold stage_calls. rewrite <- !app_assoc. reflexivity.
Qed.

(** C6, as amended. [Solver.advance(dt)] takes no choice of schedule:
    whatever the solver, the step and the kernels, it is the cycle of the
    specification for the two stage weights [0, 1/2], in what it returns
    and in where it ends the run.  Every patch starts a new iteration;
    then, stage by stage, every patch recomputes its primitives (the run
    ends there if the recovery kernel does not converge), the exchange
    runs over all patches (the run ends there if a buffer is too short),
    and only then every patch takes the sub-stage with the weight of the
    stage. *)
Theorem advance_runs_rk2 (dt : F) (s : Solver) :
  advance lib dt s = specified_cycle lib bs_rk2 dt s.
Proof.
  unfold advance, specified_cycle, bs_rk2. cbn [Numpy.for_each bind].
  rewrite (advance_rk_specified _ dt (new_iteration s) s) by reflexivity.
  cbn [new_iteration for_patches with_patches patches].
  destruct (specified_stage lib _ dt s _) as [psA|] eqn:EA; cbn [bind];
    [|reflexivity].
  pose proof (specified_stage_length _ _ _ _ _ EA) as HlA.
  rewrite length_map in HlA.
  match goal with |- context [advance_rk lib ?w dt ?s0] =>
    rewrite (advance_rk_specified w dt s0 s) by reflexivity end.
  cbn [with_patches patches].
  destruct (specified_stage lib _ dt s psA) as [psB|]; cbn [bind];
    [|reflexivity].
  unfold new_iteration, for_patches, with_patches.
  cbn [solver_mesh solver_setup num_guard num_cons calls patches].
  rewrite length_map, HlA. unfold schedule_calls. cbn [flat_map].
  rewrite app_nil_r, <- !app_assoc. reflexivity.
Qed.

End Driver.

(* ================================================================== *)
(** ** A cycle of the driver, patch by patch *)

Section Cycle.
Context {F : Type} {AR : Arith F} {cell faces_t : Type}.
Import Srhd2d.
Local Abbreviation Patch := (@Srhd2d.Patch F cell faces_t).
Local Abbreviation Solver := (@Srhd2d.Solver F cell faces_t).
Variable lib : @Library F cell faces_t.

(** What one stage of weight [w] does to the clock and to the snapshot of
    a patch. *)
Let staged (w dt : F) (p p' : Patch) : Prop :=
  time p' = (time0 p * w + (time p + dt) * (lit1 - w))%A /\
  time0 p' = time0 p /\
  conserved0 p' = conserved0 p.

Lemma advance_rk_patchwise (w dt : F) (s s' : Solver) :
  advance_rk lib w dt s = Returned s' ->
  Forall2 (staged w dt) (patches s) (patches s').
Proof.
  unfold advance_rk, bind. intros H.
  destruct (for_patches_raising _ _ s) as [s1|] eqn:E1; [|discriminate H].
  destruct (set_bc Primitive1 s1) as [s2|] eqn:E; [|discriminate H].
  injection H as <-.
  pose proof (set_bc_frame _ _ _ E) as Hf.
  unfold for_patches_raising in E1.
  rewrite for_each_all_returned in E1.
  destruct (all_returned _) as [ps1|] eqn:Er; cbn [bind app] in E1;
    [|discriminate E1].
  injection E1 as <-. cbn [with_patches patches] in Hf.
  apply all_returned_Forall2 in Er.
  cbn [for_patches with_patches patches].
  apply (proj2 (Forall2_map_right _ _ _ _)).
  eapply Forall2_chain; [|exact Er|exact Hf].
  intros p p1 q Hp Hq. cbn beta in Hp, Hq. unfold staged.
  unfold recompute_primitive, bind in Hp.
  destruct (srhd_2d_conserved_to_primitive _ _ _ _ _ _) as [a|];
    [|discriminate Hp].
  injection Hp as <-. rewrite Hq. cbn. repeat split; reflexivity.
Qed.

(** A cycle of [advance] takes the snapshot it starts from: whenever it
    returns, there are as many patches as before, and in each of them
    [time0] is the time and [conserved0] the conserved buffer the patch
    had on entry, in any arithmetic. *)
Theorem advance_takes_snapshot (dt : F) (s s' : Solver) :
  advance lib dt s = Returned s' ->
  Forall2 (fun p p' => time0 p' = time p /\ conserved0 p' = conserved1 p)
    (patches s) (patches s').
Proof.
  unfold advance, bs_rk2. cbn [Numpy.for_each]. unfold bind. intros H.
  destruct (advance_rk lib _ dt (new_iteration s)) as [s1|] eqn:E1; [|discriminate H].
  destruct (advance_rk lib _ dt s1) as [s2|] eqn:E2; [|discriminate H].
  injection H as <-.
  apply advance_rk_patchwise in E1. apply advance_rk_patchwise in E2.
  unfold new_iteration, for_patches in E1. cbn [patches with_patches] in E1.
  apply (proj1 (Forall2_map_left _ _ _ _)) in E1.
  eapply Forall2_chain; [|exact E1|exact E2].
  intros p q r (_ & H1 & H2) (_ & H3 & H4). cbn in H1, H2.
  split; congruence.
Qed.

End Cycle.

Section CycleInExactArithmetic.
Context {cell faces_t : Type}.
Import Srhd2d.
Local Abbreviation Patch := (@Srhd2d.Patch R cell faces_t).
Local Abbreviation Solver := (@Srhd2d.Solver R cell faces_t).
Variable lib : @Library R cell faces_t.
Local Open Scope R_scope.

(** In exact arithmetic a cycle of [advance(dt)] moves the clock of every
    patch forward by [dt]: the two blends of the schedule (weights 0 and
    1/2) add up to one step. *)
Theorem advance_moves_time (dt : R) (s s' : Solver) :
  advance lib dt s = Returned s' ->
  Forall2 (fun p p' => time p' = time p + dt) (patches s) (patches s').
Proof.
  unfold advance, bs_rk2. cbn [Numpy.for_each]. unfold bind. intros H.
  destruct (advance_rk lib _ dt (new_iteration s)) as [s1|] eqn:E1; [|discriminate H].
  destruct (advance_rk lib _ dt s1) as [s2|] eqn:E2; [|discriminate H].
  injection H as <-.
  apply advance_rk_patchwise in E1. apply advance_rk_patchwise in E2.
  unfold new_iteration, for_patches in E1. cbn [patches with_patches] in E1.
  apply (proj1 (Forall2_map_left _ _ _ _)) in E1.
  eapply Forall2_chain; [|exact E1|exact E2].
  intros p q r (H1 & H2 & _) (H3 & H4 & _). cbn in H1, H2, H3, H4.
  rewrite H3, H2, H1. field.
Qed.

(** The same for [Solver.time], the clock of the first patch. *)
Theorem advance_moves_solver_time (dt t : R) (s s' : Solver) :
  advance lib dt s = Returned s' ->
  Solver_time s = Returned t ->
  Solver_time s' = Returned (t + dt).
Proof.
  intros H Ht.
  unfold advance, bs_rk2 in H. cbn [Numpy.for_each] in H. unfold bind in H.
  destruct (advance_rk lib _ dt (new_iteration s)) as [s1|] eqn:E1; [|discriminate H].
  destruct (advance_rk lib _ dt s1) as [s2|] eqn:E2; [|discriminate H].
  injection H as <-.
  apply advance_rk_patchwise in E1. apply advance_rk_patchwise in E2.
  unfold new_iteration, for_patches in E1. cbn [patches with_patches] in E1.
  apply (proj1 (Forall2_map_left _ _ _ _)) in E1.
  assert (Hf : Forall2 (fun p p' : Patch => time p' = time p + dt)
                 (patches s) (patches s2)).
  { eapply Forall2_chain; [|exact E1|exact E2].
    intros p q r (H1 & H2 & _) (H3 & H4 & _). cbn in H1, H2, H3, H4.
    rewrite H3, H2, H1. field. }
  unfold Solver_time, patch_at, bind in *.
  destruct Hf as [|p p' ps ps' Hp _]; cbn in *; [discriminate Ht|].
  injection Ht as <-. rewrite Hp. reflexivity.
Qed.

End CycleInExactArithmetic.

(* ================================================================== *)
(** ** The exchange and the driver on concrete solvers *)

Section OnExamples.
Import Srhd2d Examples GrowthExample.

Lemma s_wide_ready : exchange_ready Primitive1 s_wide.
Proof.
  split; [cbn; lia|]. repeat constructor; unfold wide_enough; cbn; lia.
Defined.

Lemma set_bc_guard_zones_witness :
  exists s',
    set_bc Primitive1 s_wide = Returned s' /\
    primitive_of s' 0 = [1; 1; 1; 2; 3; 4] /\
    primitive_of s' 1 = [1; 2; 3; 4; 4; 4].
Proof.
  destruct (set_bc_guard_zones Primitive1 s_wide s_wide_ready) as (s' & E & _).
  exists s'. split; [exact E|].
  vm_compute in E. injection E as <-. split; reflexivity.
Defined.

Lemma set_bc_idempotent_witness :
  exists s1 s2,
    set_bc Primitive1 s_wide = Returned s1 /\
    set_bc Primitive1 s1 = Returned s2 /\
    patches s2 = patches s1.
Proof. exact (set_bc_idempotent Primitive1 s_wide s_wide_ready). Defined.

(** C7, counterexample. With one interior zone per patch and a guard width
    of two, the exchange fills the right guard of patch 0 with the zone of
    patch 1 and with the mark 23, an entry of the guard zone of patch 1 on
    entry: not an interior entry of any neighbour. *)
Lemma set_bc_copies_guard_entries :
  exists s',
    set_bc Primitive1 s_narrow = Returned s' /\
    right_guard 2 (buffer_of (patches s') 0 Primitive1) = [[2]; [23]] /\
    interior 2 (buffer_of (patches s_narrow) 1 Primitive1) = [[2]] /\
    right_guard 2 (buffer_of (patches s_narrow) 1 Primitive1) = [[23]; [24]] /\
    ~ incl (right_guard 2 (buffer_of (patches s') 0 Primitive1))
        (interior 2 (buffer_of (patches s_narrow) 1 Primitive1)).
Proof.
  eexists. split; [vm_compute; reflexivity|].
  repeat split; try reflexivity.
  intros H. specialize (H [23] (or_intror (or_introl eq_refl))).
  vm_compute in H. destruct H as [H|[]]. discriminate H.
Qed.

(** C8, counterexample. On the same solver the second exchange changes a
    guard zone: the right guard of patch 0 holds zones 2 and 23 after the
    first exchange, zones 2 and 3 after the second. *)
Lemma set_bc_twice_differs :
  exists s1 s2,
    set_bc Primitive1 s_narrow = Returned s1 /\
    set_bc Primitive1 s1 = Returned s2 /\
    primitive_of s1 0 = [1; 1; 1; 2; 23] /\
    primitive_of s2 0 = [1; 1; 1; 2; 3] /\
    patches s2 <> patches s1.
Proof.
  eexists. eexists. split; [vm_compute; reflexivity|].
  split; [vm_compute; reflexivity|].
  split; [reflexivity|]. split; [reflexivity|].
  intros H. apply (f_equal (fun ps => concat (buffer_of ps 0 Primitive1))) in H.
  vm_compute in H. discriminate H.
Qed.

(** C6, counterexample. [advance] takes the step and nothing that would
    choose a schedule, and it runs the weights [0, 1/2]. On the solver the
    constructor builds for two zones of value 1 that grow at their own
    rate, a step of 0.5 leaves 1.625 in both zones: the cycle of the
    one-stage list [bs_rk1] would leave 1.5, the cycle of the three-stage
    list [bs_rk3] 1.6458333333333335, and [advance] is neither. *)
Lemma advance_runs_neither_rk1_nor_rk3 :
  Solver_init 0%float growth_library growth_setup (mesh_of 2) 0%float None 1 1
    = Returned s_growth /\
  solution_of (advance growth_library 0.5%float s_growth)
    = [1.625; 1.625]%float /\
  solution_of (specified_cycle growth_library bs_rk1 0.5%float s_growth)
    = [1.5; 1.5]%float /\
  solution_of (specified_cycle growth_library bs_rk3 0.5%float s_growth)
    = [1.6458333333333335; 1.6458333333333335]%float /\
  advance growth_library 0.5%float s_growth
    <> specified_cycle growth_library bs_rk1 0.5%float s_growth /\
  advance growth_library 0.5%float s_growth
    <> specified_cycle growth_library bs_rk3 0.5%float s_growth.
Proof.
  split; [vm_compute; reflexivity|].
  split; [vm_compute; reflexivity|].
  split; [vm_compute; reflexivity|].
  split; [vm_compute; reflexivity|].
  split; intros H; apply (f_equal solution_of) in H; vm_compute in H;
    discriminate H.
Qed.

End OnExamples.

(* ================================================================== *)
(** ** The maximum wavespeed *)

Section MaximumWavespeed.
Context {F : Type} {AR : Arith F}.
Import Srhd2d.

(** One step of [ndarray.max()] over an entry. *)
Let larger (m y : F) : F :=
  if is_nan m then m else if is_nan y then y
  else if (m <? y)%A then y else m.

Lemma fold_max_is_nan (l : list F) (x : F) :
  is_nan (fold_left larger l x) = is_nan x || existsb is_nan l.
Proof.
  revert x. induction l as [|y l IH]; intros x; cbn [fold_left existsb].
  - rewrite orb_false_r. reflexivity.
  - rewrite IH, orb_assoc. f_equal. unfold larger.
    destruct (is_nan x) eqn:Ex; [exact Ex|].
    destruct (is_nan y) eqn:Ey; [exact Ey|].
    destruct (_ <? _)%A; cbn; assumption.
Qed.

Lemma fold_max_In (l : list F) (x : F) : In (fold_left larger l x) (x :: l).
Proof.
  revert x. induction l as [|y l IH]; intros x; cbn [fold_left].
  - left. reflexivity.
  - assert (H : larger x y = x \/ larger x y = y).
    { unfold larger. destruct (is_nan x); [left; reflexivity|].
      destruct (is_nan y); [right; reflexivity|].
      destruct (_ <? _)%A; [right|left]; reflexivity. }
    specialize (IH (larger x y)).
    destruct H as [H|H]; rewrite H in *; clear H.
    + destruct IH as [<-|IH]; [left; reflexivity | right; right; exact IH].
    + right. exact IH.
Qed.

End MaximumWavespeed.

(** In exact arithmetic no entry is a NaN, and the value [ndarray.max()]
    returns is an entry of the array that bounds every entry. *)
Lemma fold_max_exact (l : list R) (x : R) :
  let m := fold_left
             (fun m y => if Srhd2d.is_nan m then m
                         else if Srhd2d.is_nan y then y
                         else if Rltb m y then y else m) l x in
  In m (x :: l) /\ forall y, In y (x :: l) -> (y <= m)%R.
Proof.
  assert (Hn : forall z : R, Srhd2d.is_nan z = false).
  { intros z. unfold Srhd2d.is_nan. cbn.
    destruct (Rlt_dec z 1) as [H|H].
    - rewrite (Rltb_true _ _ H). reflexivity.
    - rewrite (Rltb_false z 1) by lra. rewrite Rltb_true by lra. reflexivity. }
  revert x. induction l as [|z l IH]; intros x; cbn [fold_left].
  - split; [left; reflexivity|]. intros y [<-|[]]. lra.
  - rewrite !Hn. destruct (Rlt_dec x z) as [Hlt|Hge].
    + rewrite (Rltb_true x z Hlt).
      destruct (IH z) as [Hin Hmax]. split.
      * right. exact Hin.
      * intros y [<-|Hy]; [|apply Hmax; exact Hy].
        apply Rle_trans with z; [lra|]. apply Hmax. left. reflexivity.
    + rewrite (Rltb_false x z) by lra.
      destruct (IH x) as [Hin Hmax]. split.
      * destruct Hin as [<-|Hin]; [left; reflexivity | right; right; exact Hin].
      * intros y [<-|[<-|Hy]].
        -- apply Hmax. left. reflexivity.
        -- apply Rle_trans with x; [lra|]. apply Hmax. left. reflexivity.
        -- apply Hmax. right. exact Hy.
Qed.

Lemma ndarray_max_exact (a : list (list R)) (m : R) :
  Srhd2d.ndarray_max a = Returned m ->
  In m (concat a) /\ forall y, In y (concat a) -> (y <= m)%R.
Proof.
  unfold Srhd2d.ndarray_max. destruct (concat a) as [|x l]; [discriminate|].
  intros H. injection H as <-. apply fold_max_exact.
Qed.

Section PatchMaximum.
Context {F : Type} {AR : Arith F} {cell faces_t : Type}.
Import Srhd2d.
Local Abbreviation Patch := (@Srhd2d.Patch F cell faces_t).
Local Abbreviation Solver := (@Srhd2d.Solver F cell faces_t).
Variable lib : @Library F cell faces_t.

(** C9, as amended. [Solver.maximum_wavespeed()] returns the constant 1.0
    (the speed of light, a bound on every wavespeed) whatever the patches
    hold: it takes no maximum over them. [Patch.maximum_wavespeed] does
    what the specification says of it: when it returns [m], the recovery
    kernel has returned and the primitive buffer is the one it wrote from
    the current conserved buffer, the wavespeed buffer is the one the
    wavespeed kernel wrote from those primitives, and [m] is what
    [ndarray.max()] gives on that buffer: one of its entries, a NaN
    exactly when the buffer holds a NaN, and in exact arithmetic an entry
    that bounds every entry. *)
Theorem maximum_wavespeed_is_constant (s : Solver) :
  maximum_wavespeed s = fofZ 1 /\
  (forall (p p' : Patch) (m : F),
     Patch_maximum_wavespeed lib p = Returned (m, p') ->
     srhd_2d_conserved_to_primitive lib (patch_faces p) (conserved1 p)
       (primitive1 p) (patch_polar_extent p) (scale_factor p)
       = Returned (primitive1 p') /\
     wavespeeds p' =
       srhd_2d_max_wavespeeds lib (patch_faces p) (primitive1 p')
         (wavespeeds p) (scale_factor_derivative p) /\
     ndarray_max (wavespeeds p') = Returned m /\
     In m (concat (wavespeeds p')) /\
     is_nan m = existsb is_nan (concat (wavespeeds p'))) /\
  (forall (a : list (list R)) (m : R),
     ndarray_max a = Returned m ->
     In m (concat a) /\ forall y, In y (concat a) -> (y <= m)%R).
Proof.
  split; [reflexivity|]. split; [|exact ndarray_max_exact].
  intros p p' m H. unfold Patch_maximum_wavespeed, recompute_primitive in H.
  destruct (srhd_2d_conserved_to_primitive _ _ _ _ _ _) as [a|] eqn:Ek;
    cbn [bind] in H; [|discriminate H].
  destruct (ndarray_max _) as [m'|] eqn:E; cbn [bind] in H; [|discriminate H].
  injection H as <- <-. cbn in E |- *.
  split; [reflexivity|]. split; [reflexivity|]. split; [exact E|].
  unfold ndarray_max in E.
  destruct (concat _) as [|x l]; [discriminate E|].
  injection E as <-. split.
  - apply fold_max_In.
  - apply fold_max_is_nan.
Qed.

End PatchMaximum.

Section MaximumWavespeedOnDoubles.
Import Srhd2d Examples.

(** C9, counterexample. For a gas at rest the maximum over the patches of
    [Patch.maximum_wavespeed] is the sound speed, about 0.69, and
    [Solver.maximum_wavespeed()] returns 1.0 all the same. *)
Lemma maximum_wavespeed_is_not_the_patch_maximum :
  exists x,
    patchwise_maximum_wavespeed wavespeed_library s_gas = Returned x /\
    PrimFloat.ltb x 0.7 = true /\
    maximum_wavespeed s_gas = 1%float /\
    Returned (maximum_wavespeed s_gas) <>
    patchwise_maximum_wavespeed wavespeed_library s_gas.
Proof.
  eexists. split; [vm_compute; reflexivity|].
  split; [vm_compute; reflexivity|]. split; [reflexivity|].
  intros H.
  apply (f_equal (fun r => match r with
                           | Returned y => PrimFloat.ltb y 0.7
                           | Aborted => false
                           end)) in H.
  vm_compute in H. discriminate H.
Qed.

End MaximumWavespeedOnDoubles.

(* ================================================================== *)
(** ** Construction of the solver *)

Section Construction.
Context {F : Type} {AR : Arith F} {cell faces_t : Type}.
Import Srhd2d.
Local Abbreviation Patch := (@Srhd2d.Patch F cell faces_t).
Local Abbreviation Solver := (@Srhd2d.Solver F cell faces_t).
Variable zero_cell : cell.
Variable lib : @Library F cell faces_t.





End Construction.

Section ConstructionOnExamples.
Import Srhd2d Examples.



End ConstructionOnExamples.

(* ================================================================== *)
(** ** More on the kernels in exact arithmetic *)

Section ExactKernelsMore.
Local Open Scope R_scope.

(** The sound speed squared of a gamma-law gas stays below
    [GAMMA_LAW_INDEX - 1], its ultra-relativistic limit. *)
Theorem sound_speed_squared_below_limit (NPRIM : nprim) (G : R) (p : list R) :
  1 < G ->
  0 < LibSrhd.rd p LibSrhd.DEN ->
  0 < LibSrhd.rd p (LibSrhd.PRE NPRIM) ->
  0 < LibSrhd.sound_speed_squared NPRIM G p < G - 1.
Proof.
  intros HG Hrho Hpre.
  unfold LibSrhd.sound_speed_squared, LibSrhd.gamma_factor. cbn.
  set (rho := LibSrhd.rd p LibSrhd.DEN) in *.
  set (pre := LibSrhd.rd p (LibSrhd.PRE NPRIM)) in *.
  remember (1 + 1 / (G - 1)) as gf eqn:Hgf.
  assert (Hgf1 : gf * (G - 1) = G) by (subst gf; field; lra).
  assert (Hgf0 : 0 < gf).
  { subst gf. assert (0 < 1 / (G - 1)); [|lra]. apply Rdiv_lt_0_compat; lra. }
  remember (rho + pre * gf) as D eqn:HD.
  assert (HD0 : 0 < D) by (subst D; nra).
  assert (Ha : pre / D * G * D = pre * G) by (field; lra).
  split.
  - apply Rmult_lt_0_compat; [apply Rdiv_lt_0_compat|]; lra.
  - apply Rmult_lt_reg_r with D; [exact HD0|]. rewrite Ha. subst D. nra.
Qed.

Lemma sound_speed_squared_below_limit_witness :
  0 < LibSrhd.sound_speed_squared NPRIM3 (5 / 3) [1; 2; 1 / 100] < 5 / 3 - 1.
Proof.
  apply (sound_speed_squared_below_limit NPRIM3 (5 / 3) [1; 2; 1 / 100]);
    cbn; lra.
Defined.

(** The algebra behind the conserved state of a physical gas: [w] is the
    Lorentz factor, [uu] the squared four-velocity. *)
Lemma conserved_state_algebra (G rho pre uu w : R) :
  1 < G <= 2 -> 0 < rho -> 0 < pre -> 0 <= uu -> 0 < w -> w * w = 1 + uu ->
  let h := 1 + pre / rho * (1 + 1 / (G - 1)) in
  let m := rho * w in
  let tau := m * (h * w - 1) - pre in
  0 < m /\ 0 < tau /\ m * h * (m * h) * uu + m * m < (tau + m) * (tau + m).
Proof.
  intros HG Hrho Hpre Hu Hw Hww h m tau.
  remember (1 + 1 / (G - 1)) as k eqn:Hk.
  assert (Hk2 : 2 <= k).
  { subst k. assert (1 <= 1 / (G - 1)); [|lra].
    apply Rdiv_lower; lra. }
  remember (pre / rho) as x eqn:Hx.
  assert (Hxr : pre = x * rho) by (subst x; field; lra).
  assert (Hx0 : 0 < x) by (subst x; apply Rdiv_lt_0_compat; lra).
  assert (Hw1 : 1 <= w).
  { destruct (Rle_dec 1 w) as [|Hn]; [assumption|]. nra. }
  assert (Hm : 0 < m) by (unfold m; apply Rmult_lt_0_compat; lra).
  assert (Hh : h = 1 + x * k) by reflexivity.
  assert (Hxk : 0 < x * k) by (apply Rmult_lt_0_compat; lra).
  assert (Htau : tau = rho * (w * (h * w - 1) - x)) by (unfold tau, m; rewrite Hxr; ring).
  assert (Hhw : h - 1 <= w * (h * w - 1)).
  { assert (h <= h * w) by nra. assert (0 <= h * w - 1) by nra. nra. }
  split; [exact Hm|]. split.
  - rewrite Htau. apply Rmult_lt_0_compat; [lra|]. nra.
  - assert (Hid : (tau + m) * (tau + m) - (m * h * (m * h) * uu + m * m) =
                  rho * rho * (w * w * (2 * x * (k - 1) + x * x * k * (k - 2)) + x * x)).
    { replace uu with (w * w - 1) by lra. rewrite Htau, Hh. unfold m. ring. }
    assert (Hpos : 0 < rho * rho * (w * w * (2 * x * (k - 1) + x * x * k * (k - 2)) + x * x)).
    { apply Rmult_lt_0_compat; [nra|].
      assert (0 <= 2 * x * (k - 1) + x * x * k * (k - 2)).
      { assert (0 <= x * x * k * (k - 2)).
        { apply Rmult_le_pos; [|lra]. apply Rmult_le_pos; [nra | lra]. }
        nra. }
      assert (0 <= w * w * (2 * x * (k - 1) + x * x * k * (k - 2)))
        by (apply Rmult_le_pos; [nra | assumption]).
      nra. }
    lra.
Qed.

(** For a causal gamma-law gas (adiabatic index in (1, 2]), [prim_to_cons]
    sends a state of positive density and pressure to an admissible
    conserved state: positive mass density [D], positive energy [tau],
    and a total energy [tau + D] above [sqrt(S^2 + D^2)]. *)
Theorem prim_to_cons_admissible (NPRIM : nprim) (G : R) (p : list R) :
  1 < G <= 2 ->
  0 < LibSrhd.rd p LibSrhd.RHO ->
  0 < LibSrhd.rd p (LibSrhd.PRE NPRIM) ->
  let u := LibSrhd.prim_to_cons NPRIM G p in
  let D := LibSrhd.rd u LibSrhd.DEN in
  let tau := LibSrhd.rd u (LibSrhd.NRG NPRIM) in
  0 < D /\ 0 < tau /\
  LibSrhd.momentum_squared NPRIM u + D * D < (tau + D) * (tau + D).
Proof.
  intros HG Hrho Hpre.
  unfold LibSrhd.prim_to_cons, LibSrhd.momentum_squared, LibSrhd.gamma_factor.
  unfold LibSrhd.DEN, LibSrhd.RHO, LibSrhd.UXX, LibSrhd.UYY, LibSrhd.UZZ,
    LibSrhd.SXX, LibSrhd.SYY, LibSrhd.SZZ in *.
  destruct NPRIM; cbn in *.
  - set (rho := LibSrhd.rd p 0) in *. set (gx := LibSrhd.rd p 1).
    set (pre := LibSrhd.rd p 2) in *.
    assert (Hu : 0 <= gx * gx) by nra.
    pose proof (conserved_state_algebra G rho pre (gx * gx) (sqrt (1 + gx * gx))
                  HG Hrho Hpre Hu ltac:(apply sqrt_lt_R0; lra)
                  ltac:(apply sqrt_sqrt; lra)) as (H1 & H2 & H3).
    cbn zeta in H1, H2, H3. repeat split; try assumption.
    eapply Rle_lt_trans; [|exact H3]. right. ring.
  - set (rho := LibSrhd.rd p 0) in *. set (gx := LibSrhd.rd p 1).
    set (gy := LibSrhd.rd p 2). set (pre := LibSrhd.rd p 3) in *.
    assert (Hu : 0 <= gx * gx + gy * gy) by nra.
    replace (1 + gx * gx + gy * gy) with (1 + (gx * gx + gy * gy)) by ring.
    pose proof (conserved_state_algebra G rho pre (gx * gx + gy * gy)
                  (sqrt (1 + (gx * gx + gy * gy)))
                  HG Hrho Hpre Hu ltac:(apply sqrt_lt_R0; lra)
                  ltac:(apply sqrt_sqrt; lra)) as (H1 & H2 & H3).
    cbn zeta in H1, H2, H3. repeat split; try assumption.
    eapply Rle_lt_trans; [|exact H3]. right. ring.
  - set (rho := LibSrhd.rd p 0) in *. set (gx := LibSrhd.rd p 1).
    set (gy := LibSrhd.rd p 2). set (gz := LibSrhd.rd p 3).
    set (pre := LibSrhd.rd p 4) in *.
    assert (Hu : 0 <= gx * gx + gy * gy + gz * gz) by nra.
    replace (1 + gx * gx + gy * gy + gz * gz)
      with (1 + (gx * gx + gy * gy + gz * gz)) by ring.
    pose proof (conserved_state_algebra G rho pre (gx * gx + gy * gy + gz * gz)
                  (sqrt (1 + (gx * gx + gy * gy + gz * gz)))
                  HG Hrho Hpre Hu ltac:(apply sqrt_lt_R0; lra)
                  ltac:(apply sqrt_sqrt; lra)) as (H1 & H2 & H3).
    cbn zeta in H1, H2, H3. repeat split; try assumption.
    eapply Rle_lt_trans; [|exact H3]. right. ring.
Qed.

Lemma prim_to_cons_admissible_witness :
  let u := LibSrhd.prim_to_cons NPRIM3 (5 / 3) [1; 2; 1 / 100] in
  let D := LibSrhd.rd u LibSrhd.DEN in
  let tau := LibSrhd.rd u (LibSrhd.NRG NPRIM3) in
  0 < D /\ 0 < tau /\
  LibSrhd.momentum_squared NPRIM3 u + D * D < (tau + D) * (tau + D).
Proof.
  apply (prim_to_cons_admissible NPRIM3 (5 / 3) [1; 2; 1 / 100]);
    cbn; lra.
Defined.

End ExactKernelsMore.

(* ================================================================== *)
(** ** The signal speeds of a gas at rest and of a mirrored state *)

Section SignalSpeeds.
Local Open Scope R_scope.

Ltac pair_eq :=
  repeat match goal with |- (_, _) = (_, _) => apply f_equal2 end.

Lemma normal_velocity_reversed (gbx gby gbz w : R) (direction : Z) :
  LibSrhd.normal_velocity (0 - gbx) (0 - gby) (0 - gbz) w direction =
  - LibSrhd.normal_velocity gbx gby gbz w direction.
Proof.
  unfold LibSrhd.normal_velocity.
  destruct direction as [|[[|[]|]|[|[]|]|]|]; cbn; unfold Rdiv; ring.
Qed.

Lemma four_velocity_reversed (NPRIM : nprim) (p : list R) :
  let '(gbx, gby, gbz, uu) := LibSrhd.four_velocity NPRIM p in
  LibSrhd.four_velocity NPRIM (reverse_velocity NPRIM p) =
  (0 - gbx, 0 - gby, 0 - gbz, uu).
Proof.
  unfold LibSrhd.four_velocity, reverse_velocity.
  destruct NPRIM; cbn; pair_eq; ring.
Qed.

Lemma sound_speed_squared_reversed (NPRIM : nprim) (G : R) (p : list R) :
  LibSrhd.sound_speed_squared NPRIM G (reverse_velocity NPRIM p) =
  LibSrhd.sound_speed_squared NPRIM G p.
Proof. destruct NPRIM; reflexivity. Qed.

(** A gas at rest sends its two outer waves at the sound speed, one each
    way, in every direction. *)
Theorem outer_wavespeeds_at_rest
    (NPRIM : nprim) (G : R) (p : list R) (direction : Z) :
  at_rest NPRIM p ->
  let cs := sqrt (LibSrhd.sound_speed_squared NPRIM G p) in
  LibSrhd.outer_wavespeeds NPRIM G p direction = (- cs, cs).
Proof.
  intros Hrest cs. unfold cs. clear cs.
  unfold LibSrhd.outer_wavespeeds.
  set (a2 := LibSrhd.sound_speed_squared NPRIM G p). clearbody a2.
  assert (H4 : exists w, LibSrhd.four_velocity NPRIM p = (0, 0, 0, 0) /\ w = 0).
  { exists 0. split; [|reflexivity].
    unfold LibSrhd.four_velocity, at_rest in *.
    destruct NPRIM; cbn in *.
    - rewrite Hrest. pair_eq; ring.
    - destruct Hrest as [-> ->]. pair_eq; ring.
    - destruct Hrest as (-> & -> & ->). pair_eq; ring. }
  destruct H4 as (_ & -> & _).
  assert (Hvn : LibSrhd.normal_velocity 0 0 0 (fsqrt (lit1 + 0)%A) direction = 0).
  { unfold LibSrhd.normal_velocity.
    destruct direction as [|[[|[]|]|[|[]|]|]|]; cbn; unfold Rdiv; ring. }
  rewrite Hvn. cbn.
  replace (0 / (1 + 0)) with 0 by (unfold Rdiv; ring).
  replace (a2 * (1 - 0) * (1 - 0 * a2 - 0 * 0 * (1 - a2))) with a2 by ring.
  pair_eq; field.
Qed.

Lemma outer_wavespeeds_at_rest_witness :
  let p := [1; 0; 1 / 100] in
  LibSrhd.outer_wavespeeds NPRIM3 (5 / 3) p 1 =
  (- sqrt (LibSrhd.sound_speed_squared NPRIM3 (5 / 3) p),
   sqrt (LibSrhd.sound_speed_squared NPRIM3 (5 / 3) p)).
Proof.
  apply (outer_wavespeeds_at_rest NPRIM3 (5 / 3) [1; 0; 1 / 100] 1).
  reflexivity.
Defined.

(** Mirror symmetry: reversing the velocity of a state swaps its two outer
    wavespeeds and flips their signs, in every direction. *)
Theorem outer_wavespeeds_mirror
    (NPRIM : nprim) (G : R) (p : list R) (direction : Z) :
  let a := LibSrhd.outer_wavespeeds NPRIM G p direction in
  LibSrhd.outer_wavespeeds NPRIM G (reverse_velocity NPRIM p) direction =
  (- snd a, - fst a).
Proof.
  cbv zeta.
  pose proof (four_velocity_reversed NPRIM p) as H4.
  unfold LibSrhd.outer_wavespeeds.
  rewrite sound_speed_squared_reversed.
  destruct (LibSrhd.four_velocity NPRIM p) as [[[gbx gby] gbz] uu].
  rewrite H4. cbn [fst snd].
  rewrite normal_velocity_reversed.
  set (a2 := LibSrhd.sound_speed_squared NPRIM G p). clearbody a2.
  set (vn := LibSrhd.normal_velocity gbx gby gbz (fsqrt (lit1 + uu)%A) direction).
  clearbody vn. cbn.
  replace (- vn * - vn) with (vn * vn) by ring.
  pair_eq; unfold Rdiv; ring.
Qed.

End SignalSpeeds.

(* ================================================================== *)
(** ** The largest signal speed and the upwind limit of the HLLE flux *)

Section Upwind.
Local Open Scope R_scope.

Lemma max2_exact (a b : R) :
  a <= LibSrhd.max2 a b /\ b <= LibSrhd.max2 a b /\
  (LibSrhd.max2 a b = a \/ LibSrhd.max2 a b = b).
Proof.
  unfold LibSrhd.max2. cbn. unfold Rltb.
  destruct (Rlt_dec b a); (split; [lra|]); (split; [lra|]); auto.
Qed.

Lemma min2_exact (a b : R) :
  LibSrhd.min2 a b <= a /\ LibSrhd.min2 a b <= b /\
  (LibSrhd.min2 a b = a \/ LibSrhd.min2 a b = b).
Proof.
  unfold LibSrhd.min2. cbn. unfold Rltb.
  destruct (Rlt_dec a b); (split; [lra|]); (split; [lra|]); auto.
Qed.

Lemma max3_exact (a b c : R) :
  a <= LibSrhd.max3 a b c /\ b <= LibSrhd.max3 a b c /\ c <= LibSrhd.max3 a b c /\
  (LibSrhd.max3 a b c = a \/ LibSrhd.max3 a b c = b \/ LibSrhd.max3 a b c = c).
Proof.
  unfold LibSrhd.max3.
  destruct (max2_exact b c) as (H1 & H2 & H3).
  destruct (max2_exact a (LibSrhd.max2 b c)) as (H4 & H5 & H6).
  split; [lra|]. split; [lra|]. split; [lra|].
  destruct H6 as [-> | ->]; [auto|]. destruct H3 as [-> | ->]; auto.
Qed.

Lemma min3_exact (a b c : R) :
  LibSrhd.min3 a b c <= a /\ LibSrhd.min3 a b c <= b /\ LibSrhd.min3 a b c <= c /\
  (LibSrhd.min3 a b c = a \/ LibSrhd.min3 a b c = b \/ LibSrhd.min3 a b c = c).
Proof.
  unfold LibSrhd.min3.
  destruct (min2_exact b c) as (H1 & H2 & H3).
  destruct (min2_exact a (LibSrhd.min2 b c)) as (H4 & H5 & H6).
  split; [lra|]. split; [lra|]. split; [lra|].
  destruct H6 as [-> | ->]; [auto|]. destruct H3 as [-> | ->]; auto.
Qed.

(** The span [max2(fabs(am), fabs(ap))] of a pair of wavespeeds. *)
Lemma span_exact (am ap : R) :
  -1 <= am -> am < ap -> ap <= 1 ->
  0 < LibSrhd.max2 (ffabs am) (ffabs ap) <= 1.
Proof.
  intros H1 H2 H3. cbn.
  destruct (max2_exact (Rabs am) (Rabs ap)) as (Ha & Hb & Hc).
  assert (Rabs am <= 1) by (apply Rabs_le; lra).
  assert (Rabs ap <= 1) by (apply Rabs_le; lra).
  assert (0 < Rabs am \/ 0 < Rabs ap).
  { destruct (Req_dec am 0) as [E|E].
    - right. apply Rabs_pos_lt. lra.
    - left. apply Rabs_pos_lt. exact E. }
  split; [|destruct Hc as [-> | ->]; assumption].
  lra.
Qed.

(** For a causal gamma-law gas of positive density and pressure,
    [max_wavespeed] lies in (0, 1]: some signal always moves, and none
    moves faster than light. *)
Theorem max_wavespeed_subluminal (NPRIM : nprim) (G : R) (p : list R) :
  1 < G <= 2 ->
  0 < LibSrhd.rd p LibSrhd.RHO ->
  0 < LibSrhd.rd p (LibSrhd.PRE NPRIM) ->
  0 < LibSrhd.max_wavespeed NPRIM G p <= 1.
Proof.
  intros HG Hrho Hpre.
  assert (Hs : forall d,
    0 < LibSrhd.max2 (ffabs (fst (LibSrhd.outer_wavespeeds NPRIM G p d)))
                     (ffabs (snd (LibSrhd.outer_wavespeeds NPRIM G p d))) <= 1).
  { intros d.
    destruct (outer_wavespeeds_roots NPRIM G p d HG Hrho Hpre) as (H1 & H2 & H3).
    apply span_exact; assumption. }
  unfold LibSrhd.max_wavespeed.
  destruct NPRIM.
  - apply Hs.
  - pose proof (Hs 1%Z) as H1. pose proof (Hs 2%Z) as H2.
    match goal with |- 0 < LibSrhd.max2 ?a ?b <= 1 =>
      destruct (max2_exact a b) as (Ha & Hb & [-> | ->]) end; assumption.
  - pose proof (Hs 1%Z) as H1. pose proof (Hs 2%Z) as H2. pose proof (Hs 3%Z) as H3.
    match goal with |- 0 < LibSrhd.max3 ?a ?b ?c <= 1 =>
      destruct (max3_exact a b c) as (Ha & Hb & Hc & [-> | [-> | ->]]) end;
      assumption.
Qed.

Lemma max_wavespeed_subluminal_witness :
  0 < LibSrhd.max_wavespeed NPRIM4 (5 / 3) [1; 2; 3; 1 / 100] <= 1.
Proof.
  apply (max_wavespeed_subluminal NPRIM4 (5 / 3) [1; 2; 3; 1 / 100]);
    cbn; lra.
Defined.

(** [max_wavespeed] bounds the magnitude of both outer wavespeeds in each
    direction the build has ([1 .. NVECS]), whatever the state. *)
Theorem max_wavespeed_dominates
    (NPRIM : nprim) (G : R) (p : list R) (direction : Z) :
  (1 <= direction <= Z.of_nat (LibSrhd.NVECS NPRIM))%Z ->
  let a := LibSrhd.outer_wavespeeds NPRIM G p direction in
  Rabs (fst a) <= LibSrhd.max_wavespeed NPRIM G p /\
  Rabs (snd a) <= LibSrhd.max_wavespeed NPRIM G p.
Proof.
  intros Hd a. unfold a. clear a.
  unfold LibSrhd.max_wavespeed.
  destruct NPRIM; cbn [LibSrhd.NVECS] in Hd.
  - assert (direction = 1%Z) as -> by lia.
    match goal with |- _ <= LibSrhd.max2 ?x ?y /\ _ =>
      destruct (max2_exact x y) as (Hx & Hy & _) end.
    split; assumption.
  - match goal with |- _ <= LibSrhd.max2 (LibSrhd.max2 ?x ?y) (LibSrhd.max2 ?z ?t) /\ _ =>
      destruct (max2_exact x y) as (Hx & Hy & _);
      destruct (max2_exact z t) as (Hz & Ht & _);
      destruct (max2_exact (LibSrhd.max2 x y) (LibSrhd.max2 z t)) as (H1 & H2 & _) end.
    assert (direction = 1 \/ direction = 2)%Z as [-> | ->] by lia;
      cbn [ffabs exact] in *; split; lra.
  - match goal with
    |- _ <= LibSrhd.max3 (LibSrhd.max2 ?x ?y) (LibSrhd.max2 ?z ?t) (LibSrhd.max2 ?r ?s) /\ _ =>
      destruct (max2_exact x y) as (Hx & Hy & _);
      destruct (max2_exact z t) as (Hz & Ht & _);
      destruct (max2_exact r s) as (Hr & Hs & _);
      destruct (max3_exact (LibSrhd.max2 x y) (LibSrhd.max2 z t) (LibSrhd.max2 r s))
        as (H1 & H2 & H3 & _) end.
    assert (direction = 1 \/ direction = 2 \/ direction = 3)%Z as [-> | [-> | ->]] by lia;
      cbn [ffabs exact] in *; split; lra.
Qed.

Lemma max_wavespeed_dominates_witness :
  let p := [1; 2; 3; 1 / 100] in
  let a := LibSrhd.outer_wavespeeds NPRIM4 (5 / 3) p 2 in
  Rabs (fst a) <= LibSrhd.max_wavespeed NPRIM4 (5 / 3) p /\
  Rabs (snd a) <= LibSrhd.max_wavespeed NPRIM4 (5 / 3) p.
Proof.
  apply (max_wavespeed_dominates NPRIM4 (5 / 3) [1; 2; 3; 1 / 100] 2).
  cbn. lia.
Defined.

Lemma length_prim_to_cons (NPRIM : nprim) (G : R) (p : list R) :
  length (LibSrhd.prim_to_cons NPRIM G p) = LibSrhd.NCONS NPRIM.
Proof. destruct NPRIM; reflexivity. Qed.

Lemma length_prim_and_cons_to_flux (NPRIM : nprim) (p u : list R) (direction : Z) :
  length (LibSrhd.prim_and_cons_to_flux NPRIM p u direction) = LibSrhd.NCONS NPRIM.
Proof.
  unfold LibSrhd.prim_and_cons_to_flux.
  destruct (LibSrhd.four_velocity NPRIM p) as [[[gbx gby] gbz] uu].
  destruct NPRIM; reflexivity.
Qed.

Lemma map4_first (g : R -> R -> R -> R -> R) :
  (forall x y z t, g x y z t = x) ->
  forall a b c d,
    length a = length b -> length a = length c -> length a = length d ->
    LibSrhd.map4 g a b c d = a.
Proof.
  intros Hg. induction a as [|x a IH]; intros [|y b] [|z c] [|t d] Hb Hc Hd;
    try discriminate; [reflexivity|].
  cbn in *. rewrite Hg. f_equal. apply IH; congruence.
Qed.

Lemma map4_second (g : R -> R -> R -> R -> R) :
  (forall x y z t, g x y z t = y) ->
  forall a b c d,
    length a = length b -> length a = length c -> length a = length d ->
    LibSrhd.map4 g a b c d = b.
Proof.
  intros Hg. induction a as [|x a IH]; intros [|y b] [|z c] [|t d] Hb Hc Hd;
    try discriminate; [reflexivity|].
  cbn in *. rewrite Hg. f_equal. apply IH; congruence.
Qed.

(** Upwinding: when every wave of the two states moves to the right (both
    slowest wavespeeds are non-negative), the HLLE flux is the flux of the
    left state alone. *)
Theorem riemann_hlle_rightgoing
    (NPRIM : nprim) (G : R) (pl pr : list R) (direction : Z) :
  1 < G <= 2 ->
  0 < LibSrhd.rd pl LibSrhd.RHO ->
  0 < LibSrhd.rd pl (LibSrhd.PRE NPRIM) ->
  0 <= fst (LibSrhd.outer_wavespeeds NPRIM G pl direction) ->
  0 <= fst (LibSrhd.outer_wavespeeds NPRIM G pr direction) ->
  LibSrhd.riemann_hlle NPRIM G pl pr direction =
  LibSrhd.prim_and_cons_to_flux NPRIM pl (LibSrhd.prim_to_cons NPRIM G pl)
    direction.
Proof.
  intros HG Hrho Hpre Hl Hr.
  destruct (outer_wavespeeds_roots NPRIM G pl direction HG Hrho Hpre) as (_ & Hlt & _).
  unfold LibSrhd.riemann_hlle.
  set (al := LibSrhd.outer_wavespeeds NPRIM G pl direction) in *.
  set (ar := LibSrhd.outer_wavespeeds NPRIM G pr direction) in *.
  cbn [fofZ exact] in *.
  destruct (min3_exact 0 (fst al) (fst ar)) as (Hm0 & _ & _ & Hm).
  destruct (max3_exact 0 (snd al) (snd ar)) as (_ & Hp1 & _ & _).
  assert (Ham : LibSrhd.min3 0 (fst al) (fst ar) = 0)
    by (destruct Hm as [E | [E | E]]; lra).
  rewrite Ham.
  set (ap := LibSrhd.max3 0 (snd al) (snd ar)) in *.
  apply map4_first.
  - intros x y z t. unfold LibSrhd.hlle_component. cbn. field. lra.
  - rewrite !length_prim_and_cons_to_flux. reflexivity.
  - rewrite length_prim_and_cons_to_flux, length_prim_to_cons. reflexivity.
  - rewrite length_prim_and_cons_to_flux, length_prim_to_cons. reflexivity.
Qed.

(** Upwinding, the other way: when every wave of the two states moves to
    the left (both fastest wavespeeds are non-positive), the HLLE flux is
    the flux of the right state alone. *)
Theorem riemann_hlle_leftgoing
    (NPRIM : nprim) (G : R) (pl pr : list R) (direction : Z) :
  1 < G <= 2 ->
  0 < LibSrhd.rd pr LibSrhd.RHO ->
  0 < LibSrhd.rd pr (LibSrhd.PRE NPRIM) ->
  snd (LibSrhd.outer_wavespeeds NPRIM G pl direction) <= 0 ->
  snd (LibSrhd.outer_wavespeeds NPRIM G pr direction) <= 0 ->
  LibSrhd.riemann_hlle NPRIM G pl pr direction =
  LibSrhd.prim_and_cons_to_flux NPRIM pr (LibSrhd.prim_to_cons NPRIM G pr)
    direction.
Proof.
  intros HG Hrho Hpre Hl Hr.
  destruct (outer_wavespeeds_roots NPRIM G pr direction HG Hrho Hpre) as (_ & Hlt & _).
  unfold LibSrhd.riemann_hlle.
  set (al := LibSrhd.outer_wavespeeds NPRIM G pl direction) in *.
  set (ar := LibSrhd.outer_wavespeeds NPRIM G pr direction) in *.
  cbn [fofZ exact] in *.
  destruct (max3_exact 0 (snd al) (snd ar)) as (Hp0 & _ & _ & Hp).
  destruct (min3_exact 0 (fst al) (fst ar)) as (_ & _ & Hm1 & _).
  assert (Hap : LibSrhd.max3 0 (snd al) (snd ar) = 0)
    by (destruct Hp as [E | [E | E]]; lra).
  rewrite Hap.
  set (am := LibSrhd.min3 0 (fst al) (fst ar)) in *.
  apply map4_second.
  - intros x y z t. unfold LibSrhd.hlle_component. cbn. field. lra.
  - rewrite !length_prim_and_cons_to_flux. reflexivity.
  - rewrite length_prim_and_cons_to_flux, length_prim_to_cons. reflexivity.
  - rewrite length_prim_and_cons_to_flux, length_prim_to_cons. reflexivity.
Qed.

End Upwind.

(* ================================================================== *)
(** ** One-dimensional flow: the wavespeeds as relativistic velocity sums *)

Section Aligned.
Local Open Scope R_scope.

(** The root in [outer_wavespeeds] when the flow is along the direction:
    [vv] and [v2] are both the squared velocity [v * v]. *)
Lemma aligned_root (a2 cs v : R) :
  0 <= cs -> cs * cs = a2 -> v * v < 1 ->
  sqrt (a2 * (1 - v * v) * (1 - v * v * a2 - v * v * (1 - a2))) = (1 - v * v) * cs.
Proof.
  intros Hcs Ha Hv.
  replace (a2 * (1 - v * v) * (1 - v * v * a2 - v * v * (1 - a2)))
    with ((1 - v * v) * cs * ((1 - v * v) * cs)) by (rewrite <- Ha; ring).
  apply sqrt_square. apply Rmult_le_pos; lra.
Qed.

Lemma velocity_below_light (g : R) :
  let v := g / sqrt (1 + g * g) in
  v * v = g * g / (1 + g * g) /\ v * v < 1.
Proof.
  intros v. unfold v.
  assert (Hw : 0 < sqrt (1 + g * g)) by (apply sqrt_lt_R0; nra).
  assert (Hww : sqrt (1 + g * g) * sqrt (1 + g * g) = 1 + g * g)
    by (apply sqrt_sqrt; nra).
  assert (E : g / sqrt (1 + g * g) * (g / sqrt (1 + g * g)) = g * g / (1 + g * g)).
  { set (w := sqrt (1 + g * g)) in *. rewrite <- Hww. field. lra. }
  split; [exact E|]. rewrite E.
  apply Rmult_lt_reg_r with (1 + g * g); [nra|].
  replace (g * g / (1 + g * g) * (1 + g * g)) with (g * g) by (field; nra).
  lra.
Qed.

(** In the one-dimensional build the outer wavespeeds are the relativistic
    sums of the fluid velocity [v] and the sound speed [cs] taken each
    way: [(v - cs) / (1 - v cs)] and [(v + cs) / (1 + v cs)]. *)
Theorem outer_wavespeeds_velocity_addition (G : R) (p : list R) :
  1 < G <= 2 ->
  0 < LibSrhd.rd p LibSrhd.RHO ->
  0 < LibSrhd.rd p (LibSrhd.PRE NPRIM3) ->
  let v := LibSrhd.rd p LibSrhd.UXX /
           sqrt (1 + LibSrhd.rd p LibSrhd.UXX * LibSrhd.rd p LibSrhd.UXX) in
  let cs := sqrt (LibSrhd.sound_speed_squared NPRIM3 G p) in
  LibSrhd.outer_wavespeeds NPRIM3 G p 1 =
  ((v - cs) / (1 - v * cs), (v + cs) / (1 + v * cs)).
Proof.
  intros HG Hrho Hpre v cs.
  pose proof (sound_speed_squared_range NPRIM3 G p HG Hrho Hpre) as Ha2.
  destruct (velocity_below_light (LibSrhd.rd p LibSrhd.UXX)) as (Hvv & Hv1).
  fold v in Hvv, Hv1.
  unfold LibSrhd.outer_wavespeeds, LibSrhd.four_velocity, LibSrhd.normal_velocity.
  cbn -[LibSrhd.sound_speed_squared].
  fold v. rewrite <- Hvv.
  set (a2 := LibSrhd.sound_speed_squared NPRIM3 G p) in *.
  assert (Hcs0 : 0 < cs) by (apply sqrt_lt_R0; lra).
  assert (Hcc : cs * cs = a2) by (apply sqrt_sqrt; lra).
  assert (Hcs1 : cs < 1).
  { destruct (Rlt_dec cs 1) as [|Hn]; [assumption|]. nra. }
  rewrite (aligned_root a2 cs v) by lra.
  assert (Hv : -1 < v < 1) by (split; nra).
  assert (Hvc : -1 < v * cs < 1) by (split; nra).
  clearbody a2 v cs. subst a2.
  apply f_equal2; field; split; try lra.
  - replace (1 - v * v * (cs * cs)) with ((1 - v * cs) * (1 + v * cs)) by ring.
    apply Rmult_integral_contrapositive_currified; lra.
  - replace (1 - v * v * (cs * cs)) with ((1 - v * cs) * (1 + v * cs)) by ring.
    apply Rmult_integral_contrapositive_currified; lra.
Qed.

Lemma outer_wavespeeds_velocity_addition_witness :
  let p := [1; 2; 1 / 100] in
  let v := 2 / sqrt (1 + 2 * 2) in
  let cs := sqrt (LibSrhd.sound_speed_squared NPRIM3 (5 / 3) p) in
  LibSrhd.outer_wavespeeds NPRIM3 (5 / 3) p 1 =
  ((v - cs) / (1 - v * cs), (v + cs) / (1 + v * cs)).
Proof.
  apply (outer_wavespeeds_velocity_addition (5 / 3) [1; 2; 1 / 100]);
    cbn; lra.
Defined.

End Aligned.

Section UpwindOnExamples.
Local Open Scope R_scope.

Ltac sqrt_is q :=
  match goal with |- context [sqrt ?e] =>
    replace (sqrt e) with q
      by (symmetry; assert (E : e = q * q) by field;
          rewrite E; apply sqrt_square; lra) end.

(** Two supersonic states of a gas with adiabatic index 2: density 6,
    pressure 1 (sound speed 1/2), and four-velocity 3/4 or 4/3 (velocity
    3/5 or 4/5). *)
Lemma supersonic_wavespeeds :
  LibSrhd.outer_wavespeeds NPRIM3 2 [6; 3 / 4; 1] 1 = (1 / 7, 11 / 13) /\
  LibSrhd.outer_wavespeeds NPRIM3 2 [6; 4 / 3; 1] 1 = (1 / 2, 13 / 14).
Proof.
  split.
  - unfold LibSrhd.outer_wavespeeds, LibSrhd.sound_speed_squared, LibSrhd.gamma_factor.
    cbn.
    sqrt_is (5 / 4).
    sqrt_is (8 / 25).
    apply f_equal2; field.
  - unfold LibSrhd.outer_wavespeeds, LibSrhd.sound_speed_squared, LibSrhd.gamma_factor.
    cbn.
    sqrt_is (5 / 3).
    sqrt_is (9 / 50).
    apply f_equal2; field.
Qed.

Lemma supersonic_wavespeeds_reversed :
  LibSrhd.outer_wavespeeds NPRIM3 2 [6; - (3 / 4); 1] 1 = (- (11 / 13), - (1 / 7)) /\
  LibSrhd.outer_wavespeeds NPRIM3 2 [6; - (4 / 3); 1] 1 = (- (13 / 14), - (1 / 2)).
Proof.
  split.
  - unfold LibSrhd.outer_wavespeeds, LibSrhd.sound_speed_squared, LibSrhd.gamma_factor.
    cbn.
    sqrt_is (5 / 4).
    sqrt_is (8 / 25).
    apply f_equal2; field.
  - unfold LibSrhd.outer_wavespeeds, LibSrhd.sound_speed_squared, LibSrhd.gamma_factor.
    cbn.
    sqrt_is (5 / 3).
    sqrt_is (9 / 50).
    apply f_equal2; field.
Qed.

Lemma riemann_hlle_rightgoing_witness :
  LibSrhd.riemann_hlle NPRIM3 2 [6; 3 / 4; 1] [6; 4 / 3; 1] 1 =
  LibSrhd.prim_and_cons_to_flux NPRIM3 [6; 3 / 4; 1]
    (LibSrhd.prim_to_cons NPRIM3 2 [6; 3 / 4; 1]) 1.
Proof.
  destruct supersonic_wavespeeds as (Hl & Hr).
  apply (riemann_hlle_rightgoing NPRIM3 2 [6; 3 / 4; 1] [6; 4 / 3; 1] 1).
  - lra.
  - cbn; lra.
  - cbn; lra.
  - rewrite Hl. cbn [fst]. lra.
  - rewrite Hr. cbn [fst]. lra.
Defined.

Lemma riemann_hlle_leftgoing_witness :
  LibSrhd.riemann_hlle NPRIM3 2 [6; - (3 / 4); 1] [6; - (4 / 3); 1] 1 =
  LibSrhd.prim_and_cons_to_flux NPRIM3 [6; - (4 / 3); 1]
    (LibSrhd.prim_to_cons NPRIM3 2 [6; - (4 / 3); 1]) 1.
Proof.
  destruct supersonic_wavespeeds_reversed as (Hl & Hr).
  apply (riemann_hlle_leftgoing NPRIM3 2 [6; - (3 / 4); 1] [6; - (4 / 3); 1] 1).
  - lra.
  - cbn; lra.
  - cbn; lra.
  - rewrite Hl. cbn [snd]. lra.
  - rewrite Hr. cbn [snd]. lra.
Defined.

End UpwindOnExamples.

(* ================================================================== *)
(** ** What the recovery returns *)

Section Recovered.
Local Open Scope R_scope.

Lemma momentum_squared_nonneg (NPRIM : nprim) (u : list R) :
  0 <= LibSrhd.momentum_squared NPRIM u.
Proof. unfold LibSrhd.momentum_squared. destruct NPRIM; cbn; nra. Qed.

(** With a non-negative squared momentum, [b2] is non-negative and the
    Lorentz factor of a pass is at least 1. *)
Lemma pass_lorentz_factor_lower (G m tau ss pre : R) :
  0 <= ss -> 1 <= LibSrhd.pass_w (LibSrhd.newton_pass G m tau ss pre).
Proof.
  intros Hss. unfold LibSrhd.newton_pass, LibSrhd.min2. cbn.
  set (et := tau + pre + m).
  assert (Hx : 0 <= ss / et / et).
  { unfold Rdiv. rewrite Rmult_assoc. apply Rmult_le_pos; [exact Hss|].
    destruct (Rle_dec 0 (/ et)); nra. }
  set (x := ss / et / et) in *.
  set (b2 := if Rltb x (1 - 1 / 10000000000) then x else 1 - 1 / 10000000000).
  assert (Hb2 : 0 <= b2 <= 1 - 1 / 10000000000).
  { unfold b2, Rltb. destruct (Rlt_dec x (1 - 1 / 10000000000)); lra. }
  assert (Hle : 1 <= 1 / (1 - b2)) by (apply Rdiv_lower; lra).
  rewrite <- sqrt_1 at 1. apply sqrt_le_1; lra.
Qed.

Lemma newton_loop_lorentz_factor_lower (G m tau ss : R) (fuel : nat) :
  0 <= ss ->
  forall pre iteration w0 pre',
    LibSrhd.newton_loop G fuel m tau ss pre iteration = Some (Returned (w0, pre')) ->
    1 <= w0.
Proof.
  intros Hss.
  induction fuel as [|fuel IH]; intros pre iteration w0 pre' H.
  - discriminate H.
  - cbn [LibSrhd.newton_loop] in H.
    destruct (fltb _ _).
    + replace w0 with (LibSrhd.pass_w (LibSrhd.newton_pass G m tau ss pre))
        by congruence.
      apply pass_lorentz_factor_lower. exact Hss.
    + destruct (Nat.eqb _ _); [discriminate H|].
      apply IH in H. exact H.
Qed.

(** Whenever [cons_to_prim] returns on a state of non-negative mass
    density [D], the density it writes is [D] over a Lorentz factor
    between 1 and [1e5]: it lies between [D / 1e5] and [D]. *)
Theorem cons_to_prim_density_bounds
    (NPRIM : nprim) (G : R) (u p q : list R) :
  0 <= LibSrhd.rd u LibSrhd.DEN ->
  LibSrhd.cons_to_prim NPRIM G u p = Returned q ->
  LibSrhd.rd u LibSrhd.DEN / 100000 <= LibSrhd.rd q LibSrhd.RHO
  <= LibSrhd.rd u LibSrhd.DEN.
Proof.
  intros HD H. unfold LibSrhd.cons_to_prim in H.
  destruct (LibSrhd.newton_loop _ _ _ _ _ _ _) as [[[w0 pre]|]|] eqn:E;
    try discriminate H.
  pose proof (newton_loop_lorentz_factor_bound _ _ _ _ _ _ _ _ _ E) as (_ & Hhi).
  pose proof (newton_loop_lorentz_factor_lower _ _ _ _ _
                (momentum_squared_nonneg NPRIM u) _ _ _ _ E) as Hlo.
  assert (Hq : LibSrhd.rd q LibSrhd.RHO = LibSrhd.rd u LibSrhd.DEN / w0).
  { replace q with (LibSrhd.write_prim NPRIM u w0 pre) by congruence.
    unfold LibSrhd.write_prim. destruct NPRIM; reflexivity. }
  rewrite Hq. set (D := LibSrhd.rd u LibSrhd.DEN) in *.
  split.
  - apply Rdiv_lower; [lra|].
    replace (D / 100000 * w0) with (D * (w0 / 100000)) by field.
    assert (w0 / 100000 <= 1) by (apply Rdiv_upper; lra). nra.
  - apply Rdiv_upper; [lra|]. nra.
Qed.

(** The conserved form of (density 1, four-velocity 2, pressure 1/100)
    comes back from [cons_to_prim] when the first guess is its pressure. *)
Lemma recovered_sample :
  let p := [1; 2; 1 / 100] in
  LibSrhd.cons_to_prim NPRIM3 (5 / 3) (LibSrhd.prim_to_cons NPRIM3 (5 / 3) p) p
  = Returned p.
Proof.
  cbv zeta.
  set (w := sqrt (1 + 2 * 2)).
  assert (HG : 1 < 5 / 3) by lra.
  assert (Hrho : 0 < 1) by lra.
  assert (Hpre : 0 < 1 / 100) by lra.
  assert (Hu : 0 <= 2 * 2) by lra.
  assert (Hclamp : 2 * 2 < 1e10 - 1) by lra.
  assert (Hw : 0 < w) by (apply sqrt_lt_R0; lra).
  assert (Hww : w * w = 1 + 2 * 2) by (apply sqrt_sqrt; lra).
  destruct (newton_pass_at_state (5 / 3) 1 (1 / 100) (2 * 2) w _
              HG Hrho Hpre Hu Hclamp Hw Hww eq_refl) as (Hh & _).
  unfold LibSrhd.cons_to_prim, LibSrhd.prim_to_cons, LibSrhd.momentum_squared.
  cbn -[LibSrhd.newton_loop].
  fold w.
  rewrite (newton_loop_at_state (5 / 3) 1 (1 / 100) (2 * 2) w _
             HG Hrho Hpre Hu Hclamp Hw Hww) by ring.
  rewrite (recovered_density 1 w Hw).
  rewrite !(recovered_velocity 1 w _ _ (1 / 100) Hrho Hw Hh).
  reflexivity.
Qed.

Lemma cons_to_prim_density_bounds_witness :
  let p := [1; 2; 1 / 100] in
  let u := LibSrhd.prim_to_cons NPRIM3 (5 / 3) p in
  LibSrhd.rd u LibSrhd.DEN / 100000 <= LibSrhd.rd p LibSrhd.RHO
  <= LibSrhd.rd u LibSrhd.DEN.
Proof.
  apply (cons_to_prim_density_bounds NPRIM3 (5 / 3)
           (LibSrhd.prim_to_cons NPRIM3 (5 / 3) [1; 2; 1 / 100])
           [1; 2; 1 / 100] [1; 2; 1 / 100]).
  - cbn. apply Rmult_le_pos; [lra | apply sqrt_pos].
  - exact recovered_sample.
Defined.

End Recovered.

(* ================================================================== *)
(** ** The fatal exit of the recovery, in any arithmetic *)

Section FatalExit.
Context {F : Type} {AR : Arith F}.
Variable NPRIM : nprim.
Variable GAMMA_LAW_INDEX : F.

(** The first index at which a test holds, among those up to a bound. *)
Lemma first_index (f : nat -> bool) (n : nat) :
  f n = true ->
  exists k, k <= n /\ f k = true /\ forall j, j < k -> f j = false.
Proof.
  induction n as [n IH] using lt_wf_ind. intros Hn.
  destruct (forallb (fun j => negb (f j)) (seq 0 n)) eqn:E.
  - exists n. split; [lia|]. split; [exact Hn|].
    intros j Hj. rewrite forallb_forall in E.
    specialize (E j ltac:(apply in_seq; lia)).
    destruct (f j); [discriminate E | reflexivity].
  - assert (Hex : exists j, j < n /\ f j = true).
    { clear -E. induction n as [|n IH].
      - discriminate E.
      - rewrite seq_S, forallb_app in E. cbn in E.
        destruct (forallb _ (seq 0 n)) eqn:E1.
        + exists n. split; [lia|]. destruct (f n); [reflexivity | discriminate E].
        + destruct (IH eq_refl) as (j & Hj & Hf). exists j. split; [lia | exact Hf]. }
    destruct Hex as (j & Hj & Hf).
    destruct (IH j Hj Hf) as (k & Hk & Hfk & Hmin).
    exists k. split; [lia|]. split; assumption.
Qed.

(** [cons_to_prim] ends in the fatal exit exactly when none of the passes
    [0 .. newton_iter_max] meets the tolerance; one converging pass among
    these [newton_iter_max + 1] is enough for it to return. *)
Theorem cons_to_prim_aborts_iff (u p : list F) :
  let m := LibSrhd.rd u LibSrhd.DEN in
  let tau := LibSrhd.rd u (LibSrhd.NRG NPRIM) in
  let ss := LibSrhd.momentum_squared NPRIM u in
  let guess := LibSrhd.rd p (LibSrhd.PRE NPRIM) in
  LibSrhd.cons_to_prim NPRIM GAMMA_LAW_INDEX u p = Aborted <->
  forall j, j <= LibSrhd.newton_iter_max ->
    LibSrhd.converged GAMMA_LAW_INDEX m tau ss
      (LibSrhd.newton_iterate GAMMA_LAW_INDEX m tau ss guess j) = false.
Proof.
  intros m tau ss guess. split.
  - intros H j Hj.
    destruct (LibSrhd.converged GAMMA_LAW_INDEX m tau ss
                (LibSrhd.newton_iterate GAMMA_LAW_INDEX m tau ss guess j)) eqn:E;
      [|reflexivity].
    destruct (first_index
                (fun j => LibSrhd.converged GAMMA_LAW_INDEX m tau ss
                            (LibSrhd.newton_iterate GAMMA_LAW_INDEX m tau ss guess j))
                j E) as (k & Hk & Hfk & Hmin).
    rewrite (cons_to_prim_returns NPRIM GAMMA_LAW_INDEX u p k) in H;
      [discriminate H | lia | exact Hmin | exact Hfk].
  - intros H. apply cons_to_prim_aborts. exact H.
Qed.

End FatalExit.

(* ================================================================== *)
(** ** The flux of a gas at rest *)

Section StaticFlux.
Local Open Scope R_scope.

(** A gas at rest carries no mass and no energy across a face: whatever
    the conserved state handed to [prim_and_cons_to_flux] with it, the
    flux is the pressure, in the momentum slot of the direction, and zero
    in every other slot. *)
Theorem prim_and_cons_to_flux_at_rest
    (NPRIM : nprim) (p u : list R) (direction : Z) :
  at_rest NPRIM p ->
  let pre := LibSrhd.rd p (LibSrhd.PRE NPRIM) in
  let along k := if Z.eqb direction k then pre else 0 in
  LibSrhd.prim_and_cons_to_flux NPRIM p u direction =
  match NPRIM with
  | NPRIM3 => [0; along 1%Z; 0]
  | NPRIM4 => [0; along 1%Z; along 2%Z; 0]
  | NPRIM5 => [0; along 1%Z; along 2%Z; along 3%Z; 0]
  end.
Proof.
  intros Hrest pre along.
  assert (Hal : forall k, pre * LibSrhd.dir_is direction k = along k).
  { intros k. unfold along, LibSrhd.dir_is. destruct (Z.eqb direction k); cbn; ring. }
  unfold LibSrhd.prim_and_cons_to_flux.
  assert (H4 : LibSrhd.four_velocity NPRIM p = (0, 0, 0, 0)).
  { unfold LibSrhd.four_velocity, at_rest in *.
    destruct NPRIM; cbn in *.
    - rewrite Hrest. repeat apply f_equal2; try reflexivity; ring.
    - destruct Hrest as [-> ->]. repeat apply f_equal2; try reflexivity; ring.
    - destruct Hrest as (-> & -> & ->). repeat apply f_equal2; try reflexivity; ring. }
  rewrite H4.
  assert (Hvn : LibSrhd.normal_velocity 0 0 0 (fsqrt (lit1 + 0)%A) direction = 0).
  { unfold LibSrhd.normal_velocity.
    destruct direction as [|[[|[]|]|[|[]|]|]|]; cbn; unfold Rdiv; ring. }
  rewrite Hvn. fold pre.
  cbn [fmul fadd exact]. rewrite !Hal.
  destruct NPRIM; repeat (apply f_equal2; [ring|]); reflexivity.
Qed.

Lemma prim_and_cons_to_flux_at_rest_witness :
  LibSrhd.prim_and_cons_to_flux NPRIM4 [1; 0; 0; 1 / 100] [7; 8; 9; 10] 2 =
  [0; 0; 1 / 100; 0].
Proof.
  apply (prim_and_cons_to_flux_at_rest NPRIM4 [1; 0; 0; 1 / 100]
           [7; 8; 9; 10] 2).
  split; reflexivity.
Defined.

End StaticFlux.


Section CycleOnExamples.
Import Srhd2d.

Lemma set_bc_writes_one_buffer_witness :
  exists s',
    set_bc Primitive1 Examples.s_narrow = Returned s' /\
    solver_mesh s' = solver_mesh Examples.s_narrow /\
    solver_setup s' = solver_setup Examples.s_narrow /\
    num_guard s' = num_guard Examples.s_narrow /\
    num_cons s' = num_cons Examples.s_narrow /\
    Forall2 (fun p p' => p' = setattr p Primitive1 (getattr p' Primitive1))
      (patches Examples.s_narrow) (patches s').
Proof.
  eexists. split; [vm_compute; reflexivity|].
  apply (set_bc_writes_one_buffer Primitive1 Examples.s_narrow). vm_compute; reflexivity.
Defined.

Lemma advance_takes_snapshot_witness :
  exists s',
    advance Examples.idle_library 0.5%float Examples.s_wide = Returned s' /\
    Forall2 (fun p p' => time0 p' = time p /\ conserved0 p' = conserved1 p)
      (patches Examples.s_wide) (patches s').
Proof.
  eexists. split; [vm_compute; reflexivity|].
  apply (advance_takes_snapshot Examples.idle_library 0.5%float Examples.s_wide).
  vm_compute; reflexivity.
Defined.

Lemma advance_moves_time_witness :
  exists s',
    advance ExactExamples.exact_library (1 / 4)%R ExactExamples.s_exact
    = Returned s' /\
    Forall2 (fun p p' => time p' = (time p + 1 / 4)%R)
      (patches ExactExamples.s_exact) (patches s').
Proof.
  eexists. split; [vm_compute; reflexivity|].
  apply (advance_moves_time ExactExamples.exact_library (1 / 4)%R
           ExactExamples.s_exact).
  vm_compute; reflexivity.
Defined.

Lemma advance_moves_solver_time_witness :
  exists s',
    advance ExactExamples.exact_library (1 / 4)%R ExactExamples.s_exact
    = Returned s' /\
    Solver_time s' = Returned (3 + 1 / 4)%R.
Proof.
  eexists. split; [vm_compute; reflexivity|].
  apply (advance_moves_solver_time ExactExamples.exact_library (1 / 4)%R 3%R
           ExactExamples.s_exact); vm_compute; reflexivity.
Defined.

End CycleOnExamples.

(* ================================================================== *)
(** ** The patches of a new solver *)

Section Layout.
Context {F : Type} {AR : Arith F} {cell faces_t : Type}.
Import Srhd2d.
Local Abbreviation Patch := (@Srhd2d.Patch F cell faces_t).
Local Abbreviation Solver := (@Srhd2d.Solver F cell faces_t).
Variable zero_cell : cell.
Variable lib : @Library F cell faces_t.




End Layout.

Section LayoutOnExamples.
Import Srhd2d Examples.


End LayoutOnExamples.

(* ================================================================== *)
(** ** The slope limiter [plm_minmod], in exact arithmetic *)

Section SlopeLimiter.
Import Sailfish06.
Local Open Scope R_scope.

Lemma sign_exact (x : R) :
  (x < 0 /\ sign x = -1) \/ (0 <= x /\ sign x = 1).
Proof.
  unfold sign. cbn. rewrite Rabs_R1.
  destruct (Rlt_dec x 0); [left | right]; split; lra.
Qed.

Lemma minabs_exact (a b c : R) :
  0 <= minabs a b c /\
  minabs a b c <= Rabs a /\ minabs a b c <= Rabs b /\ minabs a b c <= Rabs c /\
  (minabs a b c = Rabs a \/ minabs a b c = Rabs b \/ minabs a b c = Rabs c).
Proof.
  unfold minabs. cbn [ffabs exact].
  destruct (min3_exact (Rabs a) (Rabs b) (Rabs c)) as (H1 & H2 & H3 & H4).
  pose proof (Rabs_pos a). pose proof (Rabs_pos b). pose proof (Rabs_pos c).
  split; [destruct H4 as [E | [E | E]]; rewrite E; assumption|].
  repeat split; assumption.
Qed.

(** At a local extremum of the data (the one-sided differences have
    opposite signs, or one is zero) the limited slope is zero, whatever
    [plm_theta]. *)
Theorem plm_minmod_extremum (yl yc yr plm_theta : R) :
  (yc - yl) * (yr - yc) <= 0 ->
  plm_minmod yl yc yr plm_theta = 0.
Proof.
  intros H. unfold plm_minmod. cbn [fmul fadd fsub exact].
  set (a := (yc - yl) * plm_theta). set (c := (yr - yc) * plm_theta).
  set (b := (yr - yl) * lit0p5).
  assert (Hac : a * c <= 0).
  { unfold a, c.
    replace ((yc - yl) * plm_theta * ((yr - yc) * plm_theta))
      with ((yc - yl) * (yr - yc) * (plm_theta * plm_theta)) by ring.
    assert (0 <= plm_theta * plm_theta) by nra. nra. }
  destruct (minabs_exact a b c) as (Hm0 & Hma & _ & Hmc & _).
  destruct (sign_exact a) as [[Ha ->] | [Ha ->]],
           (sign_exact c) as [[Hc ->] | [Hc ->]].
  - exfalso. nra.
  - replace (-1 + 1) with 0 by ring. ring.
  - replace (1 + -1) with 0 by ring. ring.
  - assert (Hz : a = 0 \/ c = 0).
    { destruct (Req_dec a 0) as [|Hn]; [left; assumption|].
      right. assert (0 < a) by lra. nra. }
    assert (Hm : minabs a b c = 0).
    { destruct Hz as [E | E]; rewrite E, Rabs_R0 in *; lra. }
    rewrite Hm. ring.
Qed.

Lemma plm_minmod_extremum_witness : plm_minmod 1 3 2 (3 / 2) = 0.
Proof. apply (plm_minmod_extremum 1 3 2 (3 / 2)). lra. Defined.

(** On rising data every sign is positive and the limiter returns
    [minabs] of the three candidate slopes. *)
Lemma plm_minmod_rising_minabs (yl yc yr plm_theta : R) :
  0 < plm_theta -> yl <= yc -> yc <= yr ->
  let a := (yc - yl) * plm_theta in
  let b := (yr - yl) * 0.5 in
  let c := (yr - yc) * plm_theta in
  0 <= a /\ 0 <= b /\ 0 <= c /\
  plm_minmod yl yc yr plm_theta = minabs a b c.
Proof.
  intros Ht H1 H2 a b c. unfold plm_minmod. cbn [fmul fadd fsub ffabs exact].
  cbn [lit0p5 lit0p25 exact_limiter]. fold a b c.
  assert (Ha : 0 <= a) by (unfold a; apply Rmult_le_pos; lra).
  assert (Hc : 0 <= c) by (unfold c; apply Rmult_le_pos; lra).
  assert (Hb : 0 <= b) by (unfold b; lra).
  repeat (split; [assumption|]).
  destruct (sign_exact a) as [[? _] | [_ ->]]; [lra|].
  destruct (sign_exact b) as [[? _] | [_ ->]]; [lra|].
  destruct (sign_exact c) as [[? _] | [_ ->]]; [lra|].
  rewrite (Rabs_pos_eq (1 + 1)) by lra.
  lra.
Qed.

(** On rising data ([yl <= yc <= yr]) and for a positive [plm_theta], the
    limited slope is the least of the three candidate slopes: the two
    one-sided differences times [plm_theta] and the centred difference. *)
Theorem plm_minmod_rising (yl yc yr plm_theta : R) :
  0 < plm_theta -> yl <= yc -> yc <= yr ->
  plm_minmod yl yc yr plm_theta =
  LibSrhd.min3 ((yc - yl) * plm_theta) ((yr - yl) * 0.5) ((yr - yc) * plm_theta).
Proof.
  intros Ht H1 H2.
  destruct (plm_minmod_rising_minabs yl yc yr plm_theta Ht H1 H2)
    as (Ha & Hb & Hc & ->).
  unfold minabs. cbn [ffabs exact].
  rewrite !Rabs_pos_eq by assumption. reflexivity.
Qed.

Lemma plm_minmod_rising_witness :
  plm_minmod 1 2 5 (3 / 2) =
  LibSrhd.min3 ((2 - 1) * (3 / 2)) ((5 - 1) * 0.5) ((5 - 2) * (3 / 2)).
Proof. apply (plm_minmod_rising 1 2 5 (3 / 2)); lra. Defined.

(** With [plm_theta] in (0, 2] the slope limited on rising data is not
    negative, and the values it gives at the two faces of the zone,
    [yc - 0.5 g] and [yc + 0.5 g], stay between the neighbours: the
    reconstruction makes no new extremum. *)
Theorem plm_minmod_face_values (yl yc yr plm_theta : R) :
  0 < plm_theta <= 2 -> yl <= yc -> yc <= yr ->
  let g := plm_minmod yl yc yr plm_theta in
  0 <= g /\ yl <= yc - 0.5 * g /\ yc + 0.5 * g <= yr.
Proof.
  intros [Ht Ht2] H1 H2 g. unfold g. clear g.
  destruct (plm_minmod_rising_minabs yl yc yr plm_theta Ht H1 H2)
    as (Ha & Hb & Hc & ->).
  match goal with |- context [minabs ?a ?b ?c] =>
    destruct (minabs_exact a b c) as (Hm0 & Hma & _ & Hmc & _) end.
  rewrite Rabs_pos_eq in Hma, Hmc by assumption.
  split; [assumption|].
  assert ((yc - yl) * plm_theta <= (yc - yl) * 2)
    by (apply Rmult_le_compat_l; lra).
  assert ((yr - yc) * plm_theta <= (yr - yc) * 2)
    by (apply Rmult_le_compat_l; lra).
  split; lra.
Qed.

Lemma plm_minmod_face_values_witness :
  let g := plm_minmod 1 2 5 (3 / 2) in
  0 <= g /\ 1 <= 2 - 0.5 * g /\ 2 + 0.5 * g <= 5.
Proof. apply (plm_minmod_face_values 1 2 5 (3 / 2)); lra. Defined.

(** On data that lie on a line (equal one-sided differences [d]) and for
    [plm_theta >= 1], the limiter returns the slope [d] of the line. *)
Theorem plm_minmod_linear (yl yc yr plm_theta d : R) :
  1 <= plm_theta -> yc - yl = d -> yr - yc = d ->
  plm_minmod yl yc yr plm_theta = d.
Proof.
  intros Ht H1 H2. unfold plm_minmod. cbn [fmul fadd fsub ffabs exact].
  cbn [lit0p5 lit0p25 exact_limiter].
  replace (yr - yl) with (d + d) by lra. rewrite H1, H2.
  replace ((d + d) * 0.5) with d by lra.
  destruct (minabs_exact (d * plm_theta) d (d * plm_theta))
    as (Hm0 & Hma & Hmb & _ & Hm).
  assert (Habs : Rabs d <= Rabs (d * plm_theta)).
  { rewrite Rabs_mult, (Rabs_pos_eq plm_theta) by lra.
    pose proof (Rabs_pos d). nra. }
  assert (Hmin : minabs (d * plm_theta) d (d * plm_theta) = Rabs d)
    by (destruct Hm as [E | [E | E]]; lra).
  rewrite Hmin.
  destruct (Rlt_dec d 0) as [Hd | Hd].
  - assert (d * plm_theta < 0) by nra.
    destruct (sign_exact (d * plm_theta)) as [[_ ->] | [? _]]; [|lra].
    destruct (sign_exact d) as [[_ ->] | [? _]]; [|lra].
    rewrite (Rabs_left d) by lra.
    rewrite (Rabs_left (-1 + -1)) by lra. lra.
  - assert (0 <= d * plm_theta) by nra.
    destruct (sign_exact (d * plm_theta)) as [[? _] | [_ ->]]; [lra|].
    destruct (sign_exact d) as [[? _] | [_ ->]]; [lra|].
    rewrite (Rabs_pos_eq d) by lra.
    rewrite (Rabs_pos_eq (1 + 1)) by lra. lra.
Qed.

Lemma plm_minmod_linear_witness : plm_minmod 1 3 5 (3 / 2) = 2.
Proof. apply (plm_minmod_linear 1 3 5 (3 / 2) 2); lra. Defined.

Lemma sign_neg (x : R) : x < 0 -> sign x = -1.
Proof. intros H. destruct (sign_exact x) as [[_ E] | [? _]]; [exact E | lra]. Qed.

Lemma sign_nonneg (x : R) : 0 <= x -> sign x = 1.
Proof. intros H. destruct (sign_exact x) as [[? _] | [_ E]]; [lra | exact E]. Qed.

Lemma minabs_reversed (a b c : R) : minabs (- c) (- b) (- a) = minabs a b c.
Proof.
  destruct (minabs_exact a b c) as (_ & H1 & H2 & H3 & H4).
  destruct (minabs_exact (- c) (- b) (- a)) as (_ & K1 & K2 & K3 & K4).
  rewrite !Rabs_Ropp in *.
  destruct H4 as [E | [E | E]], K4 as [E' | [E' | E']]; lra.
Qed.

(** Reading the stencil from right to left flips the sign of the limited
    slope and nothing else. *)
Theorem plm_minmod_mirror (yl yc yr plm_theta : R) :
  plm_minmod yr yc yl plm_theta = - plm_minmod yl yc yr plm_theta.
Proof.
  unfold plm_minmod. cbn [fmul fadd fsub ffabs exact].
  cbn [lit0p5 lit0p25 exact_limiter].
  replace ((yc - yr) * plm_theta) with (- ((yr - yc) * plm_theta)) by ring.
  replace ((yl - yr) * 0.5) with (- ((yr - yl) * 0.5)) by lra.
  replace ((yl - yc) * plm_theta) with (- ((yc - yl) * plm_theta)) by ring.
  assert (Hsum : (yc - yl) * plm_theta + (yr - yc) * plm_theta
                 = 2 * ((yr - yl) * 0.5) * plm_theta) by lra.
  set (a := (yc - yl) * plm_theta) in *. set (c := (yr - yc) * plm_theta) in *.
  set (b := (yr - yl) * 0.5) in *. clearbody a b c.
  rewrite minabs_reversed.
  destruct (minabs_exact a b c) as (Hm0 & Hma & _ & Hmc & _).
  set (m := minabs a b c) in *. clearbody m.
  destruct (Req_dec a 0) as [Ea | Na].
  { assert (m = 0) by (rewrite Ea, Rabs_R0 in Hma; lra). subst m. ring. }
  destruct (Req_dec c 0) as [Ec | Nc].
  { assert (m = 0) by (rewrite Ec, Rabs_R0 in Hmc; lra). subst m. ring. }
  assert (E2 : Rabs (1 + 1) = 2) by (apply Rabs_pos_eq; lra).
  assert (E0 : Rabs (1 + -1) = 0) by (replace (1 + -1) with 0 by ring; apply Rabs_R0).
  assert (E0' : Rabs (-1 + 1) = 0) by (replace (-1 + 1) with 0 by ring; apply Rabs_R0).
  assert (E2' : Rabs (-1 + -1) = 2) by (rewrite Rabs_left; lra).
  destruct (Rdichotomy _ _ Na) as [Ha | Ha], (Rdichotomy _ _ Nc) as [Hc | Hc],
           (Rtotal_order b 0) as [Hb | [Hb | Hb]];
    try (exfalso; nra);
    repeat match goal with
           | |- context [sign ?x] =>
               first [rewrite (sign_neg x) by lra | rewrite (sign_nonneg x) by lra]
           end;
    rewrite ?E2, ?E0, ?E0', ?E2'; lra.
Qed.

End SlopeLimiter.

(* ================================================================== *)
(** ** The conservative update *)

Section ConservativeUpdate.
Context {F : Type} {AR : Arith F}.
Import Sailfish06.

Lemma length_wr (a : list F) (i : nat) (x : F) : length (wr a i x) = length a.
Proof.
  unfold wr. destruct (Nat.ltb_spec i (length a)); [|reflexivity].
  rewrite length_app, length_firstn. cbn [length]. rewrite length_skipn. lia.
Qed.

Lemma rd_wr (a : list F) (i j : nat) (x : F) :
  i < length a ->
  LibSrhd.rd (wr a i x) j = if Nat.eqb j i then x else LibSrhd.rd a j.
Proof.
  intros Hi. unfold wr, LibSrhd.rd.
  destruct (Nat.ltb_spec i (length a)); [|lia].
  assert (Hf : length (firstn i a) = i) by (rewrite length_firstn; lia).
  destruct (Nat.eqb_spec j i) as [-> | Hne].
  - rewrite app_nth2 by lia. rewrite Hf, Nat.sub_diag. reflexivity.
  - destruct (Nat.lt_ge_cases j i) as [Hlt | Hge].
    + rewrite app_nth1 by lia.
      rewrite <- (firstn_skipn i a) at 2. rewrite app_nth1 by lia. reflexivity.
    + rewrite app_nth2 by lia. rewrite Hf.
      destruct (j - i) as [|k] eqn:Ek; [lia|]. cbn [nth].
      rewrite <- (firstn_skipn (S i) a) at 2.
      rewrite app_nth2 by (rewrite length_firstn; lia).
      rewrite length_firstn. f_equal. lia.
Qed.

(** The entry a zone update leaves at position [j]. *)
Let updated (u f : list F) (dt dx : F) (j : nat) : F :=
  (LibSrhd.rd u j - (LibSrhd.rd f (j + 3) - LibSrhd.rd f j) * dt / dx)%A.

Lemma length_update_zone (f : list F) (dt dx : F) (i : nat) (u : list F) :
  length (update_zone f dt dx i u) = length u.
Proof. unfold update_zone. cbn. rewrite !length_wr. reflexivity. Qed.

Lemma rd_update_zone (f : list F) (dt dx : F) (i : nat) (u : list F) (j : nat) :
  3 * i + 3 <= length u ->
  LibSrhd.rd (update_zone f dt dx i u) j =
  if Nat.eqb (j / 3) i then updated u f dt dx j else LibSrhd.rd u j.
Proof.
  intros Hi. unfold update_zone. cbn [fold_left seq].
  rewrite !rd_wr by (rewrite ?length_wr; lia).
  unfold updated.
  replace (3 * (i + 0)) with (3 * i) by lia.
  replace (3 * (i + 1)) with (3 * i + 3) by lia.
  assert (Hdiv : j / 3 = i <-> 3 * i <= j < 3 * i + 3).
  { split; intros H.
    - subst i. pose proof (Nat.div_mod_eq j 3).
      pose proof (Nat.mod_upper_bound j 3). lia.
    - symmetry. apply (Nat.div_unique j 3 i (j - 3 * i)); lia. }
  destruct (Nat.eqb_spec (j / 3) i) as [E | E].
  - apply Hdiv in E.
    assert (j = 3 * i + 0 \/ j = 3 * i + 1 \/ j = 3 * i + 2) as [-> | [-> | ->]] by lia.
    + replace (Nat.eqb (3 * i + 0) (3 * i + 2)) with false
        by (symmetry; apply Nat.eqb_neq; lia).
      replace (Nat.eqb (3 * i + 0) (3 * i + 1)) with false
        by (symmetry; apply Nat.eqb_neq; lia).
      rewrite Nat.eqb_refl.
      replace (3 * i + 0 + 3) with (3 * i + 3 + 0) by lia. reflexivity.
    + replace (Nat.eqb (3 * i + 1) (3 * i + 2)) with false
        by (symmetry; apply Nat.eqb_neq; lia).
      rewrite Nat.eqb_refl.
      replace (Nat.eqb (3 * i + 1) (3 * i + 0)) with false
        by (symmetry; apply Nat.eqb_neq; lia).
      replace (3 * i + 1 + 3) with (3 * i + 3 + 1) by lia. reflexivity.
    + rewrite Nat.eqb_refl.
      replace (Nat.eqb (3 * i + 2) (3 * i + 1)) with false
        by (symmetry; apply Nat.eqb_neq; lia).
      replace (Nat.eqb (3 * i + 2) (3 * i + 0)) with false
        by (symmetry; apply Nat.eqb_neq; lia).
      replace (3 * i + 2 + 3) with (3 * i + 3 + 2) by lia. reflexivity.
  - assert (Hout : ~ (3 * i <= j < 3 * i + 3)) by (intros H; apply E, Hdiv, H).
    replace (Nat.eqb j (3 * i + 2)) with false by (symmetry; apply Nat.eqb_neq; lia).
    replace (Nat.eqb j (3 * i + 1)) with false by (symmetry; apply Nat.eqb_neq; lia).
    replace (Nat.eqb j (3 * i + 0)) with false by (symmetry; apply Nat.eqb_neq; lia).
    reflexivity.
Qed.

(** The loop over the zones [lo .. lo + n - 1]. *)
Lemma rd_update_zones (f : list F) (dt dx : F) (n : nat) :
  forall (lo : nat) (u : list F) (j : nat),
    3 * (lo + n) <= length u ->
    let u' := fold_left (fun s i => update_zone f dt dx i s) (seq lo n) u in
    length u' = length u /\
    LibSrhd.rd u' j =
    if (Nat.leb lo (j / 3) && Nat.ltb (j / 3) (lo + n))%bool
    then updated u f dt dx j else LibSrhd.rd u j.
Proof.
  induction n as [|n IH]; intros lo u j Hlen; cbn [seq fold_left].
  - split; [reflexivity|].
    destruct (Nat.leb_spec lo (j / 3)), (Nat.ltb_spec (j / 3) (lo + 0));
      try reflexivity; lia.
  - destruct (IH (S lo) (update_zone f dt dx lo u) j) as (Hl & Hr).
    { rewrite length_update_zone. lia. }
    cbn zeta in Hl, Hr. rewrite Hl, Hr, length_update_zone.
    split; [reflexivity|].
    rewrite rd_update_zone by lia.
    unfold updated. rewrite !rd_update_zone by lia.
    assert (Hq : (j + 3) / 3 = S (j / 3)).
    { replace (j + 3) with (j + 1 * 3) by lia. rewrite Nat.div_add by lia. lia. }
    destruct (Nat.eqb_spec (j / 3) lo) as [E | E],
             (Nat.leb_spec (S lo) (j / 3)), (Nat.leb_spec lo (j / 3)),
             (Nat.ltb_spec (j / 3) (S lo + n)), (Nat.ltb_spec (j / 3) (lo + S n));
      cbn [andb]; try lia; reflexivity.
Qed.

(** [conservative_update] on arrays [u] and [f] of [ni] whole zones
    (three doubles each): [u] keeps its size; the first two and the final two
    zones are as they were; in every zone between them each entry has
    lost the difference of the fluxes at the two faces of the zone, times
    [dt / dx]. *)
Theorem conservative_update_zones (u f : list F) (dt dx : F) (ni j : nat) :
  length u = 3 * ni -> length f = 3 * ni ->
  let u' := conservative_update u f dt dx in
  length u' = length u /\
  LibSrhd.rd u' j =
  if (Nat.leb 2 (j / 3) && Nat.ltb (j / 3) (ni - 2))%bool
  then (LibSrhd.rd u j
        - (LibSrhd.rd f (j + 3) - LibSrhd.rd f j) * dt / dx)%A
  else LibSrhd.rd u j.
Proof.
  intros Hlen _ u'. unfold u', conservative_update, conservative_update_kernel,
    FOR_RANGE_1D. clear u'.
  replace (length u / 3) with ni
    by (rewrite Hlen, Nat.mul_comm, Nat.div_mul; lia).
  destruct (Nat.le_gt_cases 4 ni) as [H4 | H4].
  - destruct (rd_update_zones f dt dx (ni - 2 - 2) 2 u j) as (Hl & Hr); [lia|].
    cbn zeta in Hl, Hr. split; [exact Hl|].
    rewrite Hr. replace (2 + (ni - 2 - 2)) with (ni - 2) by lia. reflexivity.
  - replace (ni - 2 - 2) with 0 by lia. cbn [seq fold_left].
    split; [reflexivity|].
    destruct (Nat.leb_spec 2 (j / 3)), (Nat.ltb_spec (j / 3) (ni - 2));
      cbn [andb]; try reflexivity; lia.
Qed.

End ConservativeUpdate.

Section ConservativeUpdateOnExamples.
Import Sailfish06.

Lemma conservative_update_zones_witness :
  let u := [1; 2; 3; 4; 5; 6; 7; 8; 9; 10; 11; 12; 13; 14; 15]%float in
  let f := [0; 0; 0; 0; 0; 0; 1; 2; 3; 5; 7; 9; 0; 0; 0]%float in
  let u' := conservative_update u f 0.5%float 0.25%float in
  length u' = length u /\
  LibSrhd.rd u' 7 =
  (LibSrhd.rd u 7 - (LibSrhd.rd f (7 + 3) - LibSrhd.rd f 7) * 0.5 / 0.25)%float.
Proof.
  exact (conservative_update_zones
           [1; 2; 3; 4; 5; 6; 7; 8; 9; 10; 11; 12; 13; 14; 15]%float
           [0; 0; 0; 0; 0; 0; 1; 2; 3; 5; 7; 9; 0; 0; 0]%float
           0.5%float 0.25%float 5 7 eq_refl eq_refl).
Defined.

End ConservativeUpdateOnExamples.

Section Conservation.
Import Sailfish06.
Local Open Scope R_scope.

Lemma zone_sum_telescopes (u u' f : list R) (dt dx : R) (q n : nat) :
  forall lo,
    (forall i, (lo <= i < lo + n)%nat ->
       LibSrhd.rd u' (3 * i + q) =
       LibSrhd.rd u (3 * i + q)
       - (LibSrhd.rd f (3 * i + q + 3) - LibSrhd.rd f (3 * i + q)) * dt / dx) ->
    zone_sum u' q lo n =
    zone_sum u q lo n
    - (LibSrhd.rd f (3 * (lo + n) + q) - LibSrhd.rd f (3 * lo + q)) * dt / dx.
Proof.
  unfold zone_sum.
  induction n as [|n IH]; intros lo H; cbn [seq map fold_right].
  - rewrite Nat.add_0_r. unfold Rdiv. ring.
  - rewrite (IH (S lo)) by (intros i Hi; apply H; lia).
    rewrite (H lo) by lia.
    replace (3 * lo + q + 3)%nat with (3 * S lo + q)%nat by lia.
    replace (S lo + n)%nat with (lo + S n)%nat by lia.
    unfold Rdiv. ring.
Qed.

(** Conservation, in exact arithmetic, on arrays of [ni] whole zones:
    over the zones the update touches (all but the first two and the
    final two) the total of each conserved component changes by the flux
    through the two outer faces alone, times [dt / dx]; the fluxes at the
    faces in between cancel. *)
Theorem conservative_update_telescopes (u f : list R) (dt dx : R) (ni q : nat) :
  length u = (3 * ni)%nat -> length f = (3 * ni)%nat ->
  (4 <= ni)%nat -> (q < 3)%nat ->
  zone_sum (conservative_update u f dt dx) q 2 (ni - 4) =
  zone_sum u q 2 (ni - 4)
  - (LibSrhd.rd f (3 * (ni - 2) + q) - LibSrhd.rd f (3 * 2 + q)) * dt / dx.
Proof.
  intros Hlen _ Hni Hq.
  rewrite (zone_sum_telescopes u (conservative_update u f dt dx) f dt dx q (ni - 4) 2).
  - replace (2 + (ni - 4))%nat with (ni - 2)%nat by lia. reflexivity.
  - intros i Hi.
    unfold conservative_update, conservative_update_kernel, FOR_RANGE_1D.
    replace (length u / 3)%nat with ni
      by (rewrite Hlen, Nat.mul_comm, Nat.div_mul; lia).
    destruct (rd_update_zones f dt dx (ni - 2 - 2) 2 u (3 * i + q)) as (_ & Hr);
      [lia|].
    cbn zeta in Hr. rewrite Hr.
    assert (Hdiv : ((3 * i + q) / 3 = i)%nat).
    { rewrite Nat.mul_comm, Nat.div_add_l by lia.
      rewrite (Nat.div_small q 3) by lia. lia. }
    rewrite Hdiv.
    destruct (Nat.leb_spec 2 i), (Nat.ltb_spec i (2 + (ni - 2 - 2))); try lia.
    reflexivity.
Qed.

Lemma conservative_update_telescopes_witness :
  let u := [1; 2; 3; 4; 5; 6; 7; 8; 9; 10; 11; 12; 13; 14; 15; 16; 17; 18] in
  let f := [0; 0; 0; 0; 0; 0; 1; 2; 3; 5; 7; 9; 2; 4; 6; 0; 0; 0] in
  zone_sum (conservative_update u f (1 / 2) (1 / 4)) 1 2 (6 - 4) =
  zone_sum u 1 2 (6 - 4)
  - (LibSrhd.rd f (3 * (6 - 2) + 1) - LibSrhd.rd f (3 * 2 + 1)) * (1 / 2) / (1 / 4).
Proof.
  apply (conservative_update_telescopes
           [1; 2; 3; 4; 5; 6; 7; 8; 9; 10; 11; 12; 13; 14; 15; 16; 17; 18]
           [0; 0; 0; 0; 0; 0; 1; 2; 3; 5; 7; 9; 2; 4; 6; 0; 0; 0]
           (1 / 2) (1 / 4) 6 1); [reflexivity | reflexivity | lia | lia].
Defined.

End Conservation.
